(** * cosmos-keys: the encrypted wallet store (src/cosmos-keystore.ts)

    A shallow embedding of the keystore module and of the key, address and
    signing functions its test-suite exercises.

    The keystore is written against three things it does not define: the
    browser's [localStorage], the built-in [JSON] object and the [CryptoJS]
    library.  [localStorage] is a finite map from strings to strings, the
    random generator of CryptoJS is a stream of bytes consumed from the
    world, and the pure library functions are the fields of the class
    [Runtime]; what the proofs need to know about them is stated as the laws
    [JSONLaws], [KeyLaws] and [CipherLaws].  What CryptoJS does between the
    keystore and its block cipher (HMAC and PBKDF2, Base64, the text format
    of a ciphertext) is written out.

    Strings are sequences of code units below 256: a string with a lone
    surrogate, whose UTF-8 encoding CryptoJS refuses, is not among them. *)

From Stdlib Require Import ZArith String Ascii List Lia.
From Stdlib.Strings Require Import Byte.
From stdpp Require Import gmap strings list.

Open Scope string_scope.

(** ** JavaScript values *)

(** The values [JSON.parse] can return.  A number is kept as the bit pattern
    of its IEEE-754 double. *)
#[warnings="-register-all"]
Inductive json : Type :=
| JNull
| JBool (b : bool)
| JNum (bits : Z)
| JStr (s : string)
| JArr (elements : list json)
| JObj (fields : list (string * json)).

(** [+0], [-0] and the NaNs are the falsy numbers. *)
Definition number_is_falsy (bits : Z) : bool :=
  let magnitude := Z.land bits (Z.ones 63) in
  (magnitude =? 0)%Z || (Z.shiftl 2047 52 <? magnitude)%Z.

(** ToBoolean: what [if (v)] and [!v] test. *)
Definition truthy (v : json) : bool :=
  match v with
  | JNull => false
  | JBool b => b
  | JNum bits => negb (number_is_falsy bits)
  | JStr s => negb (String.eqb s "")
  | JArr _ => true
  | JObj _ => true
  end.

Fixpoint assoc (k : string) (fields : list (string * json)) : option json :=
  match fields with
  | [] => None
  | (k', v) :: rest => if String.eqb k k' then Some v else assoc k rest
  end.

(** [v.k] for one of the keys this module reads ([name], [address],
    [wallet]): [None] is [undefined]. Only objects carry such a property. *)
Definition js_get (v : json) (k : string) : option json :=
  match v with
  | JObj fields => assoc k fields
  | _ => None
  end.

(** [x === s] for a string [s] and a property value [x]. *)
Definition strict_eq_string (x : option json) (s : string) : bool :=
  match x with
  | Some (JStr s') => String.eqb s' s
  | _ => false
  end.

(** ** The typed records of [./types] and their object form *)

Record Wallet : Type := mkWallet {
  cosmosAddress : string;
  privateKey : string;
  publicKey : string
}.

Record StoredWallet : Type := mkStoredWallet {
  sw_name : string;
  sw_address : string;
  sw_wallet : string
}.

Record IndexEntry : Type := mkIndexEntry {
  ie_name : string;
  ie_address : string
}.

Definition wallet_json (w : Wallet) : json :=
  JObj [("cosmosAddress", JStr (cosmosAddress w));
        ("privateKey", JStr (privateKey w));
        ("publicKey", JStr (publicKey w))].

(** [{ name, address, wallet: ciphertext }] *)
Definition stored_json (sw : StoredWallet) : json :=
  JObj [("name", JStr (sw_name sw));
        ("address", JStr (sw_address sw));
        ("wallet", JStr (sw_wallet sw))].

(** [{ name, address }] *)
Definition entry_json (e : IndexEntry) : json :=
  JObj [("name", JStr (ie_name e)); ("address", JStr (ie_address e))].

Definition index_json (idx : list IndexEntry) : json :=
  JArr (map entry_json idx).

(** The documents this module hands to [JSON.stringify]. *)
Inductive persisted : json -> Prop :=
| persisted_wallet w : persisted (wallet_json w)
| persisted_stored sw : persisted (stored_json sw)
| persisted_index idx : persisted (index_json idx).

(** ** Exceptions and the world *)

Inductive exn : Type :=
| Error (message : string)
| SyntaxError
| TypeError.

Inductive outcome (A : Type) : Type :=
| Returned (a : A)
| Thrown (e : exn).
Arguments Returned {A} a.
Arguments Thrown {A} e.

(** [localStorage] and the random generator behind
    [CryptoJS.lib.WordArray.random]: byte [i] of the stream is
    [random_source i], and [random_used] bytes have been drawn so far. *)
Record world : Type := mkWorld {
  localStorage : gmap string string;
  random_source : nat -> byte;
  random_used : nat
}.

Definition with_storage (f : gmap string string -> gmap string string)
    (w : world) : world :=
  mkWorld (f (localStorage w)) (random_source w) (random_used w).

(** A computation runs in a world, returns or throws, and leaves a world
    behind: what was written before a [throw] stays written. *)
Definition M (A : Type) : Type := world -> outcome A * world.

#[global] Instance M_ret : MRet M := fun A a w => (Returned a, w).
#[global] Instance M_bind : MBind M := fun A B k m w =>
  match m w with
  | (Returned a, w') => k a w'
  | (Thrown e, w') => (Thrown e, w')
  end.

Definition throw {A : Type} (e : exn) : M A := fun w => (Thrown e, w).

(** [try { body } catch (err) { handler }] *)
Definition try_catch {A : Type} (body : M A) (handler : exn -> M A) : M A :=
  fun w =>
    match body w with
    | (Returned a, w') => (Returned a, w')
    | (Thrown e, w') => handler e w'
    end.

Definition lift_option {A : Type} (e : exn) (o : option A) : M A :=
  match o with
  | Some a => mret a
  | None => throw e
  end.

Definition localStorage_getItem (key : string) : M (option string) :=
  fun w => (Returned (localStorage w !! key), w).

Definition localStorage_setItem (key value : string) : M unit :=
  fun w => (Returned tt, with_storage (insert key value) w).

Definition localStorage_removeItem (key : string) : M unit :=
  fun w => (Returned tt, with_storage (delete key) w).

(** [CryptoJS.lib.WordArray.random(nBytes)] *)
Definition WordArray_random (nBytes : nat) : M (list byte) :=
  fun w =>
    (Returned (map (random_source w) (seq (random_used w) nBytes)),
     mkWorld (localStorage w) (random_source w) (random_used w + nBytes)).

(** [item || fallback] on the result of [getItem]: [null] and the empty
    string are falsy. *)
Definition or_default (item : option string) (fallback : string) : string :=
  match item with
  | None => fallback
  | Some s => if String.eqb s "" then fallback else s
  end.

(** ** Hexadecimal rendering of a word array *)

Definition hex_digit (n : N) : ascii :=
  match n with
  | 0 => "0" | 1 => "1" | 2 => "2" | 3 => "3" | 4 => "4" | 5 => "5"
  | 6 => "6" | 7 => "7" | 8 => "8" | 9 => "9" | 10 => "a" | 11 => "b"
  | 12 => "c" | 13 => "d" | 14 => "e" | _ => "f"
  end%N%char.

(** [wordArray.toString()], the hex encoder: two lower-case digits a byte. *)
Fixpoint Hex_stringify (bytes : list byte) : string :=
  match bytes with
  | [] => ""
  | b :: rest =>
      String (hex_digit (Byte.to_N b / 16))
        (String (hex_digit (Byte.to_N b mod 16)) (Hex_stringify rest))
  end.

(** [s.substr(start, len)] is [String.substring start len s];
    [s.substring(start)] drops the first [start] characters. *)
Fixpoint substring_from (start : nat) (s : string) : string :=
  match start, s with
  | 0, _ => s
  | S n, String _ s' => substring_from n s'
  | S _, EmptyString => ""
  end.

(** ** The library functions the module calls *)

(** [JSON.parse] ([None]: it throws a SyntaxError) and [JSON.stringify];
    [CryptoJS.enc.Hex.parse]; the hash function CryptoJS configures
    [PBKDF2] with and the size of its input block in bytes; and the block
    cipher, for [cfg = { iv, padding: Pkcs7, mode: CBC }]:
    [AES_ciphertext message key iv] is the byte array
    [CryptoJS.AES.encrypt(message, key, cfg).ciphertext], and
    [AES_plaintext ciphertext key iv] is
    [CryptoJS.AES.decrypt({ ciphertext }, key, cfg).toString(CryptoJS.enc.Utf8)],
    [None] when the decrypted bytes are not UTF-8 and the conversion
    throws.  How a ciphertext becomes text and text a ciphertext again is
    written out below ([AES_encrypt], [AES_decrypt]). *)
Class Runtime : Type := {
  JSON_parse : string -> option json;
  JSON_stringify : json -> string;
  Hex_parse : string -> list byte;
  hasher : list byte -> list byte;
  hasher_blockSize : nat;
  AES_ciphertext : string -> list byte -> list byte -> list byte;
  AES_plaintext : list byte -> list byte -> list byte -> option string
}.

Definition byte_of_N (n : N) : byte :=
  match Byte.of_N n with
  | Some b => b
  | None => x00
  end.

Definition Z_of_byte (b : byte) : Z := Z.of_N (Byte.to_N b).
Definition byte_of_Z (z : Z) : byte := byte_of_N (Z.to_N (z mod 256)).

Definition byte_xor (a b : byte) : byte :=
  byte_of_N (N.lxor (Byte.to_N a) (Byte.to_N b)).

(** [CryptoJS.enc.Utf8.parse] on a string of code units below 256. *)
Fixpoint Utf8_parse (s : string) : list byte :=
  match s with
  | EmptyString => []
  | String c rest =>
      let n := N_of_ascii c in
      if (n <? 128)%N then byte_of_N n :: Utf8_parse rest
      else byte_of_N (192 + n / 64) :: byte_of_N (128 + n mod 64)
             :: Utf8_parse rest
  end.

(** Big-endian bytes of a 32-bit word. *)
Definition word_bytes (n : N) : list byte :=
  [byte_of_N (n / 16777216 mod 256); byte_of_N (n / 65536 mod 256);
   byte_of_N (n / 256 mod 256); byte_of_N (n mod 256)].

Fixpoint xor_bytes (a b : list byte) : list byte :=
  match a, b with
  | x :: a', y :: b' => byte_xor x y :: xor_bytes a' b'
  | _, [] => a
  | [], _ => []
  end.

(** ** [CryptoJS.enc.Base64] *)

Module Base64.

Local Open Scope Z_scope.

Definition map64 : string :=
  "ABCDEFGHIJKLMNOPQRSTUVWXYZabcdefghijklmnopqrstuvwxyz0123456789+/".

Definition padding : ascii := "="%char.

Definition char (n : Z) : ascii :=
  match String.get (Z.to_nat n) map64 with
  | Some c => c
  | None => padding
  end.

Fixpoint position (c : ascii) (alphabet : string) : Z :=
  match alphabet with
  | EmptyString => 0
  | String d rest => if Ascii.eqb c d then 0 else 1 + position c rest
  end.

(** The reverse map: a character outside the alphabet counts as zero. *)
Definition value (c : ascii) : Z :=
  let n := position c map64 in if n <? 64 then n else 0.

(** Three bytes give four characters; a last group of one or two bytes
    gives two or three, and padding up to four. *)
Fixpoint stringify (bytes : list byte) : string :=
  match bytes with
  | [] => ""
  | [a] =>
      let triplet := Z_of_byte a * 65536 in
      String (char (triplet / 262144))
        (String (char (triplet / 4096 mod 64))
           (String padding (String padding "")))
  | [a; b] =>
      let triplet := Z_of_byte a * 65536 + Z_of_byte b * 256 in
      String (char (triplet / 262144))
        (String (char (triplet / 4096 mod 64))
           (String (char (triplet / 64 mod 64)) (String padding "")))
  | a :: b :: c :: rest =>
      let triplet := Z_of_byte a * 65536 + Z_of_byte b * 256 + Z_of_byte c in
      String (char (triplet / 262144))
        (String (char (triplet / 4096 mod 64))
           (String (char (triplet / 64 mod 64))
              (String (char (triplet mod 64)) (stringify rest))))
  end.

(** The values of the characters before the first padding character. *)
Fixpoint unpadded (text : string) : list Z :=
  match text with
  | EmptyString => []
  | String c rest =>
      if Ascii.eqb c padding then [] else value c :: unpadded rest
  end.

(** Every character but the first of a group of four completes a byte
    with the bits that the character before it left. *)
Fixpoint bytes_of (fuel : nat) (sextets : list Z) : list byte :=
  match fuel, sextets with
  | S fuel', a :: rest =>
      match rest with
      | [] => []
      | [b] => [byte_of_Z (a * 4 + b / 16)]
      | [b; c] => [byte_of_Z (a * 4 + b / 16); byte_of_Z (b * 16 + c / 4)]
      | b :: c :: d :: rest' =>
          byte_of_Z (a * 4 + b / 16) :: byte_of_Z (b * 16 + c / 4)
            :: byte_of_Z (c * 64 + d) :: bytes_of fuel' rest'
      end
  | _, _ => []
  end.

Definition parse (text : string) : list byte :=
  let sextets := unpadded text in bytes_of (length sextets) sextets.

End Base64.

(** [prefix] is how [bytes] begin. *)
Fixpoint starts_with (prefix bytes : list byte) : bool :=
  match prefix, bytes with
  | [], _ => true
  | p :: prefix', b :: bytes' => Byte.eqb p b && starts_with prefix' bytes'
  | _ :: _, [] => false
  end.

(** ** HMAC (RFC 2104), over a hash function and the size of its block *)

Section HMAC.

Variable hash : list byte -> list byte.
Variable blockSize : nat.

(** The key of the HMAC: hashed when longer than a block, then filled with
    zero bytes up to the block size. *)
Definition HMAC_key (key : list byte) : list byte :=
  let key := if (blockSize <? length key)%nat then hash key else key in
  key ++ repeat x00 (blockSize - length key).

Definition HMAC (key message : list byte) : list byte :=
  let padded := HMAC_key key in
  hash (map (byte_xor x5c) padded
          ++ hash (map (byte_xor x36) padded ++ message)).

End HMAC.

Section Keystore.

Context {rt : Runtime}.

(** *** PBKDF2 as CryptoJS computes it (RFC 2898 over HMAC) *)

(** The iterations after the first of one block: each hashes the previous
    one and is xor-ed into the block. *)
Fixpoint PBKDF2_iterate (key : list byte) (n : nat)
    (intermediate block : list byte) : list byte :=
  match n with
  | 0 => block
  | S n' =>
      let intermediate' := HMAC hasher hasher_blockSize key intermediate in
      PBKDF2_iterate key n' intermediate' (xor_bytes block intermediate')
  end.

Definition PBKDF2_block (key salt : list byte) (iterations : nat)
    (blockIndex : N) : list byte :=
  let block := HMAC hasher hasher_blockSize key (salt ++ word_bytes blockIndex) in
  PBKDF2_iterate key (iterations - 1) block block.

(** [while (derivedKeyWords.length < keySize)], at most [fuel] blocks. *)
Fixpoint PBKDF2_loop (key salt : list byte) (keySize iterations : nat)
    (fuel : nat) (blockIndex : N) (derivedKey : list byte) : list byte :=
  match fuel with
  | 0 => derivedKey
  | S fuel' =>
      if (length derivedKey <? 4 * keySize)%nat then
        PBKDF2_loop key salt keySize iterations fuel' (blockIndex + 1)
          (derivedKey ++ PBKDF2_block key salt iterations blockIndex)
      else derivedKey
  end.

(** [CryptoJS.PBKDF2(password, salt, { keySize, iterations })], [keySize]
    in 32-bit words.  A hash value has at least one word, so [keySize]
    blocks are always enough. *)
Definition PBKDF2 (password : string) (salt : list byte)
    (keySize iterations : nat) : list byte :=
  firstn (4 * keySize)
    (PBKDF2_loop (Utf8_parse password) salt keySize iterations keySize 1 []).

(** *** src/cosmos-keystore.ts *)

Definition KEY_TAG : string := "cosmos-wallets".

Definition keySize : nat := 256.
Definition iterations : nat := 100.

Definition JSON_parse_or_throw (text : string) : M json :=
  lift_option SyntaxError (JSON_parse text).

(** A value on which a string method is called: anything but a string has
    no [substr], and the call throws a TypeError. *)
Definition as_string (v : option json) : M string :=
  match v with
  | Some (JStr s) => mret s
  | _ => throw TypeError
  end.

(** *** The cipher text as text ([CryptoJS.format.OpenSSL])

    [encrypt] keeps [encrypted.toString()] and [decrypt] hands that text to
    [CryptoJS.AES.decrypt]; both go through the default format.  With a key
    that is a byte array the cipher has no salt, and the text is the Base64
    of the ciphertext alone.  Reading a text, the format takes a
    ciphertext that begins with the eight bytes [Salted__] for one that
    carries a salt, and drops its first sixteen bytes. *)
Definition Salted__ : list byte := Utf8_parse "Salted__".

Definition OpenSSL_stringify (ciphertext : list byte) : string :=
  Base64.stringify ciphertext.

Definition OpenSSL_parse (openSSLStr : string) : list byte :=
  let ciphertext := Base64.parse openSSLStr in
  if starts_with Salted__ ciphertext then skipn 16 ciphertext else ciphertext.

(** [CryptoJS.AES.encrypt(message, key, cfg).toString()] and
    [CryptoJS.AES.decrypt(ciphertext, key, cfg).toString(CryptoJS.enc.Utf8)]
    for a [ciphertext] that is a string. *)
Definition AES_encrypt (message : string) (key iv : list byte) : string :=
  OpenSSL_stringify (AES_ciphertext message key iv).

Definition AES_decrypt (ciphertext : string) (key iv : list byte)
    : option string :=
  AES_plaintext (OpenSSL_parse ciphertext) key iv.

Definition encrypt (message password : string) : M string :=
  salt ← WordArray_random (128 / 8);
  let key := PBKDF2 password salt (keySize / 32) iterations in
  iv ← WordArray_random (128 / 8);
  let encrypted := AES_encrypt message key iv in
  (* salt, iv will be hex 32 in length *)
  let transitmessage := Hex_stringify salt +:+ Hex_stringify iv +:+ encrypted in
  mret transitmessage.

Definition decrypt (transitMessage password : string) : M string :=
  let salt := Hex_parse (String.substring 0 32 transitMessage) in
  let iv := Hex_parse (String.substring 32 32 transitMessage) in
  let encrypted := substring_from 64 transitMessage in
  let key := PBKDF2 password salt (keySize / 32) iterations in
  lift_option (Error "Malformed UTF-8 data") (AES_decrypt encrypted key iv).

(** returns the index of the stored wallets *)
Definition getWalletIndex : M json :=
  item ← localStorage_getItem (KEY_TAG +:+ "-index");
  JSON_parse_or_throw (or_default item "[]").

(** loads an encrypted wallet from localstorage *)
Definition loadFromStorage (address : string) : M json :=
  storedKey ← localStorage_getItem (KEY_TAG +:+ "-" +:+ address);
  match storedKey with
  | None => mret JNull
  | Some s => if String.eqb s "" then mret JNull else JSON_parse_or_throw s
  end.

(** [storedIndex.find(({ name: storedName }) => name === storedName)]:
    destructuring [null] throws. *)
Fixpoint find_name (name : string) (storedIndex : list json)
    : outcome (option json) :=
  match storedIndex with
  | [] => Returned None
  | JNull :: _ => Thrown TypeError
  | entry :: rest =>
      if strict_eq_string (js_get entry "name") name
      then Returned (Some entry)
      else find_name name rest
  end.

(** [storedIndex.filter(({ address: storedAddress }) =>
    storedAddress !== address)] *)
Fixpoint filter_address (address : string) (storedIndex : list json)
    : outcome (list json) :=
  match storedIndex with
  | [] => Returned []
  | JNull :: _ => Thrown TypeError
  | entry :: rest =>
      match filter_address address rest with
      | Returned kept =>
          if negb (strict_eq_string (js_get entry "address") address)
          then Returned (entry :: kept)
          else Returned kept
      | Thrown e => Thrown e
      end
  end.

Definition lift_outcome {A : Type} (o : outcome A) : M A := fun w => (o, w).

(** An array method called on the index: only an array has [find],
    [filter] and [push]. *)
Definition as_array (v : json) : M (list json) :=
  match v with
  | JArr l => mret l
  | _ => throw TypeError
  end.

(** stores the names of the keys to prevent name collision *)
Definition addToIndex (name address : string) : M unit :=
  storedIndex ← getWalletIndex;
  entries ← as_array storedIndex;
  found ← lift_outcome (find_name name entries);
  match found with
  | Some _ => throw (Error "Key with that name already exists")
  | None =>
      let storedIndex :=
        JArr (entries ++ [entry_json (mkIndexEntry name address)]) in
      localStorage_setItem (KEY_TAG +:+ "-index") (JSON_stringify storedIndex)
  end.

Definition removeFromIndex (address : string) : M unit :=
  storedIndex ← getWalletIndex;
  entries ← as_array storedIndex;
  updatedIndex ← lift_outcome (filter_address address entries);
  localStorage_setItem (KEY_TAG +:+ "-index")
    (JSON_stringify (JArr updatedIndex)).

(** stores an encrypted wallet in localstorage *)
Definition addToStorage (name address ciphertext : string) : M unit :=
  _ ← addToIndex name address;
  let storedWallet := mkStoredWallet name address ciphertext in
  localStorage_setItem (KEY_TAG +:+ "-" +:+ address)
    (JSON_stringify (stored_json storedWallet)).

(** removed a wallet from localstorage *)
Definition removeFromStorage (address : string) : M unit :=
  _ ← removeFromIndex address;
  localStorage_removeItem (KEY_TAG +:+ "-" +:+ address).

(** loads and decrypts a wallet from localstorage *)
Definition getStoredWallet (address password : string) : M json :=
  storedWallet ← loadFromStorage address;
  if negb (truthy storedWallet) then
    throw (Error "No wallet found for requested address")
  else
    try_catch
      (transit ← as_string (js_get storedWallet "wallet");
       decrypted ← decrypt transit password;
       wallet ← JSON_parse_or_throw decrypted;
       mret wallet)
      (fun _ => throw (Error "Incorrect password")).

(** store a wallet encrypted in localstorage *)
Definition storeWallet (wallet : Wallet) (name password : string) : M unit :=
  storedWallet ← loadFromStorage (cosmosAddress wallet);
  if truthy storedWallet then
    throw (Error "The wallet was already stored. Can't store the same wallet again.")
  else
    ciphertext ← encrypt (JSON_stringify (wallet_json wallet)) password;
    addToStorage name (cosmosAddress wallet) ciphertext.

(** test password by trying to decrypt a key with said password *)
Definition testPassword (address password : string) : M unit :=
  storedWallet ← loadFromStorage address;
  if negb (truthy storedWallet) then
    throw (Error "No wallet found for request address")
  else
    try_catch
      (transit ← as_string (js_get storedWallet "wallet");
       decrypted ← decrypt transit password;
       _ ← JSON_parse_or_throw decrypted;
       mret tt)
      (fun _ => throw (Error "Password for wallet is incorrect")).

(** removes a wallet, after the password check *)
Definition removeWallet (address password : string) : M unit :=
  storedWallet ← loadFromStorage address;
  if negb (truthy storedWallet) then
    throw (Error "No wallet found for requested address")
  else
    (* make sure the user really wants to delete the wallet;
       throws if password is incorrect *)
    _ ← testPassword address password;
    removeFromStorage address.

End Keystore.

Arguments AES_encrypt : simpl never.
Arguments AES_decrypt : simpl never.

(** ** What the proofs assume of the library functions *)

(** [JSON.parse] reads back what [JSON.stringify] wrote, for the documents
    of this module; it rejects the empty text and reads ["[]"] as the empty
    array. *)
Record JSONLaws (rt : Runtime) : Prop := {
  JSON_parse_stringify :
    forall v, persisted v -> JSON_parse (JSON_stringify v) = Some v;
  JSON_parse_empty : JSON_parse "" = None;
  JSON_parse_brackets : JSON_parse "[]" = Some (JArr [])
}.

(** What the layout of the transit message and the key derivation need:
    the hex parser reads back the hex rendering, and a hash value has at
    least one 32-bit word. *)
Record KeyLaws (rt : Runtime) : Prop := {
  Hex_parse_stringify : forall bytes, Hex_parse (Hex_stringify bytes) = bytes;
  hasher_word : forall message, 4 <= length (hasher message)
}.

(** AES-256 in CBC mode under a 16-byte iv decrypts the ciphertext it
    computed.  This is about the byte array of the ciphertext; the text
    that [encrypt] keeps goes through [OpenSSL_parse] first. *)
Record CipherLaws (rt : Runtime) : Prop := {
  AES_plaintext_ciphertext :
    forall message key iv,
      length key = 32 -> length iv = 16 ->
      AES_plaintext (AES_ciphertext message key iv) key iv = Some message
}.

Record CryptoLaws (rt : Runtime) : Prop := {
  crypto_key_laws : KeyLaws rt;
  crypto_cipher_laws : CipherLaws rt
}.

(** ** The store seen through its two kinds of key *)

Definition wallet_key (address : string) : string :=
  KEY_TAG +:+ "-" +:+ address.

Definition index_key : string := KEY_TAG +:+ "-index".

(** The failure classes of the specification, and the class of each
    message the module throws. *)
Inductive failure : Type :=
| WalletNotFound
| IncorrectPassword
| DuplicateAddress
| DuplicateName.

Definition classify (e : exn) : option failure :=
  match e with
  | Error message =>
      if String.eqb message "No wallet found for requested address"
         || String.eqb message "No wallet found for request address"
      then Some WalletNotFound
      else if String.eqb message "Incorrect password"
              || String.eqb message "Password for wallet is incorrect"
      then Some IncorrectPassword
      else if String.eqb message
                "The wallet was already stored. Can't store the same wallet again."
      then Some DuplicateAddress
      else if String.eqb message "Key with that name already exists"
      then Some DuplicateName
      else None
  | _ => None
  end.

Section StoreInvariant.

Context {rt : Runtime}.

(** The wallet entry of [address] is the StoredWallet [sw]. *)
Definition stored_at (ls : gmap string string) (address : string)
    (sw : StoredWallet) : Prop :=
  ls !! wallet_key address = Some (JSON_stringify (stored_json sw)).

(** The index is the sequence [idx]; it is empty before the first write. *)
Definition index_is (ls : gmap string string) (idx : list IndexEntry)
    : Prop :=
  match ls !! index_key with
  | None => idx = []
  | Some text => text = JSON_stringify (index_json idx)
  end.

Definition occurrences (address : string) (idx : list IndexEntry) : nat :=
  length (filter (fun e => ie_address e = address) idx).

(** The invariant of the data model: names are unique across the index,
    the address of every StoredWallet appears exactly once in the index,
    and there is at most one StoredWallet per address. *)
Definition store_invariant (ls : gmap string string) : Prop :=
  exists idx,
    index_is ls idx
    /\ NoDup (map ie_name idx)
    /\ (forall a sw, stored_at ls a sw -> occurrences (sw_address sw) idx = 1)
    /\ (forall a1 a2 sw1 sw2,
          stored_at ls a1 sw1 -> stored_at ls a2 sw2 ->
          sw_address sw1 = sw_address sw2 -> a1 = a2).

(** What the operations maintain, and what implies the invariant: index
    and wallet entries describe each other.  Every wallet key other than
    the index key itself holds nothing or the StoredWallet of its address,
    listed in the index under its name; the addresses of the index are
    distinct and each has its wallet entry. *)
Definition consistent (ls : gmap string string) : Prop :=
  exists idx,
    index_is ls idx
    /\ NoDup (map ie_name idx)
    /\ NoDup (map ie_address idx)
    /\ ("index" ∉ map ie_address idx)
    /\ (forall a, a <> "index" ->
          match ls !! wallet_key a with
          | None => a ∉ map ie_address idx
          | Some text =>
              exists n c,
                text = JSON_stringify (stored_json (mkStoredWallet n a c))
                /\ mkIndexEntry n a ∈ idx
          end).

(** The four operations that take an address, and where one of them
    leaves the world, whether it returns or throws. *)
Inductive operation : Type :=
| StoreWallet (wallet : Wallet) (name password : string)
| RemoveWallet (address password : string)
| GetStoredWallet (address password : string)
| TestPassword (address password : string).

Definition operation_address (o : operation) : string :=
  match o with
  | StoreWallet wallet _ _ => cosmosAddress wallet
  | RemoveWallet address _ => address
  | GetStoredWallet address _ => address
  | TestPassword address _ => address
  end.

Definition world_after (o : operation) (w : world) : world :=
  match o with
  | StoreWallet wallet name password =>
      snd (storeWallet wallet name password w)
  | RemoveWallet address password => snd (removeWallet address password w)
  | GetStoredWallet address password =>
      snd (getStoredWallet address password w)
  | TestPassword address password => snd (testPassword address password w)
  end.

(** The worlds an empty store can get to by operations on addresses other
    than the word [index]. *)
Inductive reachable : world -> Prop :=
| reachable_empty w : localStorage w = ∅ -> reachable w
| reachable_step w o :
    reachable w -> operation_address o <> "index" ->
    reachable (world_after o w).

(** The ciphertext that [encrypt] computes in the world [w], from the salt
    and the iv it draws there. *)
Definition drawn_ciphertext (message password : string) (w : world)
    : list byte :=
  let salt := map (random_source w) (seq (random_used w) 16) in
  let iv := map (random_source w) (seq (random_used w + 16) 16) in
  AES_ciphertext message (PBKDF2 password salt (keySize / 32) iterations) iv.

(** That ciphertext does not begin with the bytes [Salted__]. *)
Definition unsalted (message password : string) (w : world) : Prop :=
  starts_with Salted__ (drawn_ciphertext message password w) = false.

(** Decrypting a stored ciphertext and parsing the result, as the [try]
    blocks of [getStoredWallet] and [testPassword] do: [None] when one of
    the two steps throws. *)
Definition open_ciphertext (ciphertext password : string) (w : world)
    : option json :=
  match decrypt ciphertext password w with
  | (Returned decrypted, _) => JSON_parse decrypted
  | (Thrown _, _) => None
  end.

End StoreInvariant.

(** ** Hash functions *)

(** Big-endian 32-bit words. *)
Definition be32_bytes (x : Z) : list byte :=
  [byte_of_Z (Z.shiftr x 24); byte_of_Z (Z.shiftr x 16);
   byte_of_Z (Z.shiftr x 8); byte_of_Z x].

Fixpoint be32_words (bytes : list byte) : list Z :=
  match bytes with
  | a :: b :: c :: d :: rest =>
      (Z.shiftl (Z_of_byte a) 24 + Z.shiftl (Z_of_byte b) 16
       + Z.shiftl (Z_of_byte c) 8 + Z_of_byte d)%Z :: be32_words rest
  | _ => []
  end.

(** Blocks of [n] items; the recursion is on [fuel], the length of the
    input being enough. *)
Fixpoint chunks {A : Type} (fuel n : nat) (l : list A) : list (list A) :=
  match fuel, l with
  | _, [] => []
  | 0, _ => []
  | S fuel', _ => firstn n l :: chunks fuel' n (skipn n l)
  end.

Module SHA256.

Local Open Scope Z_scope.

Definition mask : Z := 0xffffffff.
Definition add (a b : Z) : Z := Z.land (a + b) mask.
Definition rotr (n x : Z) : Z :=
  Z.lor (Z.shiftr x n) (Z.land (Z.shiftl x (32 - n)) mask).
Definition Ch (x y z : Z) : Z :=
  Z.lxor (Z.land x y) (Z.land (Z.lxor x mask) z).
Definition Maj (x y z : Z) : Z :=
  Z.lxor (Z.lxor (Z.land x y) (Z.land x z)) (Z.land y z).
Definition Sigma0 (x : Z) : Z :=
  Z.lxor (Z.lxor (rotr 2 x) (rotr 13 x)) (rotr 22 x).
Definition Sigma1 (x : Z) : Z :=
  Z.lxor (Z.lxor (rotr 6 x) (rotr 11 x)) (rotr 25 x).
Definition sigma0 (x : Z) : Z :=
  Z.lxor (Z.lxor (rotr 7 x) (rotr 18 x)) (Z.shiftr x 3).
Definition sigma1 (x : Z) : Z :=
  Z.lxor (Z.lxor (rotr 17 x) (rotr 19 x)) (Z.shiftr x 10).

(** The constants as the standard defines them: the first 32 bits of the
    fractional parts of the cube roots, and for the initial state of the
    square roots, of the first primes. *)
Fixpoint has_divisor (d : nat) (n : Z) : bool :=
  match d with
  | O | 1%nat => false
  | S d' => (n mod Z.of_nat d =? 0) || has_divisor d' n
  end.

Definition is_prime (n : nat) : bool :=
  (1 <? n)%nat && negb (has_divisor (Nat.sqrt n) (Z.of_nat n)).

Definition primes (count : nat) : list Z :=
  map Z.of_nat (firstn count (List.filter is_prime (seq 0 320))).

(** The integer cube root, bit by bit from bit [bits - 1] down. *)
Fixpoint cube_root (bits : nat) (n root : Z) : Z :=
  match bits with
  | O => root
  | S bits' =>
      let candidate := root + 2 ^ Z.of_nat bits' in
      if candidate * candidate * candidate <=? n
      then cube_root bits' n candidate
      else cube_root bits' n root
  end.

Definition K : list Z :=
  Eval vm_compute in
    map (fun p => Z.land (cube_root 35 (p * 2 ^ 96) 0) mask) (primes 64).

Definition initial_words : list Z :=
  Eval vm_compute in map (fun p => Z.land (Z.sqrt (p * 2 ^ 64)) mask) (primes 8).

(** The eight working words. *)
Record state : Type := mkState {
  sa : Z; sb : Z; sc : Z; sd : Z; se : Z; sf : Z; sg : Z; sh : Z
}.

Definition state_of_words (words : list Z) : state :=
  mkState (nth 0 words 0) (nth 1 words 0) (nth 2 words 0) (nth 3 words 0)
          (nth 4 words 0) (nth 5 words 0) (nth 6 words 0) (nth 7 words 0).

Definition initial : state := state_of_words initial_words.

(** The message schedule, newest word first: [n] more words after the
    ones in [recent]. *)
Fixpoint schedule (n : nat) (recent : list Z) : list Z :=
  match n with
  | O => recent
  | S n' =>
      let w := add (add (sigma1 (nth 1 recent 0)) (nth 6 recent 0))
                   (add (sigma0 (nth 14 recent 0)) (nth 15 recent 0)) in
      schedule n' (w :: recent)
  end.

Definition round (s : state) (kw : Z * Z) : state :=
  let t1 := add (add (add (sh s) (Sigma1 (se s))) (Ch (se s) (sf s) (sg s)))
                (add (fst kw) (snd kw)) in
  let t2 := add (Sigma0 (sa s)) (Maj (sa s) (sb s) (sc s)) in
  mkState (add t1 t2) (sa s) (sb s) (sc s) (add (sd s) t1) (se s) (sf s) (sg s).

Definition compress (s : state) (block : list byte) : state :=
  let w := rev (schedule 48 (rev (be32_words block))) in
  let r := fold_left round (combine K w) s in
  mkState (add (sa s) (sa r)) (add (sb s) (sb r)) (add (sc s) (sc r))
          (add (sd s) (sd r)) (add (se s) (se r)) (add (sf s) (sf r))
          (add (sg s) (sg r)) (add (sh s) (sh r)).

(** The message, a one bit, zero bits up to 56 modulo 64 bytes, and the
    length in bits as a 64-bit number. *)
Definition pad (message : list byte) : list byte :=
  let n := length message in
  let bits := 8 * Z.of_nat n in
  (message ++ [x80] ++ repeat x00 ((119 - n mod 64) mod 64)
     ++ be32_bytes (Z.shiftr bits 32) ++ be32_bytes (Z.land bits mask))%list.

Definition digest (message : list byte) : list byte :=
  let padded := pad message in
  let s := fold_left compress (chunks (length padded) 64 padded) initial in
  (be32_bytes (sa s) ++ be32_bytes (sb s) ++ be32_bytes (sc s)
     ++ be32_bytes (sd s) ++ be32_bytes (se s) ++ be32_bytes (sf s)
     ++ be32_bytes (sg s) ++ be32_bytes (sh s))%list.

End SHA256.

Module SHA1.

Local Open Scope Z_scope.

Definition mask : Z := 0xffffffff.
Definition add (a b : Z) : Z := Z.land (a + b) mask.
Definition rotl (n x : Z) : Z :=
  Z.lor (Z.land (Z.shiftl x n) mask) (Z.shiftr x (32 - n)).

Record state : Type := mkState { sa : Z; sb : Z; sc : Z; sd : Z; se : Z }.

Definition initial : state :=
  mkState 0x67452301 0xefcdab89 0x98badcfe 0x10325476 0xc3d2e1f0.

(** The message schedule, newest word first. *)
Fixpoint schedule (n : nat) (recent : list Z) : list Z :=
  match n with
  | O => recent
  | S n' =>
      let w := rotl 1 (Z.lxor (Z.lxor (nth 2 recent 0) (nth 7 recent 0))
                         (Z.lxor (nth 13 recent 0) (nth 15 recent 0))) in
      schedule n' (w :: recent)
  end.

(** Round [i] with the word [w] of the schedule. *)
Definition round (s : state) (iw : nat * Z) : state :=
  let (i, w) := iw in
  let b := sb s in
  let c := sc s in
  let d := sd s in
  let fk :=
    if (i <? 20)%nat then
      (Z.lor (Z.land b c) (Z.land (Z.lxor b mask) d), 0x5a827999)
    else if (i <? 40)%nat then (Z.lxor (Z.lxor b c) d, 0x6ed9eba1)
    else if (i <? 60)%nat then
      (Z.lor (Z.lor (Z.land b c) (Z.land b d)) (Z.land c d), 0x8f1bbcdc)
    else (Z.lxor (Z.lxor b c) d, 0xca62c1d6) in
  let t := add (add (add (rotl 5 (sa s)) (fst fk)) (add (se s) (snd fk))) w in
  mkState t (sa s) (rotl 30 b) c d.

Definition compress (s : state) (block : list byte) : state :=
  let w := rev (schedule 64 (rev (be32_words block))) in
  let r := fold_left round (combine (seq 0 80) w) s in
  mkState (add (sa s) (sa r)) (add (sb s) (sb r)) (add (sc s) (sc r))
          (add (sd s) (sd r)) (add (se s) (se r)).

(** The padding is that of SHA-256. *)
Definition digest (message : list byte) : list byte :=
  let padded := SHA256.pad message in
  let s := fold_left compress (chunks (length padded) 64 padded) initial in
  (be32_bytes (sa s) ++ be32_bytes (sb s) ++ be32_bytes (sc s)
     ++ be32_bytes (sd s) ++ be32_bytes (se s))%list.

End SHA1.

(** Little-endian 32-bit words. *)
Definition le32_bytes (x : Z) : list byte :=
  [byte_of_Z x; byte_of_Z (Z.shiftr x 8); byte_of_Z (Z.shiftr x 16);
   byte_of_Z (Z.shiftr x 24)].

Fixpoint le32_words (bytes : list byte) : list Z :=
  match bytes with
  | a :: b :: c :: d :: rest =>
      (Z_of_byte a + Z.shiftl (Z_of_byte b) 8 + Z.shiftl (Z_of_byte c) 16
       + Z.shiftl (Z_of_byte d) 24)%Z :: le32_words rest
  | _ => []
  end.

Module RIPEMD160.

Local Open Scope Z_scope.

Definition mask : Z := 0xffffffff.
Definition add (a b : Z) : Z := Z.land (a + b) mask.
Definition rol (n x : Z) : Z :=
  Z.lor (Z.land (Z.shiftl x n) mask) (Z.shiftr x (32 - n)).
Definition inv (x : Z) : Z := Z.lxor x mask.

(** The boolean function of step [j]. *)
Definition f (j : nat) (x y z : Z) : Z :=
  match (j / 16)%nat with
  | 0%nat => Z.lxor (Z.lxor x y) z
  | 1%nat => Z.lor (Z.land x y) (Z.land (inv x) z)
  | 2%nat => Z.lxor (Z.lor x (inv y)) z
  | 3%nat => Z.lor (Z.land x z) (Z.land y (inv z))
  | _ => Z.lxor x (Z.lor y (inv z))
  end.

(** The added constants of the two lines, by round. *)
Definition K_left : list Z :=
  [0x00000000; 0x5a827999; 0x6ed9eba1; 0x8f1bbcdc; 0xa953fd4e].
Definition K_right : list Z :=
  [0x50a28be6; 0x5c4dd124; 0x6d703ef3; 0x7a6d76e9; 0x00000000].

(** The order in which the message words are taken, left and right. *)
Definition r_left : list nat :=
  [0; 1; 2; 3; 4; 5; 6; 7; 8; 9; 10; 11; 12; 13; 14; 15;
   7; 4; 13; 1; 10; 6; 15; 3; 12; 0; 9; 5; 2; 14; 11; 8;
   3; 10; 14; 4; 9; 15; 8; 1; 2; 7; 0; 6; 13; 11; 5; 12;
   1; 9; 11; 10; 0; 8; 12; 4; 13; 3; 7; 15; 14; 5; 6; 2;
   4; 0; 5; 9; 7; 12; 2; 10; 14; 1; 3; 8; 11; 6; 15; 13]%nat.
Definition r_right : list nat :=
  [5; 14; 7; 0; 9; 2; 11; 4; 13; 6; 15; 8; 1; 10; 3; 12;
   6; 11; 3; 7; 0; 13; 5; 10; 14; 15; 8; 12; 4; 9; 1; 2;
   15; 5; 1; 3; 7; 14; 6; 9; 11; 8; 12; 2; 10; 0; 4; 13;
   8; 6; 4; 1; 3; 11; 15; 0; 5; 12; 2; 13; 9; 7; 10; 14;
   12; 15; 10; 4; 1; 5; 8; 7; 6; 2; 13; 14; 0; 3; 9; 11]%nat.

(** The rotation amounts, left and right. *)
Definition s_left : list Z :=
  [11; 14; 15; 12; 5; 8; 7; 9; 11; 13; 14; 15; 6; 7; 9; 8;
   7; 6; 8; 13; 11; 9; 7; 15; 7; 12; 15; 9; 11; 7; 13; 12;
   11; 13; 6; 7; 14; 9; 13; 15; 14; 8; 13; 6; 5; 12; 7; 5;
   11; 12; 14; 15; 14; 15; 9; 8; 9; 14; 5; 6; 8; 6; 5; 12;
   9; 15; 5; 11; 6; 8; 13; 12; 5; 12; 13; 14; 11; 8; 5; 6].
Definition s_right : list Z :=
  [8; 9; 9; 11; 13; 15; 15; 5; 7; 7; 8; 11; 14; 14; 12; 6;
   9; 13; 15; 7; 12; 8; 9; 11; 7; 7; 12; 7; 6; 15; 13; 11;
   9; 7; 15; 11; 8; 6; 6; 14; 12; 13; 5; 14; 13; 13; 7; 5;
   15; 5; 8; 11; 14; 14; 6; 14; 6; 9; 12; 9; 12; 5; 15; 8;
   8; 5; 12; 9; 12; 5; 14; 6; 8; 13; 6; 5; 15; 13; 11; 11].

(** The five chaining words. *)
Record state : Type := mkState { sa : Z; sb : Z; sc : Z; sd : Z; se : Z }.

Definition initial : state :=
  mkState 0x67452301 0xefcdab89 0x98badcfe 0x10325476 0xc3d2e1f0.

(** Step [j] of one line: [fj] is the step whose function it uses. *)
Definition step (X : list Z) (K : list Z) (r : list nat) (s : list Z)
    (fj j : nat) (st : state) : state :=
  let t :=
    add (rol (nth j s 0)
             (add (add (sa st) (f fj (sb st) (sc st) (sd st)))
                  (add (nth (nth j r 0%nat) X 0) (nth (j / 16) K 0))))
        (se st) in
  mkState (se st) t (sb st) (rol 10 (sc st)) (sd st).

Definition compress (h : state) (block : list byte) : state :=
  let X := le32_words block in
  let steps := seq 0 80 in
  let l := fold_left (fun st j => step X K_left r_left s_left j j st) steps h in
  let r :=
    fold_left (fun st j => step X K_right r_right s_right (79 - j) j st)
      steps h in
  mkState (add (add (sb h) (sc l)) (sd r))
          (add (add (sc h) (sd l)) (se r))
          (add (add (sd h) (se l)) (sa r))
          (add (add (se h) (sa l)) (sb r))
          (add (add (sa h) (sb l)) (sc r)).

(** As for SHA-256, with the length little-endian. *)
Definition pad (message : list byte) : list byte :=
  let n := length message in
  let bits := 8 * Z.of_nat n in
  (message ++ [x80] ++ repeat x00 ((119 - n mod 64) mod 64)
     ++ le32_bytes (Z.land bits mask) ++ le32_bytes (Z.shiftr bits 32))%list.

Definition digest (message : list byte) : list byte :=
  let padded := pad message in
  let s := fold_left compress (chunks (length padded) 64 padded) initial in
  (le32_bytes (sa s) ++ le32_bytes (sb s) ++ le32_bytes (sc s)
     ++ le32_bytes (sd s) ++ le32_bytes (se s))%list.

End RIPEMD160.

(** ** A runtime to run the keystore on

    An executable instance of [Runtime]: JSON in its compact form, without
    white space and without numbers, which is all this module writes; the
    hex parser on pairs of hex digits; SHA-256 as the hash of [PBKDF2]; and,
    in the place of AES, a cipher that xors the UTF-8 bytes of the message
    with a stream of key and iv bytes.  It stands in where a statement has
    to be evaluated; the theorems hold of every runtime that has the laws. *)
Module Reference.

Definition quote : ascii := "034"%char.
Definition backslash : ascii := "092"%char.

Definition hex_value (c : ascii) : option N :=
  let n := N_of_ascii c in
  if ((48 <=? n) && (n <=? 57))%N then Some (n - 48)%N
  else if ((97 <=? n) && (n <=? 102))%N then Some (n - 87)%N
  else if ((65 <=? n) && (n <=? 70))%N then Some (n - 55)%N
  else None.

Definition digit (c : ascii) : N :=
  match hex_value c with
  | Some d => d
  | None => 0
  end.

Fixpoint parse_hex (hexStr : string) : list byte :=
  match hexStr with
  | String a (String b rest) =>
      byte_of_N (16 * digit a + digit b) :: parse_hex rest
  | _ => []
  end.

(** *** JSON *)

(** A character inside a string literal: quote and backslash behind a
    backslash, a control character as [\u00XX]. *)
Definition escape_char (c : ascii) : string :=
  if Ascii.eqb c quote then String backslash (String quote "")
  else if Ascii.eqb c backslash then String backslash (String backslash "")
  else if (N_of_ascii c <? 32)%N then
    String backslash
      (String "u"
         (String "0"
            (String "0"
               (String (hex_digit (N_of_ascii c / 16))
                  (String (hex_digit (N_of_ascii c mod 16)) "")))))
  else String c "".

Fixpoint escape (s : string) : string :=
  match s with
  | EmptyString => ""
  | String c rest => escape_char c +:+ escape rest
  end.

Definition print_string (s : string) : string :=
  String quote (escape s +:+ String quote "").

Fixpoint join (parts : list string) : string :=
  match parts with
  | [] => ""
  | [p] => p
  | p :: rest => p +:+ "," +:+ join rest
  end.

Definition print_member (print : json -> string) (member : string * json)
    : string :=
  print_string (fst member) +:+ ":" +:+ print (snd member).

Fixpoint stringify (v : json) : string :=
  match v with
  | JNull => "null"
  | JBool true => "true"
  | JBool false => "false"
  | JNum _ => "null"
  | JStr s => print_string s
  | JArr elements => "[" +:+ join (map stringify elements) +:+ "]"
  | JObj fields => "{" +:+ join (map (print_member stringify) fields) +:+ "}"
  end.

(** The fields of an object whose values are strings. *)
Definition text_fields (kvs : list (string * string)) : list (string * json) :=
  map (fun kv => (fst kv, JStr (snd kv))) kvs.

(** Where the reader of a string literal stands: in plain text, behind a
    backslash, or inside a [\u] escape with [remaining] digits to go. *)
Inductive mode : Type :=
| Plain
| Escaped
| Unicode (remaining : nat) (code : N).

Definition prepend (c : ascii) (r : option (string * string))
    : option (string * string) :=
  match r with
  | Some (s, rest) => Some (String c s, rest)
  | None => None
  end.

(** The text of a string literal after its opening quote, up to the closing
    one, and what follows it. *)
Fixpoint parse_chars (m : mode) (s : string) : option (string * string) :=
  match s with
  | EmptyString => None
  | String c rest =>
      match m with
      | Plain =>
          if Ascii.eqb c quote then Some ("", rest)
          else if Ascii.eqb c backslash then parse_chars Escaped rest
          else if (N_of_ascii c <? 32)%N then None
          else prepend c (parse_chars Plain rest)
      | Escaped =>
          if Ascii.eqb c quote || Ascii.eqb c backslash || Ascii.eqb c "/"
          then prepend c (parse_chars Plain rest)
          else if Ascii.eqb c "n" then prepend "010" (parse_chars Plain rest)
          else if Ascii.eqb c "t" then prepend "009" (parse_chars Plain rest)
          else if Ascii.eqb c "r" then prepend "013" (parse_chars Plain rest)
          else if Ascii.eqb c "b" then prepend "008" (parse_chars Plain rest)
          else if Ascii.eqb c "f" then prepend "012" (parse_chars Plain rest)
          else if Ascii.eqb c "u" then parse_chars (Unicode 4 0) rest
          else None
      | Unicode (S remaining) code =>
          match hex_value c with
          | Some d =>
              let code' := (16 * code + d)%N in
              match remaining with
              | O =>
                  if (code' <? 256)%N
                  then prepend (ascii_of_N code') (parse_chars Plain rest)
                  else None
              | S _ => parse_chars (Unicode remaining code') rest
              end
          | None => None
          end
      | Unicode O _ => None
      end
  end.

(** A value and what follows it; [fuel] bounds the nesting and the number
    of items read. *)
Fixpoint parse_value (fuel : nat) (s : string) : option (json * string) :=
  match fuel with
  | O => None
  | S fuel' =>
      match s with
      | String "n" (String "u" (String "l" (String "l" rest))) =>
          Some (JNull, rest)
      | String "t" (String "r" (String "u" (String "e" rest))) =>
          Some (JBool true, rest)
      | String "f" (String "a" (String "l" (String "s" (String "e" rest)))) =>
          Some (JBool false, rest)
      | String "[" (String "]" rest) => Some (JArr [], rest)
      | String "[" rest =>
          match parse_elements fuel' rest with
          | Some (elements, rest') => Some (JArr elements, rest')
          | None => None
          end
      | String "{" (String "}" rest) => Some (JObj [], rest)
      | String "{" rest =>
          match parse_members fuel' rest with
          | Some (fields, rest') => Some (JObj fields, rest')
          | None => None
          end
      | String c rest =>
          if Ascii.eqb c quote then
            match parse_chars Plain rest with
            | Some (text, rest') => Some (JStr text, rest')
            | None => None
            end
          else None
      | EmptyString => None
      end
  end
with parse_elements (fuel : nat) (s : string) : option (list json * string) :=
  match fuel with
  | O => None
  | S fuel' =>
      match parse_value fuel' s with
      | Some (v, String "," rest) =>
          match parse_elements fuel' rest with
          | Some (elements, rest') => Some (v :: elements, rest')
          | None => None
          end
      | Some (v, String "]" rest) => Some ([v], rest)
      | _ => None
      end
  end
with parse_members (fuel : nat) (s : string)
    : option (list (string * json) * string) :=
  match fuel with
  | O => None
  | S fuel' =>
      match s with
      | String c rest =>
          if Ascii.eqb c quote then
            match parse_chars Plain rest with
            | Some (key, String ":" rest') =>
                match parse_value fuel' rest' with
                | Some (v, String "," rest'') =>
                    match parse_members fuel' rest'' with
                    | Some (fields, rest''') => Some ((key, v) :: fields, rest''')
                    | None => None
                    end
                | Some (v, String "}" rest'') => Some ([(key, v)], rest'')
                | _ => None
                end
            | _ => None
            end
          else None
      | EmptyString => None
      end
  end.

Definition parse (text : string) : option json :=
  match parse_value (String.length text) text with
  | Some (v, EmptyString) => Some v
  | _ => None
  end.

(** *** UTF-8 and the stand-in cipher *)

(** [wordArray.toString(CryptoJS.enc.Utf8)] for code points below 256:
    [None] when the bytes are not UTF-8 (the library throws) or spell a
    code point that a string of this model does not hold. *)
Fixpoint Utf8_stringify (bytes : list byte) : option string :=
  match bytes with
  | [] => Some ""
  | b :: rest =>
      let n := Byte.to_N b in
      if (n <? 128)%N then
        match Utf8_stringify rest with
        | Some s => Some (String (ascii_of_N n) s)
        | None => None
        end
      else if ((194 <=? n) && (n <? 196))%N then
        match rest with
        | c :: rest' =>
            let m := Byte.to_N c in
            if ((128 <=? m) && (m <? 192))%N then
              match Utf8_stringify rest' with
              | Some s => Some (String (ascii_of_N ((n - 192) * 64 + (m - 128))) s)
              | None => None
              end
            else None
        | [] => None
        end
      else None
  end.

Definition keystream (key iv : list byte) (i : nat) : byte :=
  byte_xor (nth (i mod 32) key x00) (nth (i mod 16) iv x00).

Fixpoint xor_stream (stream : nat -> byte) (i : nat) (bytes : list byte)
    : list byte :=
  match bytes with
  | [] => []
  | b :: rest => byte_xor b (stream i) :: xor_stream stream (S i) rest
  end.

Definition cipher_encrypt (message : string) (key iv : list byte)
    : list byte :=
  xor_stream (keystream key iv) 0 (Utf8_parse message).

Definition cipher_decrypt (ciphertext key iv : list byte) : option string :=
  Utf8_stringify (xor_stream (keystream key iv) 0 ciphertext).

Definition runtime : Runtime := {|
  JSON_parse := parse;
  JSON_stringify := stringify;
  Hex_parse := parse_hex;
  hasher := SHA256.digest;
  hasher_blockSize := 64;
  AES_ciphertext := cipher_encrypt;
  AES_plaintext := cipher_decrypt
|}.

End Reference.

(** ** The library itself

    AES-256 (FIPS 197) in CBC mode with Pkcs7 padding as CryptoJS runs it,
    and a runtime with it and with SHA-1, the hash that CryptoJS gives
    [PBKDF2] when none is configured (before its version 4.2).  The
    keystore is evaluated on it where the laws do not decide what it
    does. *)
Module AES.

Local Open Scope Z_scope.

(** The field of 256 elements: a byte is a polynomial over two elements,
    taken modulo x^8 + x^4 + x^3 + x + 1. *)
Definition xtime (a : Z) : Z :=
  let b := Z.shiftl a 1 in if b <? 256 then b else Z.lxor b 0x11b.

Fixpoint times (bits : nat) (a b : Z) : Z :=
  match bits with
  | O => 0
  | S bits' =>
      Z.lxor (if Z.odd b then a else 0) (times bits' (xtime a) (Z.shiftr b 1))
  end.

Definition mul (a b : Z) : Z := times 8 a b.

Fixpoint power (n : nat) (a : Z) : Z :=
  match n with
  | O => 1
  | S n' => mul a (power n' a)
  end.

Definition rotl8 (n a : Z) : Z :=
  Z.land (Z.lor (Z.shiftl a n) (Z.shiftr a (8 - n))) 255.

(** The substitution box: the inverse in the field (0 for 0), then the
    affine map. *)
Definition substitute (a : Z) : Z :=
  let b := power 254 a in
  Z.lxor (Z.lxor (Z.lxor b (rotl8 1 b)) (Z.lxor (rotl8 2 b) (rotl8 3 b)))
         (Z.lxor (rotl8 4 b) 0x63).

Definition sbox : list Z :=
  Eval vm_compute in map (fun i => substitute (Z.of_nat i)) (seq 0 256).

Fixpoint index_of (x : Z) (l : list Z) : Z :=
  match l with
  | [] => 0
  | y :: rest => if y =? x then 0 else 1 + index_of x rest
  end.

Definition inverse_sbox : list Z :=
  Eval vm_compute in map (fun i => index_of (Z.of_nat i) sbox) (seq 0 256).

Definition sub (a : Z) : Z := nth (Z.to_nat a) sbox 0.
Definition inverse_sub (a : Z) : Z := nth (Z.to_nat a) inverse_sbox 0.

(** The xor of the first [n] bytes; what is missing counts as zero. *)
Definition xor_bytes (n : nat) (a b : list Z) : list Z :=
  map (fun i => Z.lxor (nth i a 0) (nth i b 0)) (seq 0 n).

Definition xor_block : list Z -> list Z -> list Z := xor_bytes 16.

(** The key schedule of a 256-bit key: 60 words, newest first while it is
    built; [i] is the index of the next word. *)
Fixpoint expand (n : nat) (i : nat) (rcon : Z) (recent : list (list Z))
    : list (list Z) :=
  match n with
  | O => recent
  | S n' =>
      let previous := nth 0 recent [] in
      let temp :=
        if (i mod 8 =? 0)%nat then
          match map sub previous with
          | a :: rest => (rest ++ [a])%list
          | [] => []
          end
        else if (i mod 8 =? 4)%nat then map sub previous
        else previous in
      let temp :=
        if (i mod 8 =? 0)%nat then
          match temp with
          | a :: rest => Z.lxor a rcon :: rest
          | [] => []
          end
        else temp in
      let w := xor_bytes 4 (nth 7 recent []) temp in
      expand n' (S i) (if (i mod 8 =? 0)%nat then xtime rcon else rcon)
        (w :: recent)
  end.

(** The fifteen round keys. *)
Definition key_schedule (key : list Z) : list (list Z) :=
  let words := rev (expand 52 8 1 (rev (chunks 8 4 key))) in
  map (fun l => concat l) (chunks 15 4 words).

(** The state is kept column by column: byte [i] is in row [i mod 4]. *)
Definition shift_rows (s : list Z) : list Z :=
  map (fun i => nth (i mod 4 + 4 * ((i / 4 + i mod 4) mod 4))%nat s 0)
      (seq 0 16).

Definition inverse_shift_rows (s : list Z) : list Z :=
  map (fun i => nth (i mod 4 + 4 * ((i / 4 + 4 - i mod 4) mod 4))%nat s 0)
      (seq 0 16).

(** A column times the circulant matrix of first row [m]. *)
Definition mix (m : list Z) (column : list Z) : list Z :=
  map (fun r =>
         fold_left Z.lxor
           (map (fun c => mul (nth ((c + 4 - r) mod 4)%nat m 0)
                              (nth c column 0))
                (seq 0 4)) 0)
      (seq 0 4).

Definition mix_columns (m : list Z) (s : list Z) : list Z :=
  concat (map (mix m) (chunks 4 4 s)).

Definition encrypt_block (keys : list (list Z)) (block : list Z) : list Z :=
  let first := xor_block block (nth 0 keys []) in
  let middle :=
    fold_left
      (fun s k =>
         xor_block (mix_columns [2; 3; 1; 1] (shift_rows (map sub s))) k)
      (firstn 13 (skipn 1 keys)) first in
  xor_block (shift_rows (map sub middle)) (nth 14 keys []).

Definition decrypt_block (keys : list (list Z)) (block : list Z) : list Z :=
  let last :=
    map inverse_sub (inverse_shift_rows (xor_block block (nth 14 keys []))) in
  let middle :=
    fold_left
      (fun s k =>
         map inverse_sub
           (inverse_shift_rows (mix_columns [14; 11; 13; 9] (xor_block s k))))
      (rev (firstn 13 (skipn 1 keys))) last in
  xor_block middle (nth 0 keys []).

(** Cipher block chaining. *)
Fixpoint cbc_encrypt (keys : list (list Z)) (previous : list Z)
    (blocks : list (list Z)) : list Z :=
  match blocks with
  | [] => []
  | block :: rest =>
      let c := encrypt_block keys (xor_block block previous) in
      (c ++ cbc_encrypt keys c rest)%list
  end.

Fixpoint cbc_decrypt (keys : list (list Z)) (previous : list Z)
    (blocks : list (list Z)) : list Z :=
  match blocks with
  | [] => []
  | block :: rest =>
      (xor_block (decrypt_block keys block) previous
         ++ cbc_decrypt keys block rest)%list
  end.

(** Pkcs7: [n] bytes of value [n] fill the last block. *)
Definition pad (data : list Z) : list Z :=
  let n := (16 - length data mod 16)%nat in
  (data ++ repeat (Z.of_nat n) n)%list.

(** [AES.encrypt(message, key, cfg).ciphertext], for a key of 32 bytes. *)
Definition ciphertext (message : string) (key iv : list byte) : list byte :=
  let data := pad (map Z_of_byte (Utf8_parse message)) in
  map byte_of_Z
    (cbc_encrypt (key_schedule (map Z_of_byte key)) (map Z_of_byte iv)
       (chunks (length data) 16 data)).

(** The decryptor works on whole blocks of 32-bit words: a last block that
    is short is read with zeros in the place of what is missing, and the
    result is cut to the length of the ciphertext.  Unpadding takes the
    low byte of the word that holds the last byte as the number of bytes
    to drop. *)
Definition decrypted (ciphertext key iv : list byte) : list byte :=
  let n := length ciphertext in
  let processed :=
    cbc_decrypt (key_schedule (map Z_of_byte key)) (map Z_of_byte iv)
      (chunks n 16 (map Z_of_byte ciphertext)) in
  let padding := Z.to_nat (nth (4 * ((n - 1) / 4) + 3) processed 0) in
  map byte_of_Z
    (firstn (if (n =? 0)%nat then 0 else n - padding)%nat processed).

(** [AES.decrypt({ ciphertext }, key, cfg).toString(CryptoJS.enc.Utf8)]. *)
Definition plaintext (ciphertext key iv : list byte) : option string :=
  Reference.Utf8_stringify (decrypted ciphertext key iv).

End AES.

Module CryptoJS.

Definition runtime : Runtime := {|
  JSON_parse := Reference.parse;
  JSON_stringify := Reference.stringify;
  Hex_parse := Reference.parse_hex;
  hasher := SHA1.digest;
  hasher_blockSize := 64;
  AES_ciphertext := AES.ciphertext;
  AES_plaintext := AES.plaintext
|}.

End CryptoJS.

(** ** Keys, addresses and signatures (the module the test-suite exercises)

    The test-suite imports [../src/cosmos-keys], which is not among the
    sources; its functions are modelled here from the specification. *)
Module CosmosKeys.

(** *** Bech32 *)

Definition charset : string := "qpzry9x8gf2tvdw0s3jn54khce6mua7l".

Definition generator : list Z :=
  [0x3b6a57b2; 0x26508e6d; 0x1ea119fa; 0x3d4233dd; 0x2a1462b3]%Z.

(** One step of the checksum polynomial: the value [v] enters [chk]. *)
Definition polymod_step (chk v : Z) : Z :=
  let top := Z.shiftr chk 25 in
  let chk := Z.lxor (Z.shiftl (Z.land chk 0x1ffffff) 5) v in
  fold_left
    (fun c ig =>
       if Z.testbit top (Z.of_nat (fst ig)) then Z.lxor c (snd ig) else c)
    (combine (seq 0 5) generator) chk.

Definition polymod (values : list Z) : Z := fold_left polymod_step values 1%Z.

Definition hrp_expand (hrp : string) : list Z :=
  let codes := map (fun c => Z.of_N (N_of_ascii c)) (list_ascii_of_string hrp) in
  (map (fun c => Z.shiftr c 5) codes ++ [0%Z] ++ map (fun c => Z.land c 31) codes)%list.

Definition create_checksum (hrp : string) (data : list Z) : list Z :=
  let pm :=
    Z.lxor (polymod (hrp_expand hrp ++ data ++ repeat 0%Z 6)%list) 1 in
  map (fun i => Z.land (Z.shiftr pm (5 * (5 - Z.of_nat i))) 31) (seq 0 6).

(** The bytes as groups of five bits, most significant bit first, the last
    group filled with zero bits: [acc] holds the [bits] bits not yet given
    out. *)
Fixpoint to_words (acc bits : Z) (bytes : list byte) : list Z :=
  match bytes with
  | [] => if (0 <? bits)%Z then [Z.land (Z.shiftl acc (5 - bits)) 31] else []
  | b :: rest =>
      let acc := (Z.shiftl acc 8 + Z_of_byte b)%Z in
      let bits := (bits + 8)%Z in
      if (10 <=? bits)%Z then
        Z.land (Z.shiftr acc (bits - 5)) 31
          :: Z.land (Z.shiftr acc (bits - 10)) 31
          :: to_words (Z.land acc (Z.ones (bits - 10))) (bits - 10) rest
      else
        Z.land (Z.shiftr acc (bits - 5)) 31
          :: to_words (Z.land acc (Z.ones (bits - 5))) (bits - 5) rest
  end.

Definition charset_at (v : Z) : ascii :=
  match String.get (Z.to_nat v) charset with
  | Some c => c
  | None => "q"%char
  end.

Definition bech32_encode (hrp : string) (data : list Z) : string :=
  hrp +:+ "1"
    +:+ string_of_list_ascii
          (map charset_at (data ++ create_checksum hrp data)%list).

(** Modelled from the spec: [getCosmosAddress] of src/cosmos-keys.ts, the
    address encoder of section 4.3.  The public key is hashed with SHA-256,
    that digest with RIPEMD-160, and the 20 bytes that result are encoded
    in Bech32 under the prefix [cosmos]. *)
Definition getCosmosAddress (publicKey : list byte) : string :=
  let identifier := RIPEMD160.digest (SHA256.digest publicKey) in
  bech32_encode "cosmos" (to_words 0 0 identifier).

End CosmosKeys.

(** ** Concrete worlds and wallets *)

Module Examples.

(** A fixed stream of bytes in the place of the random generator. *)
Definition dice (i : nat) : byte := byte_of_N (N.of_nat (7 * i + 3) mod 256).

(** The empty store. *)
Definition fresh : world := mkWorld ∅ dice 0.

(** The wallet of the test-suite's zero entropy. *)
Definition alice : Wallet :=
  mkWallet "cosmos1r5v5srda7xfth3hn2s26txvrcrntldjumt8mhl"
           "8088c2ed2149c34f6d6533b774da4e1692eb5cb426fdbaef6898eeda489630b7"
           "02ba66a84cf7839af172a13e7fc9f5e7008cb8bca1585f8f3bafb3039eda3c1fdd".

(** A wallet object whose address is the word that names the index. *)
Definition squatter : Wallet :=
  mkWallet "index"
           "a9f1c24315bf0e366660a26c5819b69f242b5d7a293fc5a3dec8341372544be8"
           "037a525043e79a9051d58214a9a2a70b657b3d49124dcd0acc4730df5f35d74b32".

(** The wallet of the test-suite's seed [a b c]. *)
Definition bob : Wallet :=
  mkWallet "cosmos1pt9904aqg739q6p9kgc2v0puqvj6atp0zsj70g"
           "a9f1c24315bf0e366660a26c5819b69f242b5d7a293fc5a3dec8341372544be8"
           "037a525043e79a9051d58214a9a2a70b657b3d49124dcd0acc4730df5f35d74b32".

(** The password [pw] and the same password followed by a NUL character. *)
Definition pw : string := "pw".
Definition pw_nul : string := pw +:+ String "000" "".

(** The store after [alice] was stored under the name [main]. *)
Definition with_alice : world :=
  snd (storeWallet (rt := Reference.runtime) alice "main" pw fresh).

(** The store after [squatter] was stored in the empty store. *)
Definition with_squatter : world :=
  snd (storeWallet (rt := Reference.runtime) squatter "main" pw fresh).

(** The wallet entry that this leaves under the address of [alice]. *)
Definition alice_entry : StoredWallet :=
  mkStoredWallet "main" (cosmosAddress alice)
    match
      fst (encrypt (rt := Reference.runtime)
             (JSON_stringify (Runtime := Reference.runtime) (wallet_json alice))
             pw fresh)
    with
    | Returned ciphertext => ciphertext
    | Thrown _ => ""
    end.

End Examples.

(** ** What an operation may change *)

(** [w'] has under every key outside [keys] what [w] has there. *)
Definition untouched_outside (keys : list string) (w w' : world) : Prop :=
  forall key : string,
    key ∉ keys -> localStorage w' !! key = localStorage w !! key.

(** The index cannot be used: reading it throws, or gives something that
    is not an array. *)
Definition index_unusable {rt : Runtime} (w : world) : Prop :=
  match fst (getWalletIndex w) with
  | Returned (JArr _) => False
  | _ => True
  end.

(** An entry that is no wallet entry: it has no [wallet] field that holds
    a string. *)
Definition no_ciphertext (v : json) : Prop :=
  match js_get v "wallet" with
  | Some (JStr _) => False
  | _ => True
  end.

Module Damaged.

(** A store whose entry for the address [a] is cut off, and one whose
    entry for it is an empty object. *)
Definition cut_off : world :=
  mkWorld {[ wallet_key "a" := "{" ]} Examples.dice 0.

Definition hollow : world :=
  mkWorld {[ wallet_key "a" := "{}" ]} Examples.dice 0.

Definition stray : Wallet := mkWallet "a" "" "".

(** A store whose index lists the address of [Examples.alice] under the
    name [old], and that has no wallet entry. *)
Definition dangling : world :=
  mkWorld
    {[ index_key :=
         JSON_stringify (Runtime := Reference.runtime)
           (index_json [mkIndexEntry "old" (cosmosAddress Examples.alice)]) ]}
    Examples.dice 0.

End Damaged.

Module SaltedDraw.

(** A draw of the random generator: the salt is the sixteen bytes that
    [Examples.dice] starts with, and the iv is the one under which the
    wallet of [Examples.alice], encrypted with AES under the key that
    PBKDF2 over SHA-1 derives from [Examples.pw] and that salt, gives a
    ciphertext that begins with the bytes [Salted__] followed by eight
    zero bytes. *)
Definition salt : list byte := map Examples.dice (seq 0 16).

Definition iv : list byte :=
  Reference.parse_hex "2b8ff2d7fefa123ae1c4bd1b58475028".

Definition source (i : nat) : byte := nth i (salt ++ iv)%list x00.

(** The empty store with that draw ahead. *)
Definition fresh : world := mkWorld ∅ source 0.

End SaltedDraw.

(** ** The signer (the module the test-suite exercises)

    [signWithPrivateKey] is a function of src/cosmos-keys.ts, which is not
    among the sources; it is modelled here from section 4.4 of the
    specification, on the curve that Cosmos signs on. *)

(** Modelled from the spec: the elliptic curve of sections 4.2 and 4.4,
    which the specification does not name; it is secp256k1, the curve of
    the keys and of the signature that the test-suite expects.  Points are
    kept in Jacobian coordinates, the point at infinity with [Z = 0]. *)
Module Secp256k1.

Local Open Scope Z_scope.

Definition p : Z := 2 ^ 256 - 2 ^ 32 - 977.
Definition n : Z := 0xFFFFFFFFFFFFFFFFFFFFFFFFFFFFFFFEBAAEDCE6AF48A03BBFD25E8CD0364141.
Definition Gx : Z := 0x79BE667EF9DCBBAC55A06295CE870B07029BFCDB2DCE28D959F2815B16F81798.
Definition Gy : Z := 0x483ADA7726A3C4655DA4FBFC0E1108A8FD17B448A68554199C47D08FFB10D4B8.

(** [x mod m] for a modulus [m] just below [2 ^ 256] and [x] below
    [2 ^ 512]: the part above bit 256, times [2 ^ 256 - m], is folded
    onto the part below. *)
Definition low : Z := Z.ones 256.
Definition fold (m x : Z) : Z := Z.shiftr x 256 * (low + 1 - m) + Z.land x low.
Definition reduce (m x : Z) : Z :=
  let x := fold m (fold m (fold m (fold m x))) in
  if x <? m then x else x - m.

Definition mulmod (m a b : Z) : Z := reduce m (a * b).
Definition submod (m a b : Z) : Z := if b <=? a then a - b else a + m - b.
Definition addmod (m a b : Z) : Z := let c := a + b in if c <? m then c else c - m.

(** [base ^ e] modulo [m], bit by bit of the exponent; the inverse modulo
    a prime is the power [m - 2]. *)
Fixpoint power (bits : nat) (m base e : Z) : Z :=
  match bits with
  | O => 1
  | S bits' =>
      let rest := power bits' m (mulmod m base base) (Z.shiftr e 1) in
      if Z.odd e then mulmod m base rest else rest
  end.

Definition inverse (m a : Z) : Z := power 256 m (a mod m) (m - 2).

Definition point : Type := (Z * Z * Z)%type.

Definition infinity : point := (1, 1, 0).

Definition double (P : point) : point :=
  let '(X, Y, Z) := P in
  if Z =? 0 then P else
  let YY := mulmod p Y Y in
  let XYY := mulmod p X YY in
  let S := addmod p (addmod p XYY XYY) (addmod p XYY XYY) in
  let XX := mulmod p X X in
  let M := addmod p XX (addmod p XX XX) in
  let X' := submod p (mulmod p M M) (addmod p S S) in
  let Y4 := mulmod p YY YY in
  let Y4_2 := addmod p Y4 Y4 in
  let Y4_4 := addmod p Y4_2 Y4_2 in
  let Y' := submod p (mulmod p M (submod p S X')) (addmod p Y4_4 Y4_4) in
  let YZ := mulmod p Y Z in
  (X', Y', addmod p YZ YZ).

Definition add (P Q : point) : point :=
  let '(X1, Y1, Z1) := P in
  let '(X2, Y2, Z2) := Q in
  if Z1 =? 0 then Q else if Z2 =? 0 then P else
  let Z1Z1 := mulmod p Z1 Z1 in
  let Z2Z2 := mulmod p Z2 Z2 in
  let U1 := mulmod p X1 Z2Z2 in
  let U2 := mulmod p X2 Z1Z1 in
  let S1 := mulmod p (mulmod p Y1 Z2) Z2Z2 in
  let S2 := mulmod p (mulmod p Y2 Z1) Z1Z1 in
  if U1 =? U2 then
    if S1 =? S2 then double P else infinity
  else
    let H := submod p U2 U1 in
    let R := submod p S2 S1 in
    let HH := mulmod p H H in
    let HHH := mulmod p H HH in
    let V := mulmod p U1 HH in
    let X3 := submod p (submod p (mulmod p R R) HHH) (addmod p V V) in
    let Y3 := submod p (mulmod p R (submod p V X3)) (mulmod p S1 HHH) in
    (X3, Y3, mulmod p (mulmod p H Z1) Z2).

Fixpoint multiply (bits : nat) (k : Z) (P : point) : point :=
  match bits with
  | O => infinity
  | S bits' =>
      let rest := multiply bits' (Z.shiftr k 1) (double P) in
      if Z.odd k then add P rest else rest
  end.

(** The affine coordinates; [None] for the point at infinity. *)
Definition affine (P : point) : option (Z * Z) :=
  let '(X, Y, Z) := P in
  if Z =? 0 then None
  else
    let i := inverse p Z in
    let ii := mulmod p i i in
    Some (mulmod p X ii, mulmod p (mulmod p Y ii) i).

End Secp256k1.


Module Signer.

Local Open Scope Z_scope.

(** Modelled from the spec: step 1 of section 4.4, the canonical text of
    a transaction object.  The keys of every object are put in
    lexicographic order, arrays keep their order, and the text has no
    white space; it is printed as [JSON.stringify] prints (numbers are not
    among the JSON values of this development: the sign messages of the
    test-suite carry their amounts as strings). *)
Fixpoint insert_member (member : string * json) (sorted : list (string * json))
    : list (string * json) :=
  match sorted with
  | [] => [member]
  | m :: rest =>
      if String.leb (fst member) (fst m) then member :: sorted
      else m :: insert_member member rest
  end.

Fixpoint canonical (v : json) : json :=
  match v with
  | JArr elements => JArr (map canonical elements)
  | JObj fields =>
      JObj (fold_right insert_member []
              (map (fun member => (fst member, canonical (snd member))) fields))
  | _ => v
  end.

Definition canonical_text (v : json) : string := Reference.stringify (canonical v).

(** A number as [count] bytes, big-endian, and back. *)
Fixpoint be_bytes (count : nat) (z : Z) : list byte :=
  match count with
  | O => []
  | S count' => (be_bytes count' (Z.shiftr z 8) ++ [byte_of_Z z])%list
  end.

Definition be_number (bytes : list byte) : Z :=
  fold_left (fun acc b => acc * 256 + Z_of_byte b) bytes 0.

Definition hmac (key message : list byte) : list byte :=
  HMAC SHA256.digest 64 key message.

(** Modelled from the spec: the nonce of step 3 of section 4.4, derived
    from the private key and the digest by the standard HMAC-based
    procedure (RFC 6979, over HMAC-SHA-256); [fuel] bounds the candidates
    that are tried. *)
Fixpoint nonce_search (fuel : nat) (K V : list byte) : option Z :=
  match fuel with
  | O => None
  | S fuel' =>
      let V := hmac K V in
      let k := be_number V in
      if (1 <=? k) && (k <? Secp256k1.n) then Some k
      else
        let K := hmac K (V ++ [x00]) in
        nonce_search fuel' K (hmac K V)
  end.

Definition nonce (privateKey digest : list byte) : option Z :=
  let h := be_bytes 32 (be_number digest mod Secp256k1.n) in
  let V := repeat x01 32 in
  let K := repeat x00 32 in
  let K := hmac K (V ++ [x00] ++ privateKey ++ h) in
  let V := hmac K V in
  let K := hmac K (V ++ [x01] ++ privateKey ++ h) in
  let V := hmac K V in
  nonce_search 64 K V.

(** What signing gives: the 64 bytes, the failure of section 4.4, or no
    signature (no candidate nonce within the bound gave one). *)
Inductive result : Type :=
| Signature (bytes : list byte)
| InvalidPrivateKey
| NoSignature.

(** Modelled from the spec: steps 3 and 4 of section 4.4, the ECDSA
    signature over the digest, with [s] in its lower half, as the 32 bytes
    of [r] followed by the 32 bytes of [s]. *)
Definition sign_digest (digest privateKey : list byte) : result :=
  let x := be_number privateKey in
  if negb ((length privateKey =? 32)%nat && (1 <=? x) && (x <? Secp256k1.n))
  then InvalidPrivateKey
  else
    match nonce privateKey digest with
    | None => NoSignature
    | Some k =>
        match Secp256k1.affine
                (Secp256k1.multiply 256 k (Secp256k1.Gx, Secp256k1.Gy, 1)) with
        | None => NoSignature
        | Some (x1, _) =>
            let r := x1 mod Secp256k1.n in
            let z := be_number digest mod Secp256k1.n in
            let s :=
              Secp256k1.mulmod Secp256k1.n (Secp256k1.inverse Secp256k1.n k)
                ((z + Secp256k1.mulmod Secp256k1.n r x) mod Secp256k1.n) in
            if (r =? 0) || (s =? 0) then NoSignature
            else
              let s := if Secp256k1.n / 2 <? s then Secp256k1.n - s else s in
              Signature (be_bytes 32 r ++ be_bytes 32 s)
        end
    end.

(** Modelled from the spec: [signWithPrivateKey] of src/cosmos-keys.ts,
    the canonical signer of section 4.4: the SHA-256 digest of the
    canonical text, signed. *)
Definition signWithPrivateKey (signMessage : json) (privateKey : list byte)
    : result :=
  sign_digest (SHA256.digest (Utf8_parse (canonical_text signMessage))) privateKey.

End Signer.

(** The sign message of the test-suite, its private key and the signature
    it expects; and the same message with the keys of its objects in
    another order. *)
Module SignVector.

Definition coins (fields : list (string * json)) : json := JArr [JObj fields].

Definition signMessage : json :=
  JObj
    [("account_number", JStr "1");
     ("chain_id", JStr "tendermint_test");
     ("fee",
      JObj
        [("amount", JArr [JObj [("amount", JStr "0"); ("denom", JStr "")]]);
         ("gas", JStr "21906")]);
     ("memo", JStr "");
     ("msgs",
      JArr
        [JObj
           [("type", JStr "cosmos-sdk/Send");
            ("value",
             JObj
               [("inputs",
                 JArr
                   [JObj
                      [("address",
                        JStr "cosmos1qperwt9wrnkg5k9e5gzfgjppzpqhyav5j24d66");
                       ("coins",
                        coins [("amount", JStr "1"); ("denom", JStr "STAKE")])]]);
                ("outputs",
                 JArr
                   [JObj
                      [("address",
                        JStr "cosmos1yeckxz7tapz34kjwnjxvmxzurerquhtrmxmuxt");
                       ("coins",
                        coins [("amount", JStr "1"); ("denom", JStr "STAKE")])]])])]]);
     ("sequence", JStr "0")].

Definition reordered : json :=
  JObj
    [("sequence", JStr "0");
     ("msgs",
      JArr
        [JObj
           [("value",
             JObj
               [("outputs",
                 JArr
                   [JObj
                      [("coins",
                        coins [("denom", JStr "STAKE"); ("amount", JStr "1")]);
                       ("address",
                        JStr "cosmos1yeckxz7tapz34kjwnjxvmxzurerquhtrmxmuxt")]]);
                ("inputs",
                 JArr
                   [JObj
                      [("coins",
                        coins [("denom", JStr "STAKE"); ("amount", JStr "1")]);
                       ("address",
                        JStr "cosmos1qperwt9wrnkg5k9e5gzfgjppzpqhyav5j24d66")]])]);
            ("type", JStr "cosmos-sdk/Send")]]);
     ("memo", JStr "");
     ("fee",
      JObj
        [("gas", JStr "21906");
         ("amount", JArr [JObj [("denom", JStr ""); ("amount", JStr "0")]])]);
     ("chain_id", JStr "tendermint_test");
     ("account_number", JStr "1")].

Definition privateKey : list byte :=
  Reference.parse_hex
    "2afc5a66b30e7521d553ec8e6f7244f906df97477248c30c103d7b3f2c671fef".

Definition signature : list byte :=
  Base64.parse
    "YjJhlAf7aCnUtLyBNDp9e6LKuNgV7hJC3rmm0Wro5nBsIPVtWzjuobsp/AhR5Kht+HcRF2zBq4AfoNQMIbY6fw==".

End SignVector.

(** * Proofs *)

(** ** Strings and keys *)

#[local] Arguments String.append !_ _ / : simpl nomatch.

Lemma string_app_assoc (a b c : string) : (a +:+ b) +:+ c = a +:+ (b +:+ c).
Proof. induction a as [|x a IH]; simpl; [done | by rewrite IH]. Qed.

Lemma string_app_empty (s : string) : s +:+ "" = s.
Proof. induction s as [|c s IH]; simpl; [done | by rewrite IH]. Qed.

Lemma string_app_length (a b : string) :
  String.length (a +:+ b) = String.length a + String.length b.
Proof. induction a as [|x a IH]; simpl; [done | by rewrite IH]. Qed.

Lemma substring_prefix (a b : string) (n : nat) :
  String.length a = n -> String.substring 0 n (a +:+ b) = a.
Proof.
  intros <-. induction a as [|c a IH]; simpl; [by destruct b | by rewrite IH].
Qed.

Lemma substring_skip (a b : string) (n m : nat) :
  String.length a = n ->
  String.substring n m (a +:+ b) = String.substring 0 m b.
Proof. intros <-. induction a as [|c a IH]; simpl; [done | apply IH]. Qed.

Lemma substring_from_skip (a b : string) (n : nat) :
  String.length a = n -> substring_from n (a +:+ b) = b.
Proof. intros <-. induction a as [|c a IH]; simpl; [done | apply IH]. Qed.

Lemma Hex_stringify_length (bytes : list byte) :
  String.length (Hex_stringify bytes) = 2 * length bytes.
Proof. induction bytes as [|b bytes IH]; simpl; [done | rewrite IH; lia]. Qed.

Lemma wallet_key_inj (a b : string) : wallet_key a = wallet_key b -> a = b.
Proof. unfold wallet_key, KEY_TAG. simpl. congruence. Qed.

Lemma wallet_key_index (a : string) : wallet_key a = index_key <-> a = "index".
Proof.
  unfold wallet_key, index_key, KEY_TAG.
  simpl. split; congruence.
Qed.

Lemma WordArray_random_length (n : nat) (w : world) :
  exists bytes, WordArray_random n w
                = (Returned bytes,
                   mkWorld (localStorage w) (random_source w) (random_used w + n))
                /\ length bytes = n.
Proof.
  eexists. split; [reflexivity |]. by rewrite length_map, length_seq.
Qed.

(** ** Base64 and the text of a ciphertext *)

Lemma list_ind3 {A : Type} (P : list A -> Prop) :
  P [] -> (forall a, P [a]) -> (forall a b, P [a; b]) ->
  (forall a b c l, P l -> P (a :: b :: c :: l)) ->
  forall l, P l.
Proof.
  intros H0 H1 H2 H3 l.
  assert (H : P l /\ (forall a, P (a :: l)) /\ (forall a b, P (a :: b :: l))).
  { induction l as [|x l (IH0 & IH1 & IH2)]; [by auto |].
    split; [apply IH1 |]. split; [intros a; apply IH2 |].
    intros a b. by apply H3. }
  apply H.
Qed.

Lemma byte_of_N_to_N (b : byte) : byte_of_N (Byte.to_N b) = b.
Proof. unfold byte_of_N. by rewrite Byte.of_to_N. Qed.

Lemma Z_of_byte_bounds (b : byte) : (0 <= Z_of_byte b < 256)%Z.
Proof. unfold Z_of_byte. pose proof (Byte.to_N_bounded b). lia. Qed.

Lemma byte_of_Z_eq (z : Z) (b : byte) :
  (z mod 256 = Z_of_byte b)%Z -> byte_of_Z z = b.
Proof.
  intros H. unfold byte_of_Z. rewrite H. unfold Z_of_byte.
  by rewrite N2Z.id, byte_of_N_to_N.
Qed.

Module Base64Facts.

Import Base64.

Local Open Scope Z_scope.

(** A property of the 64 values, checked on each. *)
Lemma sextet_cases (p : Z -> bool) (n : Z) :
  0 <= n < 64 ->
  forallb p (map Z.of_nat (seq 0 64)) = true -> p n = true.
Proof.
  intros Hn Hall. rewrite forallb_forall in Hall. apply Hall.
  apply in_map_iff. exists (Z.to_nat n). split; [lia |].
  apply in_seq. lia.
Qed.

Lemma value_char (n : Z) : 0 <= n < 64 -> value (char n) = n.
Proof.
  intros Hn. apply Z.eqb_eq.
  apply (sextet_cases (fun n => value (char n) =? n) n Hn).
  vm_compute. reflexivity.
Qed.

Lemma char_not_padding (n : Z) :
  0 <= n < 64 -> Ascii.eqb (char n) padding = false.
Proof.
  intros Hn. apply negb_true_iff.
  apply (sextet_cases (fun n => negb (Ascii.eqb (char n) padding)) n Hn).
  vm_compute. reflexivity.
Qed.

Lemma unpadded_char (n : Z) (rest : string) :
  0 <= n < 64 -> unpadded (String (char n) rest) = n :: unpadded rest.
Proof.
  intros Hn. cbn [unpadded]. by rewrite char_not_padding, value_char.
Qed.

Lemma unpadded_padding (rest : string) : unpadded (String padding rest) = [].
Proof. reflexivity. Qed.

(** The four values of three bytes, and the bytes back from them. *)
Lemma first_sextet (a b c : Z) :
  0 <= a < 256 -> 0 <= b < 256 -> 0 <= c < 256 ->
  (a * 65536 + b * 256 + c) / 262144 = a / 4.
Proof. intros. Z.div_mod_to_equations. lia. Qed.

Lemma second_sextet (a b c : Z) :
  0 <= a < 256 -> 0 <= b < 256 -> 0 <= c < 256 ->
  (a * 65536 + b * 256 + c) / 4096 mod 64 = a mod 4 * 16 + b / 16.
Proof. intros. Z.div_mod_to_equations. lia. Qed.

Lemma third_sextet (a b c : Z) :
  0 <= a < 256 -> 0 <= b < 256 -> 0 <= c < 256 ->
  (a * 65536 + b * 256 + c) / 64 mod 64 = b mod 16 * 4 + c / 64.
Proof. intros. Z.div_mod_to_equations. lia. Qed.

Lemma fourth_sextet (a b c : Z) :
  0 <= a < 256 -> 0 <= b < 256 -> 0 <= c < 256 ->
  (a * 65536 + b * 256 + c) mod 64 = c mod 64.
Proof. intros. Z.div_mod_to_equations. lia. Qed.

Lemma sextet_bounds (a b c : Z) :
  0 <= a < 256 -> 0 <= b < 256 -> 0 <= c < 256 ->
  0 <= a / 4 < 64 /\ 0 <= a mod 4 * 16 + b / 16 < 64
  /\ 0 <= b mod 16 * 4 + c / 64 < 64 /\ 0 <= c mod 64 < 64.
Proof. intros. repeat split; Z.div_mod_to_equations; lia. Qed.

Lemma first_byte (a b : Z) :
  0 <= a < 256 -> 0 <= b < 256 ->
  (a / 4 * 4 + (a mod 4 * 16 + b / 16) / 16) mod 256 = a.
Proof. intros. Z.div_mod_to_equations. lia. Qed.

Lemma second_byte (a b c : Z) :
  0 <= a < 256 -> 0 <= b < 256 -> 0 <= c < 256 ->
  ((a mod 4 * 16 + b / 16) * 16 + (b mod 16 * 4 + c / 64) / 4) mod 256 = b.
Proof. intros. Z.div_mod_to_equations. lia. Qed.

Lemma third_byte (b c : Z) :
  0 <= b < 256 -> 0 <= c < 256 ->
  ((b mod 16 * 4 + c / 64) * 64 + c mod 64) mod 256 = c.
Proof. intros. Z.div_mod_to_equations. lia. Qed.

Lemma bytes_of_stringify (bytes : list byte) :
  forall fuel : nat,
    (length bytes <= fuel)%nat ->
    bytes_of fuel (unpadded (stringify bytes)) = bytes.
Proof.
  induction bytes as [|x|x y|x y z rest IH] using list_ind3; intros fuel Hfuel.
  - by destruct fuel.
  - pose proof (Z_of_byte_bounds x) as Hx.
    pose proof (sextet_bounds (Z_of_byte x) 0 0 Hx ltac:(lia) ltac:(lia))
      as (B1 & B2 & _).
    cbn [stringify]. cbv zeta.
    replace (Z_of_byte x * 65536) with (Z_of_byte x * 65536 + 0 * 256 + 0)
      by lia.
    rewrite first_sextet, second_sextet by lia.
    rewrite !unpadded_char, unpadded_padding by done.
    destruct fuel as [|fuel]; [simpl in Hfuel; lia |]. cbn [bytes_of].
    f_equal. apply byte_of_Z_eq. by apply first_byte.
  - pose proof (Z_of_byte_bounds x) as Hx.
    pose proof (Z_of_byte_bounds y) as Hy.
    pose proof (sextet_bounds (Z_of_byte x) (Z_of_byte y) 0 Hx Hy ltac:(lia))
      as (B1 & B2 & B3 & _).
    cbn [stringify]. cbv zeta.
    replace (Z_of_byte x * 65536 + Z_of_byte y * 256)
      with (Z_of_byte x * 65536 + Z_of_byte y * 256 + 0) by lia.
    rewrite first_sextet, second_sextet, third_sextet by lia.
    rewrite !unpadded_char, unpadded_padding by done.
    destruct fuel as [|fuel]; [simpl in Hfuel; lia |]. cbn [bytes_of].
    f_equal; [| f_equal]; apply byte_of_Z_eq.
    + by apply first_byte.
    + by apply (second_byte _ _ 0); lia.
  - pose proof (Z_of_byte_bounds x) as Hx.
    pose proof (Z_of_byte_bounds y) as Hy.
    pose proof (Z_of_byte_bounds z) as Hz.
    pose proof (sextet_bounds (Z_of_byte x) (Z_of_byte y) (Z_of_byte z)
                  Hx Hy Hz) as (B1 & B2 & B3 & B4).
    cbn [stringify]. cbv zeta.
    rewrite first_sextet, second_sextet, third_sextet, fourth_sextet by lia.
    rewrite !unpadded_char by done.
    destruct fuel as [|fuel]; [simpl in Hfuel; lia |]. cbn [bytes_of].
    rewrite IH by (simpl in Hfuel; lia).
    f_equal; [| f_equal; [| f_equal]]; apply byte_of_Z_eq.
    + by apply first_byte.
    + by apply second_byte.
    + by apply third_byte.
Qed.

Lemma unpadded_length (bytes : list byte) :
  (length bytes <= length (unpadded (stringify bytes)))%nat.
Proof.
  induction bytes as [|x|x y|x y z rest IH] using list_ind3.
  - done.
  - pose proof (Z_of_byte_bounds x) as Hx.
    pose proof (sextet_bounds (Z_of_byte x) 0 0 Hx ltac:(lia) ltac:(lia))
      as (B1 & B2 & _).
    cbn [stringify]. cbv zeta.
    replace (Z_of_byte x * 65536) with (Z_of_byte x * 65536 + 0 * 256 + 0)
      by lia.
    rewrite first_sextet, second_sextet by lia.
    rewrite !unpadded_char by done. simpl. lia.
  - pose proof (Z_of_byte_bounds x) as Hx.
    pose proof (Z_of_byte_bounds y) as Hy.
    pose proof (sextet_bounds (Z_of_byte x) (Z_of_byte y) 0 Hx Hy ltac:(lia))
      as (B1 & B2 & B3 & _).
    cbn [stringify]. cbv zeta.
    replace (Z_of_byte x * 65536 + Z_of_byte y * 256)
      with (Z_of_byte x * 65536 + Z_of_byte y * 256 + 0) by lia.
    rewrite first_sextet, second_sextet, third_sextet by lia.
    rewrite !unpadded_char by done. simpl. lia.
  - pose proof (Z_of_byte_bounds x) as Hx.
    pose proof (Z_of_byte_bounds y) as Hy.
    pose proof (Z_of_byte_bounds z) as Hz.
    pose proof (sextet_bounds (Z_of_byte x) (Z_of_byte y) (Z_of_byte z)
                  Hx Hy Hz) as (B1 & B2 & B3 & B4).
    cbn [stringify]. cbv zeta.
    rewrite first_sextet, second_sextet, third_sextet, fourth_sextet by lia.
    rewrite !unpadded_char by done. simpl. simpl in IH. lia.
Qed.

(** [Base64.parse] reads back what [Base64.stringify] wrote. *)
Lemma parse_stringify (bytes : list byte) : parse (stringify bytes) = bytes.
Proof.
  unfold parse. cbv zeta. apply bytes_of_stringify, unpadded_length.
Qed.

End Base64Facts.

(** ** Key derivation and the transit message *)

Section CryptoFacts.

Context {rt : Runtime}.

Lemma xor_bytes_length (a b : list byte) :
  length (xor_bytes a b) = length a.
Proof.
  revert b. induction a as [|x a IH]; intros [|y b]; simpl; auto.
Qed.

Lemma PBKDF2_iterate_length key n intermediate block :
  length (PBKDF2_iterate key n intermediate block) = length block.
Proof.
  revert intermediate block. induction n as [|n IH]; intros; simpl; [done |].
  by rewrite IH, xor_bytes_length.
Qed.

Lemma PBKDF2_loop_length key salt keySize iterations fuel blockIndex derived :
  (forall message, 4 <= length (hasher message)) ->
  4 * keySize <= length derived + 4 * fuel ->
  4 * keySize
  <= length (PBKDF2_loop key salt keySize iterations fuel blockIndex derived).
Proof.
  intros Hword. revert blockIndex derived.
  induction fuel as [|fuel IH]; intros blockIndex derived Hlen;
    cbn [PBKDF2_loop].
  - lia.
  - destruct (Nat.ltb_spec (length derived) (4 * keySize)); [| lia].
    apply IH. rewrite length_app. unfold PBKDF2_block.
    rewrite PBKDF2_iterate_length. unfold HMAC.
    match goal with
    | |- context [length (hasher ?m)] => pose proof (Hword m)
    end.
    lia.
Qed.

(** The derived key has the size asked for. *)
Lemma PBKDF2_length password salt keySize iterations :
  (forall message, 4 <= length (hasher message)) ->
  length (PBKDF2 password salt keySize iterations) = 4 * keySize.
Proof.
  intros Hword. unfold PBKDF2. rewrite length_firstn.
  pose proof (PBKDF2_loop_length (Utf8_parse password) salt keySize
                iterations keySize 1 [] Hword) as H.
  simpl in H. lia.
Qed.

(** The HMAC key of a password and of the same password followed by a
    NUL character are the same block: the zero fill absorbs the NUL. *)
Lemma HMAC_key_zero (key : list byte) :
  length key < hasher_blockSize ->
  HMAC_key hasher hasher_blockSize (key ++ [x00])
  = HMAC_key hasher hasher_blockSize key.
Proof.
  intros Hlen. unfold HMAC_key. rewrite length_app. simpl.
  destruct (Nat.ltb_spec hasher_blockSize (length key + 1)); [lia |].
  destruct (Nat.ltb_spec hasher_blockSize (length key)); [lia |].
  rewrite <- app_assoc, length_app. simpl. f_equal.
  replace (hasher_blockSize - length key)
    with (S (hasher_blockSize - (length key + 1))) by lia.
  reflexivity.
Qed.

Lemma HMAC_zero key message :
  length key < hasher_blockSize ->
  HMAC hasher hasher_blockSize (key ++ [x00]) message
  = HMAC hasher hasher_blockSize key message.
Proof. intros Hlen. unfold HMAC. by rewrite HMAC_key_zero. Qed.

Lemma PBKDF2_iterate_zero key n intermediate block :
  length key < hasher_blockSize ->
  PBKDF2_iterate (key ++ [x00]) n intermediate block
  = PBKDF2_iterate key n intermediate block.
Proof.
  intros Hlen. revert intermediate block.
  induction n as [|n IH]; intros; simpl; [done |].
  by rewrite HMAC_zero, IH.
Qed.

Lemma PBKDF2_loop_zero key salt keySize iterations fuel blockIndex derived :
  length key < hasher_blockSize ->
  PBKDF2_loop (key ++ [x00]) salt keySize iterations fuel blockIndex derived
  = PBKDF2_loop key salt keySize iterations fuel blockIndex derived.
Proof.
  intros Hlen. revert blockIndex derived.
  induction fuel as [|fuel IH]; intros; simpl; [done |].
  unfold PBKDF2_block. by rewrite HMAC_zero, PBKDF2_iterate_zero, IH.
Qed.

Lemma Utf8_parse_app (a b : string) :
  Utf8_parse (a +:+ b) = (Utf8_parse a ++ Utf8_parse b)%list.
Proof.
  induction a as [|c a IH]; simpl; [done |].
  destruct (N_of_ascii c <? 128)%N; simpl; by rewrite IH.
Qed.

(** Two passwords, one key: a password shorter than the hash block and
    the same password with a NUL character appended derive the same key
    from every salt. *)
Lemma PBKDF2_zero password salt keySize iterations :
  length (Utf8_parse password) < hasher_blockSize ->
  PBKDF2 (password +:+ String "000" "") salt keySize iterations
  = PBKDF2 password salt keySize iterations.
Proof.
  intros Hlen. unfold PBKDF2. rewrite Utf8_parse_app.
  change (Utf8_parse (String "000" "")) with [x00].
  by rewrite PBKDF2_loop_zero.
Qed.

(** What [encrypt] returns, with the two draws named. *)
Lemma encrypt_run (message password : string) (w : world) :
  let salt := map (random_source w) (seq (random_used w) 16) in
  let iv := map (random_source w) (seq (random_used w + 16) 16) in
  encrypt message password w
  = (Returned
       (Hex_stringify salt +:+ Hex_stringify iv
        +:+ AES_encrypt message (PBKDF2 password salt 8 100) iv),
     mkWorld (localStorage w) (random_source w) (random_used w + 16 + 16)).
Proof. reflexivity. Qed.

Lemma decrypt_run (transitMessage password : string) (w : world) :
  decrypt transitMessage password w
  = (match
       AES_decrypt (substring_from 64 transitMessage)
         (PBKDF2 password (Hex_parse (String.substring 0 32 transitMessage))
            8 100)
         (Hex_parse (String.substring 32 32 transitMessage))
     with
     | Some decrypted => Returned decrypted
     | None => Thrown (Error "Malformed UTF-8 data")
     end, w).
Proof.
  unfold decrypt, lift_option.
  change (keySize / 32) with 8. change iterations with 100.
  by destruct (AES_decrypt _ _ _).
Qed.

(** How [decrypt] takes apart a transit message whose salt and iv have
    16 bytes each. *)
Lemma decrypt_transit (salt iv : list byte) (encrypted password : string)
    (w : world) :
  (forall bytes, Hex_parse (Hex_stringify bytes) = bytes) ->
  length salt = 16 -> length iv = 16 ->
  decrypt (Hex_stringify salt +:+ Hex_stringify iv +:+ encrypted) password w
  = (match AES_decrypt encrypted (PBKDF2 password salt 8 100) iv with
     | Some decrypted => Returned decrypted
     | None => Thrown (Error "Malformed UTF-8 data")
     end, w).
Proof.
  intros Hhex Hsalt Hiv. rewrite decrypt_run.
  assert (Hs : String.length (Hex_stringify salt) = 32)
    by (rewrite Hex_stringify_length; lia).
  assert (Hi : String.length (Hex_stringify iv) = 32)
    by (rewrite Hex_stringify_length; lia).
  rewrite (substring_prefix _ _ 32 Hs).
  rewrite (substring_skip _ _ 32 32 Hs).
  rewrite (substring_prefix _ _ 32 Hi).
  rewrite <- string_app_assoc.
  rewrite (substring_from_skip _ encrypted 64)
    by (rewrite string_app_length; lia).
  by rewrite !Hhex.
Qed.

(** The text of a ciphertext reads back as the ciphertext, unless the
    ciphertext begins with [Salted__]: then its first sixteen bytes are
    lost. *)
Lemma OpenSSL_parse_stringify (ciphertext : list byte) :
  OpenSSL_parse (OpenSSL_stringify ciphertext)
  = if starts_with Salted__ ciphertext then skipn 16 ciphertext
    else ciphertext.
Proof.
  unfold OpenSSL_parse, OpenSSL_stringify.
  by rewrite Base64Facts.parse_stringify.
Qed.

Lemma AES_decrypt_encrypt (message : string) (key iv : list byte) :
  CipherLaws rt ->
  length key = 32 -> length iv = 16 ->
  starts_with Salted__ (AES_ciphertext message key iv) = false ->
  AES_decrypt (AES_encrypt message key iv) key iv = Some message.
Proof.
  intros [Haes] Hkey Hiv Hfree. unfold AES_decrypt, AES_encrypt.
  rewrite OpenSSL_parse_stringify, Hfree. by apply Haes.
Qed.

Lemma AES_decrypt_salted (message : string) (key iv : list byte) :
  starts_with Salted__ (AES_ciphertext message key iv) = true ->
  AES_decrypt (AES_encrypt message key iv) key iv
  = AES_plaintext (skipn 16 (AES_ciphertext message key iv)) key iv.
Proof.
  intros Hsalted. unfold AES_decrypt, AES_encrypt.
  by rewrite OpenSSL_parse_stringify, Hsalted.
Qed.

(** [decrypt] under the password of [encrypt] gives the message back, when
    the ciphertext does not begin with [Salted__]. *)
Lemma decrypt_encrypt (message password transit : string) (w w1 w2 : world) :
  CryptoLaws rt ->
  unsalted message password w ->
  encrypt message password w = (Returned transit, w1) ->
  decrypt transit password w2 = (Returned message, w2).
Proof.
  intros [[Hhex Hword] Hcipher] Hfree Hrun. rewrite encrypt_run in Hrun.
  cbv zeta in Hrun. unfold unsalted, drawn_ciphertext in Hfree.
  cbv zeta in Hfree. change (keySize / 32) with 8 in Hfree.
  change iterations with 100 in Hfree.
  set (salt := map _ (seq (random_used w) 16)) in Hrun, Hfree.
  set (iv := map _ (seq (random_used w + 16) 16)) in Hrun, Hfree.
  assert (Hsalt : length salt = 16)
    by (subst salt; by rewrite length_map, length_seq).
  assert (Hiv : length iv = 16)
    by (subst iv; by rewrite length_map, length_seq).
  clearbody salt iv. injection Hrun as <- _.
  rewrite decrypt_transit by done.
  rewrite AES_decrypt_encrypt; [done | done | | done | done].
  by rewrite (PBKDF2_length _ _ 8 100 Hword).
Qed.

End CryptoFacts.

(** ** Reading and writing the store *)

Ltac unfold_M :=
  unfold JSON_parse_or_throw, as_string, as_array, lift_outcome,
    localStorage_getItem, localStorage_setItem, localStorage_removeItem in *;
  unfold lift_option, try_catch, mbind, M_bind, throw, mret, M_ret in *.

Section StoreFacts.

Context {rt : Runtime}.
Hypothesis json_laws : JSONLaws rt.

Lemma JSON_stringify_nonempty (v : json) :
  persisted v -> JSON_stringify v <> "".
Proof.
  intros Hv Hempty. pose proof (JSON_parse_stringify rt json_laws v Hv) as H.
  rewrite Hempty, (JSON_parse_empty rt json_laws) in H. discriminate.
Qed.

Lemma JSON_stringify_inj (u v : json) :
  persisted u -> persisted v -> JSON_stringify u = JSON_stringify v -> u = v.
Proof.
  intros Hu Hv Heq.
  pose proof (JSON_parse_stringify rt json_laws u Hu) as H.
  rewrite Heq, (JSON_parse_stringify rt json_laws v Hv) in H. congruence.
Qed.

Lemma or_default_stringify (v : json) (fallback : string) :
  persisted v -> or_default (Some (JSON_stringify v)) fallback = JSON_stringify v.
Proof.
  intros Hv. unfold or_default.
  destruct (String.eqb_spec (JSON_stringify v) ""); [| done].
  by destruct (JSON_stringify_nonempty v Hv).
Qed.

Lemma loadFromStorage_absent (address : string) (w : world) :
  localStorage w !! wallet_key address = None ->
  loadFromStorage address w = (Returned JNull, w).
Proof.
  intros H. unfold loadFromStorage. unfold_M.
  fold (wallet_key address). by rewrite H.
Qed.

Lemma loadFromStorage_stored (address : string) (sw : StoredWallet)
    (w : world) :
  stored_at (localStorage w) address sw ->
  loadFromStorage address w = (Returned (stored_json sw), w).
Proof.
  intros H. unfold loadFromStorage. unfold_M.
  fold (wallet_key address). rewrite H.
  destruct (String.eqb_spec (JSON_stringify (stored_json sw)) "") as [E|_].
  - by destruct (JSON_stringify_nonempty _ (persisted_stored sw)).
  - by rewrite (JSON_parse_stringify rt json_laws _ (persisted_stored sw)).
Qed.

(** [loadFromStorage] never writes. *)
Lemma loadFromStorage_world (address : string) (w : world) :
  snd (loadFromStorage address w) = w.
Proof.
  unfold loadFromStorage. unfold_M.
  destruct (localStorage w !! _) as [s|]; [| done].
  destruct (String.eqb s ""); [done |]. by destruct (JSON_parse s).
Qed.

Lemma getWalletIndex_index (idx : list IndexEntry) (w : world) :
  index_is (localStorage w) idx ->
  getWalletIndex w = (Returned (index_json idx), w).
Proof.
  unfold index_is, getWalletIndex. unfold_M. fold index_key.
  destruct (localStorage w !! index_key) as [text|]; intros ->.
  - rewrite or_default_stringify by constructor.
    by rewrite (JSON_parse_stringify rt json_laws _ (persisted_index idx)).
  - simpl. by rewrite (JSON_parse_brackets rt json_laws).
Qed.

Lemma find_name_absent (name : string) (idx : list IndexEntry) :
  name ∉ map ie_name idx ->
  find_name name (map entry_json idx) = Returned None.
Proof.
  induction idx as [|e idx IH]; simpl; [done |]. intros Hnot.
  destruct (String.eqb_spec (ie_name e) name) as [Heq|_].
  - destruct Hnot. rewrite <- Heq. left.
  - apply IH. intros Hin. apply Hnot. by right.
Qed.

Lemma find_name_present (name : string) (idx : list IndexEntry) :
  name ∈ map ie_name idx ->
  exists entry, find_name name (map entry_json idx) = Returned (Some entry).
Proof.
  induction idx as [|e idx IH]; simpl; intros Hin.
  - by apply not_elem_of_nil in Hin.
  - destruct (String.eqb_spec (ie_name e) name) as [Heq|Hne]; [by eexists |].
    apply IH. apply elem_of_cons in Hin as [Heq|Hin]; [congruence | done].
Qed.

Lemma filter_address_entries (address : string) (idx : list IndexEntry) :
  filter_address address (map entry_json idx)
  = Returned (map entry_json (filter (fun e => ie_address e <> address) idx)).
Proof.
  induction idx as [|e idx IH]; simpl; [done |]. rewrite IH.
  rewrite filter_cons.
  destruct (String.eqb_spec (ie_address e) address) as [Heq|Hne]; simpl.
  - by rewrite decide_False by (intros H; by apply H).
  - by rewrite decide_True.
Qed.

Lemma addToIndex_fresh (name address : string) (idx : list IndexEntry)
    (w : world) :
  index_is (localStorage w) idx ->
  name ∉ map ie_name idx ->
  addToIndex name address w
  = (Returned tt,
     with_storage
       (insert index_key
          (JSON_stringify (index_json (idx ++ [mkIndexEntry name address]))))
       w).
Proof.
  intros Hidx Hname. unfold addToIndex.
  unfold mbind at 1, M_bind at 1. rewrite (getWalletIndex_index idx w Hidx).
  unfold_M. simpl. rewrite (find_name_absent name idx Hname).
  unfold index_json. by rewrite map_app.
Qed.

Lemma addToIndex_taken (name address : string) (idx : list IndexEntry)
    (w : world) :
  index_is (localStorage w) idx ->
  name ∈ map ie_name idx ->
  addToIndex name address w
  = (Thrown (Error "Key with that name already exists"), w).
Proof.
  intros Hidx Hname. unfold addToIndex.
  unfold mbind at 1, M_bind at 1. rewrite (getWalletIndex_index idx w Hidx).
  unfold_M. simpl. by destruct (find_name_present name idx Hname) as [e ->].
Qed.

Lemma removeFromIndex_run (address : string) (idx : list IndexEntry)
    (w : world) :
  index_is (localStorage w) idx ->
  removeFromIndex address w
  = (Returned tt,
     with_storage
       (insert index_key
          (JSON_stringify
             (index_json (filter (fun e => ie_address e <> address) idx))))
       w).
Proof.
  intros Hidx. unfold removeFromIndex.
  unfold mbind at 1, M_bind at 1. rewrite (getWalletIndex_index idx w Hidx).
  unfold_M. simpl. by rewrite filter_address_entries.
Qed.

End StoreFacts.

(** ** The four operations, case by case *)

Section OperationFacts.

Context {rt : Runtime}.
Hypothesis json_laws : JSONLaws rt.

(** The result of [decrypt] and of [open_ciphertext] does not depend on
    the world, and [decrypt] leaves the world alone. *)
Lemma decrypt_world (transit password : string) (w : world) :
  snd (decrypt transit password w) = w.
Proof. rewrite decrypt_run. done. Qed.

Lemma open_ciphertext_world (ciphertext password : string) (w w' : world) :
  open_ciphertext ciphertext password w
  = open_ciphertext ciphertext password w'.
Proof. unfold open_ciphertext. rewrite !decrypt_run. by destruct (AES_decrypt _ _ _). Qed.

(** The [try] block of [getStoredWallet] on a StoredWallet. *)
Lemma try_open (sw : StoredWallet) (password : string) (w : world) (e : exn) :
  try_catch
    (transit ← as_string (js_get (stored_json sw) "wallet");
     decrypted ← decrypt transit password;
     wallet ← JSON_parse_or_throw decrypted;
     mret wallet)
    (fun _ => throw e) w
  = (match open_ciphertext (sw_wallet sw) password w with
     | Some v => Returned v
     | None => Thrown e
     end, w).
Proof.
  unfold open_ciphertext. unfold_M. simpl. rewrite decrypt_run.
  destruct (AES_decrypt _ _ _) as [decrypted|]; [| done].
  by destruct (JSON_parse decrypted).
Qed.

Lemma getStoredWallet_absent (address password : string) (w : world) :
  localStorage w !! wallet_key address = None ->
  getStoredWallet address password w
  = (Thrown (Error "No wallet found for requested address"), w).
Proof.
  intros H. unfold getStoredWallet. unfold mbind at 1, M_bind at 1.
  by rewrite loadFromStorage_absent.
Qed.

Lemma getStoredWallet_stored (address password : string)
    (sw : StoredWallet) (w : world) :
  stored_at (localStorage w) address sw ->
  getStoredWallet address password w
  = (match open_ciphertext (sw_wallet sw) password w with
     | Some v => Returned v
     | None => Thrown (Error "Incorrect password")
     end, w).
Proof.
  intros H. unfold getStoredWallet. unfold mbind at 1, M_bind at 1.
  rewrite (loadFromStorage_stored json_laws address sw w H).
  cbn [truthy stored_json negb]. apply try_open.
Qed.

Lemma testPassword_absent (address password : string) (w : world) :
  localStorage w !! wallet_key address = None ->
  testPassword address password w
  = (Thrown (Error "No wallet found for request address"), w).
Proof.
  intros H. unfold testPassword. unfold mbind at 1, M_bind at 1.
  by rewrite loadFromStorage_absent.
Qed.

Lemma testPassword_stored (address password : string) (sw : StoredWallet)
    (w : world) :
  stored_at (localStorage w) address sw ->
  testPassword address password w
  = (match open_ciphertext (sw_wallet sw) password w with
     | Some _ => Returned tt
     | None => Thrown (Error "Password for wallet is incorrect")
     end, w).
Proof.
  intros H. unfold testPassword. unfold mbind at 1, M_bind at 1.
  rewrite (loadFromStorage_stored json_laws address sw w H).
  cbn [truthy stored_json negb].
  unfold open_ciphertext. unfold_M. simpl. rewrite decrypt_run.
  destruct (AES_decrypt _ _ _) as [decrypted|]; [| done].
  by destruct (JSON_parse decrypted).
Qed.

Lemma removeWallet_absent (address password : string) (w : world) :
  localStorage w !! wallet_key address = None ->
  removeWallet address password w
  = (Thrown (Error "No wallet found for requested address"), w).
Proof.
  intros H. unfold removeWallet. unfold mbind at 1, M_bind at 1.
  by rewrite loadFromStorage_absent.
Qed.

Lemma removeWallet_rejected (address password : string) (sw : StoredWallet)
    (w : world) :
  stored_at (localStorage w) address sw ->
  open_ciphertext (sw_wallet sw) password w = None ->
  removeWallet address password w
  = (Thrown (Error "Password for wallet is incorrect"), w).
Proof.
  intros H Hopen. unfold removeWallet. unfold mbind at 1, M_bind at 1.
  rewrite (loadFromStorage_stored json_laws address sw w H).
  cbn [truthy stored_json negb]. unfold mbind, M_bind.
  by rewrite (testPassword_stored address password sw w H), Hopen.
Qed.

Lemma removeWallet_accepted (address password : string) (sw : StoredWallet)
    (idx : list IndexEntry) (v : json) (w : world) :
  stored_at (localStorage w) address sw ->
  open_ciphertext (sw_wallet sw) password w = Some v ->
  index_is (localStorage w) idx ->
  removeWallet address password w
  = (Returned tt,
     with_storage
       (fun ls =>
          delete (wallet_key address)
            (<[index_key :=
                 JSON_stringify
                   (index_json
                      (filter (fun e => ie_address e <> address) idx))]> ls))
       w).
Proof.
  intros H Hopen Hidx. unfold removeWallet. unfold mbind at 1, M_bind at 1.
  rewrite (loadFromStorage_stored json_laws address sw w H).
  cbn [truthy stored_json negb]. unfold mbind at 1, M_bind at 1.
  rewrite (testPassword_stored address password sw w H), Hopen.
  unfold removeFromStorage. unfold mbind at 1, M_bind at 1.
  rewrite (removeFromIndex_run json_laws address idx w Hidx).
  reflexivity.
Qed.

Lemma storeWallet_duplicate (wallet : Wallet) (name password : string)
    (sw : StoredWallet) (w : world) :
  stored_at (localStorage w) (cosmosAddress wallet) sw ->
  storeWallet wallet name password w
  = (Thrown
       (Error "The wallet was already stored. Can't store the same wallet again."),
     w).
Proof.
  intros H. unfold storeWallet. unfold mbind at 1, M_bind at 1.
  by rewrite (loadFromStorage_stored json_laws _ sw w H).
Qed.

Lemma storeWallet_name_taken (wallet : Wallet) (name password : string)
    (idx : list IndexEntry) (w : world) :
  localStorage w !! wallet_key (cosmosAddress wallet) = None ->
  index_is (localStorage w) idx ->
  name ∈ map ie_name idx ->
  storeWallet wallet name password w
  = (Thrown (Error "Key with that name already exists"),
     mkWorld (localStorage w) (random_source w) (random_used w + 16 + 16)).
Proof.
  intros H Hidx Hname. unfold storeWallet. unfold mbind at 1, M_bind at 1.
  rewrite loadFromStorage_absent by done. cbn [truthy].
  unfold mbind at 1, M_bind at 1. rewrite encrypt_run. cbv zeta.
  unfold addToStorage. unfold mbind at 1, M_bind at 1.
  by rewrite (addToIndex_taken json_laws name _ idx).
Qed.

Lemma storeWallet_fresh (wallet : Wallet) (name password : string)
    (idx : list IndexEntry) (w w1 : world) (ciphertext : string) :
  localStorage w !! wallet_key (cosmosAddress wallet) = None ->
  index_is (localStorage w) idx ->
  name ∉ map ie_name idx ->
  encrypt (JSON_stringify (wallet_json wallet)) password w
  = (Returned ciphertext, w1) ->
  storeWallet wallet name password w
  = (Returned tt,
     with_storage
       (fun ls =>
          <[wallet_key (cosmosAddress wallet) :=
              JSON_stringify
                (stored_json
                   (mkStoredWallet name (cosmosAddress wallet) ciphertext))]>
            (<[index_key :=
                 JSON_stringify
                   (index_json
                      (idx ++ [mkIndexEntry name (cosmosAddress wallet)]))]>
               ls))
       w1).
Proof.
  intros H Hidx Hname Henc. unfold storeWallet.
  unfold mbind at 1, M_bind at 1.
  rewrite loadFromStorage_absent by done. cbn [truthy].
  unfold mbind at 1, M_bind at 1. rewrite Henc.
  assert (Hls : localStorage w1 = localStorage w).
  { rewrite encrypt_run in Henc. cbv zeta in Henc. by injection Henc as _ <-. }
  unfold addToStorage. unfold mbind at 1, M_bind at 1.
  rewrite (addToIndex_fresh json_laws name _ idx) by (rewrite ?Hls; done).
  reflexivity.
Qed.

(** A successful [storeWallet] ends by writing the wallet entry. *)
Lemma storeWallet_returned (wallet : Wallet) (name password : string)
    (w w' : world) :
  storeWallet wallet name password w = (Returned tt, w') ->
  exists ciphertext w1,
    encrypt (JSON_stringify (wallet_json wallet)) password w
    = (Returned ciphertext, w1)
    /\ stored_at (localStorage w') (cosmosAddress wallet)
         (mkStoredWallet name (cosmosAddress wallet) ciphertext).
Proof.
  unfold storeWallet. unfold mbind at 1, M_bind at 1.
  pose proof (loadFromStorage_world (cosmosAddress wallet) w) as Hw.
  destruct (loadFromStorage (cosmosAddress wallet) w) as [[v|e] w0];
    simpl in Hw; subst w0; [| discriminate].
  destruct (truthy v); [discriminate |].
  unfold mbind at 1, M_bind at 1. rewrite encrypt_run. cbv zeta.
  unfold addToStorage. unfold mbind at 1, M_bind at 1.
  destruct (addToIndex _ _ _) as [[[]|e] w2]; [| discriminate].
  unfold_M. intros [= <-]. do 2 eexists. split; [reflexivity |].
  unfold stored_at, with_storage. simpl. apply lookup_insert_eq.
Qed.

End OperationFacts.

(** ** The reference runtime has the laws *)

Module ReferenceFacts.

Import Reference.

Lemma parse_hex_stringify (bytes : list byte) :
  parse_hex (Hex_stringify bytes) = bytes.
Proof.
  induction bytes as [|b bytes IH]; [done |].
  cbn [Hex_stringify parse_hex]. rewrite IH. f_equal. by destruct b.
Qed.

Lemma digest_length (message : list byte) :
  length (SHA256.digest message) = 32.
Proof. unfold SHA256.digest. cbv zeta. by rewrite !length_app. Qed.

Lemma byte_of_to_N (b : byte) : byte_of_N (Byte.to_N b) = b.
Proof. unfold byte_of_N. by rewrite Byte.of_to_N. Qed.

Lemma to_N_byte_of_N (n : N) : (n < 256)%N -> Byte.to_N (byte_of_N n) = n.
Proof.
  intros Hn. unfold byte_of_N. destruct (Byte.of_N n) as [b|] eqn:E.
  - by apply Byte.to_of_N.
  - apply Byte.of_N_None_iff in E. lia.
Qed.

Lemma lxor_byte (a b : N) : (a < 256 -> b < 256 -> N.lxor a b < 256)%N.
Proof.
  intros Ha Hb. destruct (N.eq_dec (N.lxor a b) 0%N) as [->|Hne]; [lia |].
  change 256%N with (2 ^ 8)%N in *. apply N.log2_lt_pow2; [lia |].
  pose proof (N.log2_lxor a b) as Hlog.
  assert (N.log2 a < 8)%N.
  { destruct (N.eq_dec a 0%N) as [->|]; [done | apply N.log2_lt_pow2; lia]. }
  assert (N.log2 b < 8)%N.
  { destruct (N.eq_dec b 0%N) as [->|]; [done | apply N.log2_lt_pow2; lia]. }
  lia.
Qed.

Lemma to_N_lt (b : byte) : (Byte.to_N b < 256)%N.
Proof. pose proof (Byte.to_N_bounded b). lia. Qed.

Lemma byte_xor_involutive (b k : byte) : byte_xor (byte_xor b k) k = b.
Proof.
  unfold byte_xor.
  rewrite to_N_byte_of_N by (apply lxor_byte; apply to_N_lt).
  rewrite N.lxor_assoc, N.lxor_nilpotent, N.lxor_0_r. apply byte_of_to_N.
Qed.

Lemma xor_stream_involutive (stream : nat -> byte) (i : nat) (bytes : list byte) :
  xor_stream stream i (xor_stream stream i bytes) = bytes.
Proof.
  revert i. induction bytes as [|b bytes IH]; intros i; simpl; [done |].
  by rewrite byte_xor_involutive, IH.
Qed.

Lemma Utf8_stringify_parse (s : string) : Utf8_stringify (Utf8_parse s) = Some s.
Proof.
  induction s as [|c s IH]; [done |].
  cbn [Utf8_parse]. cbv zeta.
  pose proof (N_ascii_bounded c) as Hc.
  pose proof (ascii_N_embedding c) as Hback.
  set (n := N_of_ascii c) in *. clearbody n.
  destruct (N.ltb_spec n 128) as [Hlow|Hhigh].
  - cbn [Utf8_stringify]. cbv zeta. rewrite to_N_byte_of_N by lia.
    destruct (N.ltb_spec n 128); [| lia]. by rewrite IH, Hback.
  - assert (Hdiv : n = (64 * (n / 64) + n mod 64)%N) by (apply N.div_mod; lia).
    assert (Hmod : (n mod 64 < 64)%N) by (apply N.mod_lt; lia).
    assert (Hq : (n / 64 < 4)%N) by (apply N.Div0.div_lt_upper_bound; lia).
    assert (Hq' : (2 <= n / 64)%N) by (apply N.div_le_lower_bound; lia).
    set (q := (n / 64)%N) in *. set (r := (n mod 64)%N) in *. clearbody q r.
    cbn [Utf8_stringify]. cbv zeta.
    rewrite !to_N_byte_of_N by lia.
    destruct (N.ltb_spec (192 + q) 128); [lia |].
    destruct (N.leb_spec 194 (192 + q)); [| lia].
    destruct (N.ltb_spec (192 + q) 196); [| lia].
    destruct (N.leb_spec 128 (128 + r)); [| lia].
    destruct (N.ltb_spec (128 + r) 192); [| lia].
    cbn [andb]. rewrite IH.
    replace ((192 + q - 192) * 64 + (128 + r - 128))%N with n by lia.
    by rewrite Hback.
Qed.

Lemma cipher_decrypt_encrypt (message : string) (key iv : list byte) :
  cipher_decrypt (cipher_encrypt message key iv) key iv = Some message.
Proof.
  unfold cipher_decrypt, cipher_encrypt.
  by rewrite xor_stream_involutive, Utf8_stringify_parse.
Qed.

Lemma key_laws : KeyLaws runtime.
Proof.
  split.
  - apply parse_hex_stringify.
  - intros message. change (hasher message) with (SHA256.digest message).
    rewrite digest_length. lia.
Qed.

Lemma cipher_laws : CipherLaws runtime.
Proof. split. intros message key iv _ _. apply cipher_decrypt_encrypt. Qed.

Lemma crypto_laws : CryptoLaws runtime.
Proof. split; [apply key_laws | apply cipher_laws]. Qed.

Lemma parse_chars_escape_char (c : ascii) (tail : string) :
  parse_chars Plain (escape_char c +:+ tail) = prepend c (parse_chars Plain tail).
Proof. destruct c as [[] [] [] [] [] [] [] []]; reflexivity. Qed.

Lemma parse_chars_escape (s rest : string) :
  parse_chars Plain (escape s +:+ String quote rest) = Some (s, rest).
Proof.
  induction s as [|c s IH]; [reflexivity |].
  cbn [escape]. by rewrite string_app_assoc, parse_chars_escape_char, IH.
Qed.

Lemma print_string_app (s rest : string) :
  print_string s +:+ rest = String quote (escape s +:+ String quote rest).
Proof. unfold print_string. cbn [String.append]. by rewrite string_app_assoc. Qed.

Lemma parse_string_value (n : nat) (s rest : string) :
  parse_value (S n) (print_string s +:+ rest) = Some (JStr s, rest).
Proof.
  rewrite print_string_app. cbn [parse_value]. unfold quote at 1.
  cbv beta iota. by rewrite Ascii.eqb_refl, parse_chars_escape.
Qed.

Lemma print_member_text (k v tail : string) :
  print_member stringify (k, JStr v) +:+ tail
  = print_string k +:+ String ":" (print_string v +:+ tail).
Proof.
  unfold print_member. cbn [fst snd stringify].
  by rewrite !string_app_assoc.
Qed.

Lemma join_more (p q : string) (parts : list string) :
  join (p :: q :: parts) = p +:+ String "," (join (q :: parts)).
Proof. reflexivity. Qed.

Lemma parse_members_last (m : nat) (k v rest : string) :
  0 < m ->
  parse_members (S m)
    (print_member stringify (k, JStr v) +:+ String "}" rest)
  = Some ([(k, JStr v)], rest).
Proof.
  intros Hm. rewrite print_member_text, print_string_app.
  cbn [parse_members]. rewrite Ascii.eqb_refl, parse_chars_escape.
  destruct m as [|m]; [lia |]. by rewrite parse_string_value.
Qed.

Lemma parse_members_more (m : nat) (k v tail : string) :
  0 < m ->
  parse_members (S m)
    (print_member stringify (k, JStr v) +:+ String "," tail)
  = match parse_members m tail with
    | Some (fields, rest) => Some ((k, JStr v) :: fields, rest)
    | None => None
    end.
Proof.
  intros Hm. rewrite print_member_text, print_string_app.
  cbn [parse_members]. rewrite Ascii.eqb_refl, parse_chars_escape.
  destruct m as [|m]; [lia |]. by rewrite parse_string_value.
Qed.

Lemma parse_text_members (kvs : list (string * string)) (n : nat) (rest : string) :
  kvs <> [] -> length kvs < n ->
  parse_members n
    (join (map (print_member stringify) (text_fields kvs)) +:+ String "}" rest)
  = Some (text_fields kvs, rest).
Proof.
  revert n. induction kvs as [|[k v] kvs IH]; intros n Hne Hn; [done |].
  destruct n as [|n]; [lia |].
  destruct kvs as [|kv kvs].
  - apply parse_members_last. simpl in Hn. lia.
  - change (text_fields ((k, v) :: kv :: kvs))
      with ((k, JStr v) :: text_fields (kv :: kvs)).
    change (map (print_member stringify) ((k, JStr v) :: text_fields (kv :: kvs)))
      with (print_member stringify (k, JStr v)
              :: print_member stringify (fst kv, JStr (snd kv))
              :: map (print_member stringify) (text_fields kvs)).
    rewrite join_more, string_app_assoc.
    change (String "," ?a +:+ ?b) with (String "," (a +:+ b)).
    rewrite parse_members_more by (simpl in Hn; lia).
    change (print_member stringify (fst kv, JStr (snd kv))
              :: map (print_member stringify) (text_fields kvs))
      with (map (print_member stringify) (text_fields (kv :: kvs))).
    rewrite IH; [done | done | simpl in *; lia].
Qed.

Lemma parse_object (fields : list (string * json)) (n : nat) (k v : string)
    (tail : string) :
  parse_value (S n) (String "{" (print_member stringify (k, JStr v) +:+ tail))
  = match parse_members n (print_member stringify (k, JStr v) +:+ tail) with
    | Some (fields, rest) => Some (JObj fields, rest)
    | None => None
    end.
Proof.
  rewrite print_member_text, print_string_app. reflexivity.
Qed.

Lemma parse_text_object (kvs : list (string * string)) (n : nat) (rest : string) :
  kvs <> [] -> length kvs < n ->
  parse_value (S n) (stringify (JObj (text_fields kvs)) +:+ rest)
  = Some (JObj (text_fields kvs), rest).
Proof.
  intros Hne Hn.
  pose proof (parse_text_members kvs n rest Hne Hn) as Hm.
  change (stringify (JObj (text_fields kvs)))
    with ("{" +:+ join (map (print_member stringify) (text_fields kvs)) +:+ "}").
  rewrite !string_app_assoc.
  change ("{" +:+ ?a) with (String "{" a).
  change ("}" +:+ rest) with (String "}" rest).
  destruct kvs as [|[k v] kvs]; [done |].
  destruct kvs as [|kv kvs].
  - change (join _) with (print_member stringify (k, JStr v)) in *.
    by rewrite (parse_object [] n), Hm.
  - change (text_fields ((k, v) :: kv :: kvs))
      with ((k, JStr v) :: text_fields (kv :: kvs)) in *.
    change (map (print_member stringify) ((k, JStr v) :: text_fields (kv :: kvs)))
      with (print_member stringify (k, JStr v)
              :: print_member stringify (fst kv, JStr (snd kv))
              :: map (print_member stringify) (text_fields kvs)) in *.
    rewrite join_more, string_app_assoc in *.
    by rewrite (parse_object [] n), Hm.
Qed.

Lemma wallet_json_text (w : Wallet) :
  wallet_json w
  = JObj (text_fields [("cosmosAddress", cosmosAddress w);
                       ("privateKey", privateKey w);
                       ("publicKey", publicKey w)]).
Proof. reflexivity. Qed.

Lemma stored_json_text (sw : StoredWallet) :
  stored_json sw
  = JObj (text_fields [("name", sw_name sw); ("address", sw_address sw);
                       ("wallet", sw_wallet sw)]).
Proof. reflexivity. Qed.

Lemma entry_json_text (e : IndexEntry) :
  entry_json e
  = JObj (text_fields [("name", ie_name e); ("address", ie_address e)]).
Proof. reflexivity. Qed.

Lemma parse_elements_last (m : nat) (e : IndexEntry) (rest : string) :
  3 < m ->
  parse_elements (S m) (stringify (entry_json e) +:+ String "]" rest)
  = Some ([entry_json e], rest).
Proof.
  intros Hm. cbn [parse_elements]. destruct m as [|m]; [lia |].
  rewrite entry_json_text, parse_text_object; [done | done | simpl; lia].
Qed.

Lemma parse_elements_more (m : nat) (e : IndexEntry) (tail : string) :
  3 < m ->
  parse_elements (S m) (stringify (entry_json e) +:+ String "," tail)
  = match parse_elements m tail with
    | Some (elements, rest) => Some (entry_json e :: elements, rest)
    | None => None
    end.
Proof.
  intros Hm. cbn [parse_elements]. destruct m as [|m']; [lia |].
  rewrite entry_json_text, parse_text_object; [done | done | simpl; lia].
Qed.

Lemma parse_entries (idx : list IndexEntry) (n : nat) (rest : string) :
  idx <> [] -> length idx + 3 < n ->
  parse_elements n
    (join (map stringify (map entry_json idx)) +:+ String "]" rest)
  = Some (map entry_json idx, rest).
Proof.
  revert n. induction idx as [|e idx IH]; intros n Hne Hn; [done |].
  destruct n as [|n]; [lia |].
  destruct idx as [|e' idx].
  - apply parse_elements_last. simpl in Hn. lia.
  - change (map stringify (map entry_json (e :: e' :: idx)))
      with (stringify (entry_json e) :: stringify (entry_json e')
              :: map stringify (map entry_json idx)).
    rewrite join_more, string_app_assoc.
    change (String "," ?a +:+ ?b) with (String "," (a +:+ b)).
    rewrite parse_elements_more by (simpl in Hn; lia).
    change (stringify (entry_json e') :: map stringify (map entry_json idx))
      with (map stringify (map entry_json (e' :: idx))).
    rewrite IH; [done | done | simpl in *; lia].
Qed.

Lemma entry_length (e : IndexEntry) :
  5 <= String.length (stringify (entry_json e)).
Proof. unfold entry_json. simpl. lia. Qed.

Lemma entries_length (idx : list IndexEntry) :
  5 * length idx <= String.length (join (map stringify (map entry_json idx))).
Proof.
  induction idx as [|e [|e' idx] IH]; [simpl; lia | |].
  - pose proof (entry_length e). change (join _) with (stringify (entry_json e)).
    simpl length. lia.
  - change (map stringify (map entry_json (e :: e' :: idx)))
      with (stringify (entry_json e) :: stringify (entry_json e')
              :: map stringify (map entry_json idx)).
    rewrite join_more, string_app_length.
    change (stringify (entry_json e') :: map stringify (map entry_json idx))
      with (map stringify (map entry_json (e' :: idx))).
    pose proof (entry_length e). cbn [String.length]. simpl length in *. lia.
Qed.

Lemma parse_stringify_wallet (w : Wallet) :
  parse (stringify (wallet_json w)) = Some (wallet_json w).
Proof.
  unfold parse.
  assert (Hlen : exists n, String.length (stringify (wallet_json w)) = S n /\ 3 < n).
  { unfold wallet_json. simpl. eexists. split; [reflexivity | lia]. }
  destruct Hlen as (n & -> & Hn).
  pose proof (parse_text_object
                [("cosmosAddress", cosmosAddress w);
                 ("privateKey", privateKey w); ("publicKey", publicKey w)]
                n "") as H.
  rewrite <- wallet_json_text in H.
  rewrite string_app_empty in H. rewrite H; [done | done | simpl; lia].
Qed.


Lemma parse_stringify_stored (sw : StoredWallet) :
  parse (stringify (stored_json sw)) = Some (stored_json sw).
Proof.
  unfold parse.
  assert (Hlen : exists n, String.length (stringify (stored_json sw)) = S n /\ 3 < n).
  { unfold stored_json. simpl. eexists. split; [reflexivity | lia]. }
  destruct Hlen as (n & -> & Hn).
  pose proof (parse_text_object
                [("name", sw_name sw); ("address", sw_address sw);
                 ("wallet", sw_wallet sw)] n "") as H.
  rewrite <- stored_json_text, string_app_empty in H.
  rewrite H; [done | done | simpl; lia].
Qed.

Lemma parse_array_open (n : nat) (tail : string) :
  parse_value (S n) (String "[" (String "{" tail))
  = match parse_elements n (String "{" tail) with
    | Some (elements, rest) => Some (JArr elements, rest)
    | None => None
    end.
Proof. reflexivity. Qed.

Lemma entries_open (idx : list IndexEntry) :
  idx <> [] ->
  exists tail, join (map stringify (map entry_json idx)) = String "{" tail.
Proof.
  destruct idx as [|e [|e' idx]]; [done | |]; intros _.
  - change (join _) with (stringify (entry_json e)). unfold entry_json.
    simpl. by eexists.
  - change (map stringify (map entry_json (e :: e' :: idx)))
      with (stringify (entry_json e) :: stringify (entry_json e')
              :: map stringify (map entry_json idx)).
    rewrite join_more. unfold entry_json at 1. simpl. by eexists.
Qed.

Lemma parse_stringify_index (idx : list IndexEntry) :
  parse (stringify (index_json idx)) = Some (index_json idx).
Proof.
  destruct idx as [|e idx]; [reflexivity |].
  unfold parse, index_json.
  pose proof (entries_length (e :: idx)) as Hlen.
  destruct (entries_open (e :: idx)) as [tail Hbody]; [done |].
  set (body := join (map stringify (map entry_json (e :: idx)))) in *.
  assert (Htext : stringify (JArr (map entry_json (e :: idx)))
                  = String "[" (body +:+ String "]" "")).
  { reflexivity. }
  rewrite Htext. cbn [String.length].
  remember (String.length (body +:+ String "]" "")) as m eqn:Hm.
  assert (Hfuel : length (e :: idx) + 3 < m).
  { subst m. rewrite string_app_length. simpl in *. lia. }
  pose proof (parse_entries (e :: idx) m "") as Hparse.
  fold body in Hparse. clearbody body. subst body.
  cbn [String.append] in *.
  rewrite parse_array_open, Hparse; done.
Qed.

Lemma json_laws : JSONLaws runtime.
Proof.
  split.
  - intros v [w|sw|idx].
    + apply parse_stringify_wallet.
    + apply parse_stringify_stored.
    + apply parse_stringify_index.
  - reflexivity.
  - reflexivity.
Qed.

End ReferenceFacts.

(** ** The library runtime *)

Module CryptoJSFacts.

Lemma SHA1_length (message : list byte) : length (SHA1.digest message) = 20.
Proof. unfold SHA1.digest. cbv zeta. by rewrite !length_app. Qed.

Lemma library_key_laws : KeyLaws CryptoJS.runtime.
Proof.
  split.
  - apply ReferenceFacts.parse_hex_stringify.
  - intros message. change (hasher message) with (SHA1.digest message).
    rewrite SHA1_length. lia.
Qed.

(** The block cipher on the test vector of FIPS 197, C.3. *)
Lemma block_vector :
  let key :=
    map Z_of_byte
      (Reference.parse_hex
         "000102030405060708090a0b0c0d0e0f101112131415161718191a1b1c1d1e1f") in
  let plain := map Z_of_byte (Reference.parse_hex "00112233445566778899aabbccddeeff") in
  let cipher := map Z_of_byte (Reference.parse_hex "8ea2b7ca516745bfeafc49904b496089") in
  AES.encrypt_block (AES.key_schedule key) plain = cipher
  /\ AES.decrypt_block (AES.key_schedule key) cipher = plain.
Proof. vm_compute. split; reflexivity. Qed.

(** SHA-1 on the message [abc]. *)
Lemma digest_vector :
  Hex_stringify (SHA1.digest (Utf8_parse "abc"))
  = "a9993e364706816aba3e25717850c26c9cd0d89d".
Proof. vm_compute. reflexivity. Qed.

End CryptoJSFacts.

(** ** The store invariant *)

Lemma elem_of_map_filter {A B : Type} (f : A -> B) (P : A -> Prop)
    `{forall x, Decision (P x)} (l : list A) (y : B) :
  y ∈ map f (filter P l) -> y ∈ map f l.
Proof.
  induction l as [|x l IH]; [done |]. rewrite filter_cons.
  destruct (decide (P x)); simpl; rewrite !elem_of_cons; intuition.
Qed.

Lemma NoDup_map_filter {A B : Type} (f : A -> B) (P : A -> Prop)
    `{forall x, Decision (P x)} (l : list A) :
  NoDup (map f l) -> NoDup (map f (filter P l)).
Proof.
  induction l as [|x l IH]; [done |]. simpl. rewrite NoDup_cons.
  intros [Hx Hl]. rewrite filter_cons. destruct (decide (P x)); simpl; auto.
  apply NoDup_cons. split; auto. intros Hin. apply Hx.
  by apply elem_of_map_filter in Hin.
Qed.

Lemma elem_of_map_1 {A B : Type} (f : A -> B) (l : list A) (x : A) :
  x ∈ l -> f x ∈ map f l.
Proof.
  induction l as [|y l IH]; simpl; rewrite ?elem_of_cons.
  - by intros ?%not_elem_of_nil.
  - intros [->|Hin]; [by left | right; auto].
Qed.

Lemma occurrences_absent (a : string) (idx : list IndexEntry) :
  a ∉ map ie_address idx -> occurrences a idx = 0.
Proof.
  unfold occurrences. induction idx as [|e idx IH]; [done |]. simpl.
  rewrite not_elem_of_cons. intros [Hne Hnot]. rewrite filter_cons.
  destruct (decide (ie_address e = a)); [congruence | auto].
Qed.

Lemma occurrences_once (a : string) (idx : list IndexEntry) :
  NoDup (map ie_address idx) -> a ∈ map ie_address idx ->
  occurrences a idx = 1.
Proof.
  unfold occurrences. induction idx as [|e idx IH]; simpl.
  - by intros _ ?%not_elem_of_nil.
  - rewrite NoDup_cons, elem_of_cons. intros [Hnot Hnodup] Hin.
    rewrite filter_cons. destruct (decide (ie_address e = a)) as [Heq|Hne].
    + simpl. f_equal. apply (occurrences_absent a idx). by rewrite <- Heq.
    + destruct Hin as [->|Hin]; [done | auto].
Qed.

Lemma stored_json_inj (sw sw' : StoredWallet) :
  stored_json sw = stored_json sw' -> sw = sw'.
Proof. destruct sw, sw'. unfold stored_json. simpl. congruence. Qed.

Section InvariantFacts.

Context {rt : Runtime}.
Hypothesis json_laws : JSONLaws rt.

Lemma consistent_empty : consistent ∅.
Proof.
  exists []. unfold index_is. rewrite lookup_empty.
  repeat split; try constructor; try apply not_elem_of_nil.
  intros a _. rewrite lookup_empty. apply not_elem_of_nil.
Qed.

(** The index key holds an index, never a StoredWallet. *)
Lemma stored_at_not_index (ls : gmap string string) (idx : list IndexEntry)
    (a : string) (sw : StoredWallet) :
  index_is ls idx -> stored_at ls a sw -> a <> "index".
Proof.
  unfold index_is, stored_at. intros Hidx Hsw ->.
  change (wallet_key "index") with index_key in Hsw. rewrite Hsw in Hidx.
  apply (JSON_stringify_inj json_laws) in Hidx; [discriminate | constructor..].
Qed.

Lemma consistent_stored (ls : gmap string string) (idx : list IndexEntry)
    (a : string) (sw : StoredWallet) :
  index_is ls idx ->
  (forall b, b <> "index" ->
     match ls !! wallet_key b with
     | None => b ∉ map ie_address idx
     | Some text =>
         exists n c,
           text = JSON_stringify (stored_json (mkStoredWallet n b c))
           /\ mkIndexEntry n b ∈ idx
     end) ->
  stored_at ls a sw ->
  sw_address sw = a /\ a ∈ map ie_address idx.
Proof.
  intros Hidx Hall Hsw.
  pose proof (stored_at_not_index ls idx a sw Hidx Hsw) as Hne.
  specialize (Hall a Hne). unfold stored_at in Hsw. rewrite Hsw in Hall.
  destruct Hall as (n & c & Heq & Hin).
  apply (JSON_stringify_inj json_laws) in Heq; [| constructor..].
  apply stored_json_inj in Heq. subst sw. split; [done |].
  by apply (elem_of_map_1 ie_address) in Hin.
Qed.

(** What the operations maintain implies the invariant of the data model. *)
Lemma consistent_invariant (ls : gmap string string) :
  consistent ls -> store_invariant ls.
Proof.
  intros (idx & Hidx & Hnames & Haddrs & Hindex & Hall).
  exists idx. repeat split; [done | done | |].
  - intros a sw Hsw.
    destruct (consistent_stored ls idx a sw Hidx Hall Hsw) as [-> Hin].
    by apply occurrences_once.
  - intros a1 a2 sw1 sw2 H1 H2 Heq.
    destruct (consistent_stored ls idx a1 sw1 Hidx Hall H1) as [<- _].
    destruct (consistent_stored ls idx a2 sw2 Hidx Hall H2) as [<- _].
    done.
Qed.

End InvariantFacts.

(** ** Every operation keeps the store consistent *)

Section StepFacts.

Context {rt : Runtime}.
Hypothesis json_laws : JSONLaws rt.

(** [getStoredWallet] and [testPassword] write nothing, whatever the store
    holds and however they end. *)
Lemma getStoredWallet_world (address password : string) (w : world) :
  snd (getStoredWallet address password w) = w.
Proof.
  unfold getStoredWallet. unfold mbind at 1, M_bind at 1.
  pose proof (loadFromStorage_world address w) as Hw.
  destruct (loadFromStorage address w) as [[v|e] w0]; simpl in Hw; subst w0;
    [| done].
  destruct (truthy v); [| done]. cbn [negb]. unfold_M.
  destruct (js_get v "wallet") as [[]|]; unfold_M; simpl; try done.
  rewrite decrypt_run. destruct (AES_decrypt _ _ _) as [decrypted|]; [| done].
  by destruct (JSON_parse decrypted).
Qed.

Lemma testPassword_world (address password : string) (w : world) :
  snd (testPassword address password w) = w.
Proof.
  unfold testPassword. unfold mbind at 1, M_bind at 1.
  pose proof (loadFromStorage_world address w) as Hw.
  destruct (loadFromStorage address w) as [[v|e] w0]; simpl in Hw; subst w0;
    [| done].
  destruct (truthy v); [| done]. cbn [negb]. unfold_M.
  destruct (js_get v "wallet") as [[]|]; unfold_M; simpl; try done.
  rewrite decrypt_run. destruct (AES_decrypt _ _ _) as [decrypted|]; [| done].
  by destruct (JSON_parse decrypted).
Qed.

Lemma index_key_not_wallet (a : string) : a <> "index" -> wallet_key a <> index_key.
Proof. intros Hne Heq. by apply wallet_key_index in Heq. Qed.

Lemma consistent_remove (ls : gmap string string) (idx : list IndexEntry)
    (a : string) :
  a <> "index" ->
  index_is ls idx ->
  NoDup (map ie_name idx) -> NoDup (map ie_address idx) ->
  "index" ∉ map ie_address idx ->
  (forall b, b <> "index" ->
     match ls !! wallet_key b with
     | None => b ∉ map ie_address idx
     | Some text =>
         exists n c,
           text = JSON_stringify (stored_json (mkStoredWallet n b c))
           /\ mkIndexEntry n b ∈ idx
     end) ->
  consistent
    (delete (wallet_key a)
       (<[index_key :=
            JSON_stringify
              (index_json (filter (fun e => ie_address e <> a) idx))]> ls)).
Proof.
  intros Ha Hidx Hnames Haddrs Hindex Hall.
  exists (filter (fun e => ie_address e <> a) idx). repeat split.
  - unfold index_is.
    rewrite lookup_delete_ne by (by apply index_key_not_wallet).
    by rewrite lookup_insert_eq.
  - by apply NoDup_map_filter.
  - by apply NoDup_map_filter.
  - intros Hin. by apply elem_of_map_filter in Hin.
  - intros b Hb. destruct (decide (b = a)) as [->|Hne].
    + rewrite lookup_delete_eq. clear. induction idx as [|e idx IH]; [apply not_elem_of_nil |].
      rewrite filter_cons. destruct (decide (ie_address e <> a)); [| done].
      simpl. rewrite not_elem_of_cons. split; [congruence | done].
    + rewrite lookup_delete_ne by (intros H; by apply wallet_key_inj in H).
      rewrite lookup_insert_ne by (apply not_eq_sym; by apply index_key_not_wallet).
      specialize (Hall b Hb). destruct (ls !! wallet_key b) as [text|].
      * destruct Hall as (n & c & Htext & Hin). exists n, c. split; [done |].
        apply list_elem_of_filter. by split.
      * intros Hin. by apply elem_of_map_filter in Hin.
Qed.

Lemma consistent_store (ls : gmap string string) (idx : list IndexEntry)
    (a name ciphertext : string) :
  a <> "index" ->
  ls !! wallet_key a = None ->
  name ∉ map ie_name idx ->
  index_is ls idx ->
  NoDup (map ie_name idx) -> NoDup (map ie_address idx) ->
  "index" ∉ map ie_address idx ->
  (forall b, b <> "index" ->
     match ls !! wallet_key b with
     | None => b ∉ map ie_address idx
     | Some text =>
         exists n c,
           text = JSON_stringify (stored_json (mkStoredWallet n b c))
           /\ mkIndexEntry n b ∈ idx
     end) ->
  consistent
    (<[wallet_key a :=
         JSON_stringify (stored_json (mkStoredWallet name a ciphertext))]>
       (<[index_key :=
            JSON_stringify (index_json (idx ++ [mkIndexEntry name a])%list)]> ls)).
Proof.
  intros Ha Hnone Hname Hidx Hnames Haddrs Hindex Hall.
  assert (Hfresh : a ∉ map ie_address idx).
  { specialize (Hall a Ha). by rewrite Hnone in Hall. }
  exists (idx ++ [mkIndexEntry name a])%list. rewrite !map_app. simpl. repeat split.
  - unfold index_is.
    rewrite lookup_insert_ne by (by apply index_key_not_wallet).
    by rewrite lookup_insert_eq.
  - apply NoDup_app. repeat split; [done | | apply NoDup_singleton].
    intros x Hx ->%list_elem_of_singleton. done.
  - apply NoDup_app. repeat split; [done | | apply NoDup_singleton].
    intros x Hx ->%list_elem_of_singleton. done.
  - rewrite elem_of_app, list_elem_of_singleton. intros [H|H]; [done | congruence].
  - intros b Hb. destruct (decide (b = a)) as [->|Hne].
    + rewrite lookup_insert_eq. exists name, ciphertext. split; [done |].
      apply elem_of_app. right. by apply list_elem_of_singleton.
    + rewrite lookup_insert_ne by (intros H; by apply wallet_key_inj in H).
      rewrite lookup_insert_ne by (apply not_eq_sym; by apply index_key_not_wallet).
      specialize (Hall b Hb). destruct (ls !! wallet_key b) as [text|].
      * destruct Hall as (n & c & Htext & Hin). exists n, c. split; [done |].
        apply elem_of_app. by left.
      * rewrite elem_of_app, list_elem_of_singleton. intros [H|H]; [done | congruence].
Qed.

(** One operation on an address other than [index]. *)
Lemma consistent_step (o : operation) (w : world) :
  operation_address o <> "index" ->
  consistent (localStorage w) ->
  consistent (localStorage (world_after o w)).
Proof.
  intros Ha Hcons.
  destruct o as [wallet name password|a password|a password|a password];
    cbn [operation_address world_after] in *.
  - destruct Hcons as (idx & Hidx & Hnames & Haddrs & Hindex & Hall).
    pose proof (Hall (cosmosAddress wallet) Ha) as Hentry.
    destruct (localStorage w !! wallet_key (cosmosAddress wallet))
      as [text|] eqn:Hlookup.
    + destruct Hentry as (n & c & -> & Hin).
      rewrite (storeWallet_duplicate json_laws wallet name password _ w Hlookup).
      by exists idx.
    + destruct (decide (name ∈ map ie_name idx)) as [Hin|Hnot].
      * rewrite (storeWallet_name_taken json_laws wallet name password idx w)
          by done.
        by exists idx.
      * rewrite (storeWallet_fresh json_laws wallet name password idx w _ _
                   Hlookup Hidx Hnot (encrypt_run _ _ w)).
        cbn [snd with_storage localStorage]. by apply consistent_store.
  - destruct Hcons as (idx & Hidx & Hnames & Haddrs & Hindex & Hall).
    pose proof (Hall a Ha) as Hentry.
    destruct (localStorage w !! wallet_key a) as [text|] eqn:Hlookup.
    + destruct Hentry as (n & c & -> & Hin).
      destruct (open_ciphertext c password w) as [v|] eqn:Hopen.
      * rewrite (removeWallet_accepted json_laws a password _ idx v w Hlookup
                   Hopen Hidx).
        cbn [snd with_storage localStorage]. by apply consistent_remove.
      * rewrite (removeWallet_rejected json_laws a password _ w Hlookup Hopen).
        by exists idx.
    + rewrite (removeWallet_absent a password w Hlookup).
      by exists idx.
  - by rewrite getStoredWallet_world.
  - by rewrite testPassword_world.
Qed.

Lemma reachable_consistent (w : world) :
  reachable w -> consistent (localStorage w).
Proof.
  induction 1 as [w Hempty|w o _ IH Ha].
  - rewrite Hempty. apply consistent_empty.
  - by apply consistent_step.
Qed.

End StepFacts.

(** ** The claims about the keystore *)

(** C10. On a store in which the index key is absent [getWalletIndex]
    returns the empty sequence instead of failing, and on no store does it
    write anything, however it ends. *)
Theorem getWalletIndex_absent (rt : Runtime) :
  JSON_parse "[]" = Some (JArr []) ->
  (forall w : world,
     localStorage w !! index_key = None ->
     getWalletIndex w = (Returned (JArr []), w))
  /\ (forall w : world, snd (getWalletIndex w) = w).
Proof.
  intros Hbrackets. split.
  - intros w Habsent. unfold getWalletIndex. unfold_M. fold index_key.
    rewrite Habsent. simpl. by rewrite Hbrackets.
  - intros w. unfold getWalletIndex. unfold_M. simpl.
    destruct (JSON_parse (or_default _ _)); reflexivity.
Qed.

Lemma getWalletIndex_absent_witness :
  JSON_parse (Runtime := Reference.runtime) "[]" = Some (JArr [])
  /\ getWalletIndex (rt := Reference.runtime) Examples.fresh
     = (Returned (JArr []), Examples.fresh).
Proof.
  split; [reflexivity |].
  apply (proj1 (getWalletIndex_absent Reference.runtime eq_refl)).
  reflexivity.
Defined.

(** C6. [encrypt] draws a 16-byte salt and a 16-byte iv and returns
    [hex(salt) || hex(iv) || ciphertext], each hex part 32 characters long;
    the key is the 32 bytes that PBKDF2 derives from the password and the
    salt with 100 iterations; [decrypt] takes the first 32 and the next 32
    characters as salt and iv and derives its key from the password it is
    given and that salt. *)
Theorem transit_message_layout (rt : Runtime) :
  KeyLaws rt ->
  forall (message password : string) (w : world),
    exists (salt iv key : list byte),
      salt = map (random_source w) (seq (random_used w) 16)
      /\ iv = map (random_source w) (seq (random_used w + 16) 16)
      /\ key = PBKDF2 password salt (256 / 32) 100
      /\ length salt = 16 /\ length iv = 16 /\ length key = 32
      /\ String.length (Hex_stringify salt) = 32
      /\ String.length (Hex_stringify iv) = 32
      /\ fst (encrypt message password w)
         = Returned (Hex_stringify salt +:+ Hex_stringify iv
                     +:+ AES_encrypt message key iv)
      /\ forall (supplied : string) (w' : world),
           decrypt (Hex_stringify salt +:+ Hex_stringify iv
                    +:+ AES_encrypt message key iv) supplied w'
           = (match
                AES_decrypt (AES_encrypt message key iv)
                  (PBKDF2 supplied salt (256 / 32) 100) iv
              with
              | Some decrypted => Returned decrypted
              | None => Thrown (Error "Malformed UTF-8 data")
              end, w').
Proof.
  intros [Hhex Hword] message password w.
  set (salt := map (random_source w) (seq (random_used w) 16)).
  set (iv := map (random_source w) (seq (random_used w + 16) 16)).
  assert (Hsalt : length salt = 16) by (subst salt; by rewrite length_map, length_seq).
  assert (Hiv : length iv = 16) by (subst iv; by rewrite length_map, length_seq).
  exists salt, iv, (PBKDF2 password salt (256 / 32) 100).
  do 5 (split; [done |]).
  split; [by rewrite (PBKDF2_length _ _ _ _ Hword) |].
  split; [rewrite Hex_stringify_length; lia |].
  split; [rewrite Hex_stringify_length; lia |].
  split; [reflexivity |].
  intros supplied w'. by apply decrypt_transit.
Qed.

Lemma transit_message_layout_witness :
  KeyLaws Reference.runtime
  /\ exists (salt iv key : list byte),
      salt = map Examples.dice (seq 0 16)
      /\ iv = map Examples.dice (seq 16 16)
      /\ key = PBKDF2 (rt := Reference.runtime) Examples.pw salt (256 / 32) 100
      /\ length salt = 16 /\ length iv = 16 /\ length key = 32
      /\ String.length (Hex_stringify salt) = 32
      /\ String.length (Hex_stringify iv) = 32
      /\ fst (encrypt (rt := Reference.runtime) "message" Examples.pw Examples.fresh)
         = Returned (Hex_stringify salt +:+ Hex_stringify iv
                     +:+ AES_encrypt (rt := Reference.runtime) "message" key iv)
      /\ forall (supplied : string) (w' : world),
           decrypt (rt := Reference.runtime)
             (Hex_stringify salt +:+ Hex_stringify iv
              +:+ AES_encrypt (rt := Reference.runtime) "message" key iv)
             supplied w'
           = (match
                AES_decrypt (rt := Reference.runtime)
                  (AES_encrypt (rt := Reference.runtime) "message" key iv)
                  (PBKDF2 (rt := Reference.runtime) supplied salt (256 / 32) 100) iv
              with
              | Some decrypted => Returned decrypted
              | None => Thrown (Error "Malformed UTF-8 data")
              end, w').
Proof.
  split; [apply ReferenceFacts.key_laws |].
  apply (transit_message_layout Reference.runtime ReferenceFacts.key_laws
           "message" Examples.pw Examples.fresh).
Defined.

(** *** Round trip *)

(** What [getStoredWallet] finds after a [storeWallet] that returned, when
    the ciphertext it computed does not begin with [Salted__]. *)
Lemma getStoredWallet_after_store (rt : Runtime) :
  JSONLaws rt -> CryptoLaws rt ->
  forall (wallet : Wallet) (name password : string) (w w' : world),
    unsalted (JSON_stringify (wallet_json wallet)) password w ->
    storeWallet wallet name password w = (Returned tt, w') ->
    exists ciphertext,
      stored_at (localStorage w') (cosmosAddress wallet)
        (mkStoredWallet name (cosmosAddress wallet) ciphertext)
      /\ (forall w2, open_ciphertext ciphertext password w2
                     = Some (wallet_json wallet))
      /\ getStoredWallet (cosmosAddress wallet) password w'
         = (Returned (wallet_json wallet), w').
Proof.
  intros Hjson Hcrypto wallet name password w w' Hfree Hstore.
  destruct (storeWallet_returned wallet name password w w' Hstore)
    as (ciphertext & w1 & Hencrypt & Hstored).
  assert (Hopen : forall w2, open_ciphertext ciphertext password w2
                             = Some (wallet_json wallet)).
  { intros w2. unfold open_ciphertext.
    rewrite (decrypt_encrypt _ password ciphertext w w1 w2 Hcrypto Hfree
               Hencrypt).
    apply (JSON_parse_stringify rt Hjson _ (persisted_wallet wallet)). }
  exists ciphertext. split; [done |]. split; [done |].
  rewrite (getStoredWallet_stored Hjson _ password _ w' Hstored).
  cbn [sw_wallet]. by rewrite Hopen.
Qed.

(** *** Facts about the example worlds *)

Lemma alice_store_run :
  storeWallet (rt := Reference.runtime) Examples.alice "main" Examples.pw
    Examples.fresh
  = (Returned tt, Examples.with_alice).
Proof.
  unfold Examples.with_alice.
  rewrite (storeWallet_fresh ReferenceFacts.json_laws Examples.alice "main"
             Examples.pw [] Examples.fresh _ _ (lookup_empty _) eq_refl
             (not_elem_of_nil _) (encrypt_run _ _ _)).
  reflexivity.
Qed.

Lemma alice_is_stored :
  fst (storeWallet (rt := Reference.runtime) Examples.alice "main" Examples.pw
         Examples.fresh)
  = Returned tt.
Proof. by rewrite alice_store_run. Qed.

Lemma with_alice_storage :
  localStorage Examples.with_alice
  = <[wallet_key (cosmosAddress Examples.alice) :=
        JSON_stringify (Runtime := Reference.runtime)
          (stored_json Examples.alice_entry)]>
      (<[index_key :=
           JSON_stringify (Runtime := Reference.runtime)
             (index_json [mkIndexEntry "main" (cosmosAddress Examples.alice)])]>
         ∅).
Proof.
  unfold Examples.with_alice.
  rewrite (storeWallet_fresh ReferenceFacts.json_laws Examples.alice "main"
             Examples.pw [] Examples.fresh _ _ (lookup_empty _) eq_refl
             (not_elem_of_nil _) (encrypt_run _ _ _)).
  reflexivity.
Qed.

Lemma with_alice_stored :
  stored_at (rt := Reference.runtime) (localStorage Examples.with_alice)
    (cosmosAddress Examples.alice) Examples.alice_entry.
Proof.
  unfold stored_at. rewrite with_alice_storage. apply lookup_insert_eq.
Qed.

Lemma with_alice_index :
  index_is (rt := Reference.runtime) (localStorage Examples.with_alice)
    [mkIndexEntry "main" (cosmosAddress Examples.alice)].
Proof.
  unfold index_is. rewrite with_alice_storage.
  rewrite lookup_insert_ne by discriminate.
  by rewrite lookup_insert_eq.
Qed.

Lemma with_alice_no_bob :
  localStorage Examples.with_alice !! wallet_key (cosmosAddress Examples.bob)
  = None.
Proof.
  rewrite with_alice_storage.
  rewrite lookup_insert_ne by discriminate.
  rewrite lookup_insert_ne by discriminate.
  apply lookup_empty.
Qed.

(** The ciphertext of [alice] does not begin with [Salted__]; it opens
    under [pw] and under [pw] followed by a NUL character, and not under
    the password [guess]. *)
Lemma alice_unsalted :
  unsalted (rt := Reference.runtime)
    (JSON_stringify (Runtime := Reference.runtime) (wallet_json Examples.alice))
    Examples.pw Examples.fresh.
Proof. vm_compute. reflexivity. Qed.

Lemma alice_opens (w : world) :
  open_ciphertext (rt := Reference.runtime) (sw_wallet Examples.alice_entry)
    Examples.pw w
  = Some (wallet_json Examples.alice).
Proof.
  unfold open_ciphertext.
  rewrite (decrypt_encrypt (rt := Reference.runtime)
             (JSON_stringify (Runtime := Reference.runtime)
                (wallet_json Examples.alice))
             Examples.pw (sw_wallet Examples.alice_entry) Examples.fresh _ w
             ReferenceFacts.crypto_laws alice_unsalted (encrypt_run _ _ _)).
  apply (JSON_parse_stringify _ ReferenceFacts.json_laws _
           (persisted_wallet Examples.alice)).
Qed.

Lemma open_ciphertext_nul (rt : Runtime) (ciphertext password : string)
    (w : world) :
  length (Utf8_parse password) < hasher_blockSize ->
  open_ciphertext ciphertext (password +:+ String "000" "") w
  = open_ciphertext ciphertext password w.
Proof.
  intros Hshort. unfold open_ciphertext. rewrite !decrypt_run.
  by rewrite PBKDF2_zero.
Qed.

Lemma alice_opens_nul (w : world) :
  open_ciphertext (rt := Reference.runtime) (sw_wallet Examples.alice_entry)
    Examples.pw_nul w
  = Some (wallet_json Examples.alice).
Proof.
  unfold Examples.pw_nul. rewrite open_ciphertext_nul; [apply alice_opens |].
  vm_compute. lia.
Qed.

Lemma guess_rejected :
  open_ciphertext (rt := Reference.runtime) (sw_wallet Examples.alice_entry)
    "guess" Examples.with_alice
  = None.
Proof.
  rewrite (open_ciphertext_world _ _ _ Examples.fresh).
  vm_compute. reflexivity.
Qed.

(** X13. Unless the ciphertext begins with the bytes [Salted__], the round
    trip holds: on a store that has no entry for the address and no index
    entry of that name, [storeWallet] returns, and [getStoredWallet] for
    the wallet's address and the same password then returns the wallet
    that was stored. *)
Theorem store_then_load_unsalted (rt : Runtime) :
  JSONLaws rt -> CryptoLaws rt ->
  forall (wallet : Wallet) (name password : string) (w : world)
         (idx : list IndexEntry),
    localStorage w !! wallet_key (cosmosAddress wallet) = None ->
    index_is (localStorage w) idx ->
    name ∉ map ie_name idx ->
    unsalted (JSON_stringify (wallet_json wallet)) password w ->
    exists w' : world,
      storeWallet wallet name password w = (Returned tt, w')
      /\ getStoredWallet (cosmosAddress wallet) password w'
         = (Returned (wallet_json wallet), w').
Proof.
  intros Hjson Hcrypto wallet name password w idx Habsent Hidx Hname Hfree.
  eexists. split.
  - apply (storeWallet_fresh Hjson wallet name password idx w _ _
             Habsent Hidx Hname (encrypt_run _ _ w)).
  - by destruct (getStoredWallet_after_store rt Hjson Hcrypto wallet name
                   password w _ Hfree
                   (storeWallet_fresh Hjson wallet name password idx w _ _
                      Habsent Hidx Hname (encrypt_run _ _ w)))
      as (ciphertext & _ & _ & Hget).
Qed.

Lemma store_then_load_unsalted_witness :
  JSONLaws Reference.runtime /\ CryptoLaws Reference.runtime
  /\ localStorage Examples.fresh
       !! wallet_key (cosmosAddress Examples.alice) = None
  /\ index_is (rt := Reference.runtime) (localStorage Examples.fresh) []
  /\ ("main" ∉ map ie_name [])
  /\ unsalted (rt := Reference.runtime)
       (JSON_stringify (Runtime := Reference.runtime)
          (wallet_json Examples.alice))
       Examples.pw Examples.fresh
  /\ exists w' : world,
      storeWallet (rt := Reference.runtime) Examples.alice "main" Examples.pw
        Examples.fresh
      = (Returned tt, w')
      /\ getStoredWallet (rt := Reference.runtime)
           (cosmosAddress Examples.alice) Examples.pw w'
         = (Returned (wallet_json Examples.alice), w').
Proof.
  assert (Habsent : localStorage Examples.fresh
                      !! wallet_key (cosmosAddress Examples.alice) = None)
    by apply lookup_empty.
  assert (Hidx : index_is (rt := Reference.runtime)
                   (localStorage Examples.fresh) [])
    by reflexivity.
  assert (Hname : "main" ∉ map ie_name []) by apply not_elem_of_nil.
  exact (conj ReferenceFacts.json_laws
           (conj ReferenceFacts.crypto_laws
              (conj Habsent
                 (conj Hidx
                    (conj Hname
                       (conj alice_unsalted
                          (store_then_load_unsalted Reference.runtime
                             ReferenceFacts.json_laws
                             ReferenceFacts.crypto_laws Examples.alice "main"
                             Examples.pw Examples.fresh [] Habsent Hidx Hname
                             alice_unsalted))))))).
Defined.

(** C1 fails on the library.  The random generator can draw an iv under
    which the ciphertext begins with the bytes [Salted__]; [decrypt] then
    reads the text that [encrypt] wrote as a salted one and drops the
    first block.  With the draw of [SaltedDraw], on the empty store,
    [storeWallet] returns and [getStoredWallet] for the same address and
    the same password throws the error of a wrong password. *)
Theorem store_then_load_salted :
  localStorage SaltedDraw.fresh = ∅
  /\ exists w' : world,
       storeWallet (rt := CryptoJS.runtime) Examples.alice "main" Examples.pw
         SaltedDraw.fresh
       = (Returned tt, w')
       /\ getStoredWallet (rt := CryptoJS.runtime)
            (cosmosAddress Examples.alice) Examples.pw w'
          = (Thrown (Error "Incorrect password"), w').
Proof.
  split; [reflexivity |]. eexists. split.
  - vm_compute. reflexivity.
  - vm_compute. reflexivity.
Qed.

(** X15. What [decrypt] does with a ciphertext that begins with the bytes
    [Salted__]: it takes the text that [encrypt] returned for a salted
    one, drops the first sixteen bytes of the ciphertext and decrypts the
    rest, under the same key and iv. *)
Theorem decrypt_salted (rt : Runtime) :
  KeyLaws rt ->
  forall (message password : string) (w : world),
    starts_with Salted__ (drawn_ciphertext message password w) = true ->
    let salt := map (random_source w) (seq (random_used w) 16) in
    let iv := map (random_source w) (seq (random_used w + 16) 16) in
    exists (transit : string) (w1 : world),
      encrypt message password w = (Returned transit, w1)
      /\ forall w2 : world,
           decrypt transit password w2
           = (match
                AES_plaintext (skipn 16 (drawn_ciphertext message password w))
                  (PBKDF2 password salt (keySize / 32) iterations) iv
              with
              | Some decrypted => Returned decrypted
              | None => Thrown (Error "Malformed UTF-8 data")
              end, w2).
Proof.
  intros [Hhex Hword] message password w Hsalted salt iv.
  do 2 eexists. split; [apply encrypt_run |]. intros w2. cbv zeta.
  fold salt iv.
  assert (Hsalt : length salt = 16)
    by (subst salt; by rewrite length_map, length_seq).
  assert (Hiv : length iv = 16)
    by (subst iv; by rewrite length_map, length_seq).
  rewrite decrypt_transit by done.
  change (keySize / 32) with 8. change iterations with 100.
  unfold drawn_ciphertext in Hsalted. cbv zeta in Hsalted.
  fold salt iv in Hsalted. change (keySize / 32) with 8 in Hsalted.
  change iterations with 100 in Hsalted.
  rewrite (AES_decrypt_salted _ _ _ Hsalted).
  unfold drawn_ciphertext. cbv zeta. fold salt iv. reflexivity.
Qed.

(** The ciphertext of [alice] under the draw of [SaltedDraw]. *)
Lemma salted_draw :
  starts_with Salted__
    (drawn_ciphertext (rt := CryptoJS.runtime)
       (JSON_stringify (Runtime := CryptoJS.runtime)
          (wallet_json Examples.alice))
       Examples.pw SaltedDraw.fresh)
  = true.
Proof. vm_compute. reflexivity. Qed.

Lemma decrypt_salted_witness :
  KeyLaws CryptoJS.runtime
  /\ starts_with Salted__
       (drawn_ciphertext (rt := CryptoJS.runtime)
          (JSON_stringify (Runtime := CryptoJS.runtime)
             (wallet_json Examples.alice))
          Examples.pw SaltedDraw.fresh)
     = true
  /\ exists (transit : string) (w1 : world),
      encrypt (rt := CryptoJS.runtime)
        (JSON_stringify (Runtime := CryptoJS.runtime)
           (wallet_json Examples.alice))
        Examples.pw SaltedDraw.fresh
      = (Returned transit, w1)
      /\ forall w2 : world,
           decrypt (rt := CryptoJS.runtime) transit Examples.pw w2
           = (match
                AES_plaintext (Runtime := CryptoJS.runtime)
                  (skipn 16
                     (drawn_ciphertext (rt := CryptoJS.runtime)
                        (JSON_stringify (Runtime := CryptoJS.runtime)
                           (wallet_json Examples.alice))
                        Examples.pw SaltedDraw.fresh))
                  (PBKDF2 (rt := CryptoJS.runtime) Examples.pw SaltedDraw.salt
                     (keySize / 32) iterations)
                  SaltedDraw.iv
              with
              | Some decrypted => Returned decrypted
              | None => Thrown (Error "Malformed UTF-8 data")
              end, w2).
Proof.
  exact (conj CryptoJSFacts.library_key_laws
           (conj salted_draw
              (decrypt_salted CryptoJS.runtime CryptoJSFacts.library_key_laws
                 (JSON_stringify (Runtime := CryptoJS.runtime)
                    (wallet_json Examples.alice))
                 Examples.pw SaltedDraw.fresh salted_draw))).
Defined.

(** *** Passwords *)

(** A password shorter than the block of the hash, followed by a NUL
    character, opens what the password itself was stored under: both derive
    the same key from every salt.  This holds in every runtime, for every
    ciphertext that does not begin with [Salted__]. *)
Lemma nul_password_opens (rt : Runtime) :
  JSONLaws rt -> CryptoLaws rt ->
  forall (wallet : Wallet) (name password : string) (w w' : world),
    length (Utf8_parse password) < hasher_blockSize ->
    unsalted (JSON_stringify (wallet_json wallet)) password w ->
    storeWallet wallet name password w = (Returned tt, w') ->
    getStoredWallet (cosmosAddress wallet) (password +:+ String "000" "") w'
    = (Returned (wallet_json wallet), w').
Proof.
  intros Hjson Hcrypto wallet name password w w' Hshort Hfree Hstore.
  destruct (getStoredWallet_after_store rt Hjson Hcrypto wallet name
              password w w' Hfree Hstore) as (ciphertext & Hstored & Hopen & _).
  rewrite (getStoredWallet_stored Hjson _ _ _ w' Hstored). cbn [sw_wallet].
  by rewrite open_ciphertext_nul, Hopen.
Qed.

(** C2, as the code has it. The password check of a stored wallet is the
    attempt to decrypt its ciphertext and to parse the result. When that
    attempt fails, in whichever of its two steps, [getStoredWallet],
    [testPassword] and [removeWallet] throw an error of the class
    IncorrectPassword and leave the world as it was; when it yields a
    value, [getStoredWallet] returns that value and [testPassword] returns.
    An address without an entry makes the three throw an error of the
    class WalletNotFound, which is another class. *)
Theorem password_check (rt : Runtime) :
  JSONLaws rt ->
  forall (address password : string) (w : world),
    (forall sw : StoredWallet,
       stored_at (localStorage w) address sw ->
       match open_ciphertext (sw_wallet sw) password w with
       | None =>
           getStoredWallet address password w
           = (Thrown (Error "Incorrect password"), w)
           /\ testPassword address password w
              = (Thrown (Error "Password for wallet is incorrect"), w)
           /\ removeWallet address password w
              = (Thrown (Error "Password for wallet is incorrect"), w)
       | Some v =>
           getStoredWallet address password w = (Returned v, w)
           /\ testPassword address password w = (Returned tt, w)
       end)
    /\ (localStorage w !! wallet_key address = None ->
        getStoredWallet address password w
        = (Thrown (Error "No wallet found for requested address"), w)
        /\ testPassword address password w
           = (Thrown (Error "No wallet found for request address"), w)
        /\ removeWallet address password w
           = (Thrown (Error "No wallet found for requested address"), w))
    /\ classify (Error "Incorrect password") = Some IncorrectPassword
    /\ classify (Error "Password for wallet is incorrect")
       = Some IncorrectPassword
    /\ classify (Error "No wallet found for requested address")
       = Some WalletNotFound
    /\ classify (Error "No wallet found for request address")
       = Some WalletNotFound.
Proof.
  intros Hjson address password w. split; [| split].
  - intros sw Hstored.
    rewrite (getStoredWallet_stored Hjson _ _ _ w Hstored).
    rewrite (testPassword_stored Hjson _ _ _ w Hstored).
    destruct (open_ciphertext (sw_wallet sw) password w) as [v|] eqn:Hopen.
    + done.
    + by rewrite (removeWallet_rejected Hjson _ _ _ w Hstored Hopen).
  - intros Habsent.
    by rewrite getStoredWallet_absent, testPassword_absent, removeWallet_absent.
  - done.
Qed.

Lemma password_check_witness :
  JSONLaws Reference.runtime
  /\ getStoredWallet (rt := Reference.runtime) (cosmosAddress Examples.alice)
       "guess" Examples.with_alice
     = (Thrown (Error "Incorrect password"), Examples.with_alice)
  /\ testPassword (rt := Reference.runtime) (cosmosAddress Examples.alice)
       "guess" Examples.with_alice
     = (Thrown (Error "Password for wallet is incorrect"), Examples.with_alice)
  /\ removeWallet (rt := Reference.runtime) (cosmosAddress Examples.alice)
       "guess" Examples.with_alice
     = (Thrown (Error "Password for wallet is incorrect"), Examples.with_alice)
  /\ getStoredWallet (rt := Reference.runtime) (cosmosAddress Examples.bob)
       "guess" Examples.with_alice
     = (Thrown (Error "No wallet found for requested address"),
        Examples.with_alice).
Proof.
  pose proof guess_rejected as Hopen.
  pose proof (password_check Reference.runtime ReferenceFacts.json_laws
                (cosmosAddress Examples.alice) "guess" Examples.with_alice)
    as [Hstored _].
  specialize (Hstored Examples.alice_entry with_alice_stored).
  rewrite Hopen in Hstored. destruct Hstored as (Hget & Htest & Hremove).
  pose proof (password_check Reference.runtime ReferenceFacts.json_laws
                (cosmosAddress Examples.bob) "guess" Examples.with_alice)
    as (_ & Habsent & _).
  destruct (Habsent with_alice_no_bob) as (Hbob & _).
  exact (conj ReferenceFacts.json_laws
           (conj Hget (conj Htest (conj Hremove Hbob)))).
Defined.

(** C2, as the claim has it, fails: the wallet that was stored under [pw]
    is returned to the password [pw] followed by a NUL character. *)
Lemma another_password_opens :
  fst (storeWallet (rt := Reference.runtime) Examples.alice "main" Examples.pw
         Examples.fresh)
  = Returned tt
  /\ Examples.pw_nul <> Examples.pw
  /\ fst (getStoredWallet (rt := Reference.runtime)
            (cosmosAddress Examples.alice) Examples.pw_nul Examples.with_alice)
     = Returned (wallet_json Examples.alice)
  /\ fst (testPassword (rt := Reference.runtime)
            (cosmosAddress Examples.alice) Examples.pw_nul Examples.with_alice)
     = Returned tt.
Proof.
  split; [apply alice_is_stored |].
  split; [discriminate |].
  rewrite (getStoredWallet_stored ReferenceFacts.json_laws
             (cosmosAddress Examples.alice) Examples.pw_nul
             Examples.alice_entry Examples.with_alice with_alice_stored).
  rewrite (testPassword_stored ReferenceFacts.json_laws
             (cosmosAddress Examples.alice) Examples.pw_nul
             Examples.alice_entry Examples.with_alice with_alice_stored).
  rewrite (alice_opens_nul Examples.with_alice). split; reflexivity.
Qed.

(** *** The invariant *)

(** X14. The invariant of the data model holds in the empty store and in
    every store that the four operations reach from it, whether they
    return or throw, as long as the address they are given is not the word
    [index]. *)
Theorem store_invariant_reachable (rt : Runtime) :
  JSONLaws rt ->
  (forall w : world, localStorage w = ∅ -> store_invariant (localStorage w))
  /\ (forall (w : world) (o : operation),
        reachable w -> operation_address o <> "index" ->
        store_invariant (localStorage w)
        /\ store_invariant (localStorage (world_after o w))).
Proof.
  intros Hjson. split.
  - intros w Hempty. apply (consistent_invariant Hjson).
    rewrite Hempty. apply consistent_empty.
  - intros w o Hreach Ha.
    pose proof (reachable_consistent Hjson w Hreach) as Hcons.
    split; apply (consistent_invariant Hjson); [done |].
    by apply (consistent_step Hjson).
Qed.

Lemma store_invariant_reachable_witness :
  JSONLaws Reference.runtime
  /\ reachable (rt := Reference.runtime) Examples.fresh
  /\ operation_address (StoreWallet Examples.alice "main" Examples.pw) <> "index"
  /\ store_invariant (rt := Reference.runtime) (localStorage Examples.fresh)
  /\ store_invariant (rt := Reference.runtime)
       (localStorage Examples.with_alice).
Proof.
  assert (Hreach : reachable (rt := Reference.runtime) Examples.fresh)
    by (apply reachable_empty; reflexivity).
  assert (Ha : operation_address
                 (StoreWallet Examples.alice "main" Examples.pw) <> "index")
    by discriminate.
  exact (conj ReferenceFacts.json_laws
           (conj Hreach
              (conj Ha
                 (proj2 (store_invariant_reachable Reference.runtime
                           ReferenceFacts.json_laws)
                    Examples.fresh
                    (StoreWallet Examples.alice "main" Examples.pw)
                    Hreach Ha)))).
Defined.

Lemma squatter_store_run :
  storeWallet (rt := Reference.runtime) Examples.squatter "main" Examples.pw
    Examples.fresh
  = (Returned tt, Examples.with_squatter).
Proof.
  unfold Examples.with_squatter.
  rewrite (storeWallet_fresh ReferenceFacts.json_laws Examples.squatter "main"
             Examples.pw [] Examples.fresh _ _ (lookup_empty _) eq_refl
             (not_elem_of_nil _) (encrypt_run _ _ _)).
  reflexivity.
Qed.

(** C3 fails on the code, by a collision of keys: the wallet key of the
    address [index] is the key of the index.  The empty store has the
    invariant, [storeWallet] returns for a wallet whose address is the
    word [index], and the store it leaves has no index any more:
    [addToStorage] wrote the wallet entry over the index that [addToIndex]
    had written in the same call. *)
Lemma index_address_breaks_invariant :
  store_invariant (rt := Reference.runtime) (localStorage Examples.fresh)
  /\ fst (storeWallet (rt := Reference.runtime) Examples.squatter "main"
            Examples.pw Examples.fresh)
     = Returned tt
  /\ ~ store_invariant (rt := Reference.runtime)
         (localStorage Examples.with_squatter).
Proof.
  split; [| split].
  - apply (consistent_invariant ReferenceFacts.json_laws), consistent_empty.
  - rewrite squatter_store_run. reflexivity.
  - intros (idx & Hidx & _). pose proof squatter_store_run as Hstore.
    destruct (storeWallet_returned _ _ _ _ _ Hstore)
      as (ciphertext & w1 & _ & Hstored).
    exact (stored_at_not_index ReferenceFacts.json_laws _ idx _ _ Hidx Hstored
             eq_refl).
Qed.

(** *** Duplicates *)

(** C4. [storeWallet] for an address that has an entry throws the error of
    the class DuplicateAddress and leaves the world as it was. For an
    address that has none and a name that the index lists, under whatever
    address, it throws the error of the class DuplicateName and leaves
    [localStorage] as it was (the salt and the iv were drawn by then). *)
Theorem storeWallet_duplicates (rt : Runtime) :
  JSONLaws rt ->
  forall (wallet : Wallet) (name password : string) (w : world),
    (forall sw : StoredWallet,
       stored_at (localStorage w) (cosmosAddress wallet) sw ->
       exists e,
         storeWallet wallet name password w = (Thrown e, w)
         /\ classify e = Some DuplicateAddress)
    /\ (forall idx : list IndexEntry,
          localStorage w !! wallet_key (cosmosAddress wallet) = None ->
          index_is (localStorage w) idx ->
          name ∈ map ie_name idx ->
          exists e w',
            storeWallet wallet name password w = (Thrown e, w')
            /\ classify e = Some DuplicateName
            /\ localStorage w' = localStorage w).
Proof.
  intros Hjson wallet name password w. split.
  - intros sw Hstored. eexists. split.
    + apply (storeWallet_duplicate Hjson _ _ _ sw w Hstored).
    + reflexivity.
  - intros idx Habsent Hidx Hname. do 2 eexists. split; [| split].
    + apply (storeWallet_name_taken Hjson _ _ _ idx w Habsent Hidx Hname).
    + reflexivity.
    + reflexivity.
Qed.

Lemma storeWallet_duplicates_witness :
  JSONLaws Reference.runtime
  /\ (exists e,
        storeWallet (rt := Reference.runtime) Examples.alice "second"
          Examples.pw Examples.with_alice
        = (Thrown e, Examples.with_alice)
        /\ classify e = Some DuplicateAddress)
  /\ (exists e w',
        storeWallet (rt := Reference.runtime) Examples.bob "main"
          Examples.pw Examples.with_alice
        = (Thrown e, w')
        /\ classify e = Some DuplicateName
        /\ localStorage w' = localStorage Examples.with_alice).
Proof.
  assert (Hname : "main" ∈ map ie_name
                    [mkIndexEntry "main" (cosmosAddress Examples.alice)])
    by (left).
  exact (conj ReferenceFacts.json_laws
           (conj
              (proj1 (storeWallet_duplicates Reference.runtime
                        ReferenceFacts.json_laws Examples.alice "second"
                        Examples.pw Examples.with_alice)
                 Examples.alice_entry with_alice_stored)
              (proj2 (storeWallet_duplicates Reference.runtime
                        ReferenceFacts.json_laws Examples.bob "main"
                        Examples.pw Examples.with_alice)
                 _ with_alice_no_bob with_alice_index Hname))).
Defined.

(** *** Removal *)

(** C5, as the code has it. [removeWallet] throws the error of the class
    WalletNotFound for an address without an entry, and the error of the
    class IncorrectPassword when the stored ciphertext does not open under
    the password (decrypting throws, or gives text that is not JSON); the
    world is then as it was. For an address with an entry it is [testPassword]
    followed, only if that returned, by the removal; and when the
    ciphertext opens it returns, the index rewritten without the entries of
    the address and the wallet key deleted. *)
Theorem removeWallet_checks (rt : Runtime) :
  JSONLaws rt ->
  forall (address password : string) (w : world),
    (localStorage w !! wallet_key address = None ->
     exists e,
       removeWallet address password w = (Thrown e, w)
       /\ classify e = Some WalletNotFound)
    /\ (forall sw : StoredWallet,
          stored_at (localStorage w) address sw ->
          removeWallet address password w
          = match testPassword address password w with
            | (Returned _, w1) => removeFromStorage address w1
            | (Thrown e, w1) => (Thrown e, w1)
            end
          /\ (open_ciphertext (sw_wallet sw) password w = None ->
              exists e,
                removeWallet address password w = (Thrown e, w)
                /\ classify e = Some IncorrectPassword)
          /\ (forall (v : json) (idx : list IndexEntry),
                open_ciphertext (sw_wallet sw) password w = Some v ->
                index_is (localStorage w) idx ->
                removeWallet address password w
                = (Returned tt,
                   with_storage
                     (fun ls =>
                        delete (wallet_key address)
                          (<[index_key :=
                               JSON_stringify
                                 (index_json
                                    (filter (fun e => ie_address e <> address)
                                       idx))]> ls))
                     w))).
Proof.
  intros Hjson address password w. split.
  - intros Habsent. eexists. split.
    + by apply removeWallet_absent.
    + reflexivity.
  - intros sw Hstored. split; [| split].
    + unfold removeWallet. unfold mbind at 1, M_bind at 1.
      rewrite (loadFromStorage_stored Hjson address sw w Hstored).
      cbn [truthy stored_json negb]. unfold mbind, M_bind.
      destruct (testPassword address password w) as [[[]|e] w1]; reflexivity.
    + intros Hopen. eexists. split.
      * by apply (removeWallet_rejected Hjson _ _ sw).
      * reflexivity.
    + intros v idx Hopen Hidx.
      by apply (removeWallet_accepted Hjson _ _ sw idx v).
Qed.

Lemma removeWallet_checks_witness :
  JSONLaws Reference.runtime
  /\ (exists e,
        removeWallet (rt := Reference.runtime) (cosmosAddress Examples.bob)
          Examples.pw Examples.with_alice
        = (Thrown e, Examples.with_alice)
        /\ classify e = Some WalletNotFound)
  /\ (exists e,
        removeWallet (rt := Reference.runtime) (cosmosAddress Examples.alice)
          "guess" Examples.with_alice
        = (Thrown e, Examples.with_alice)
        /\ classify e = Some IncorrectPassword)
  /\ removeWallet (rt := Reference.runtime) (cosmosAddress Examples.alice)
       Examples.pw Examples.with_alice
     = (Returned tt,
        with_storage
          (fun ls =>
             delete (wallet_key (cosmosAddress Examples.alice))
               (<[index_key :=
                    JSON_stringify (Runtime := Reference.runtime)
                      (index_json
                         (filter
                            (fun e =>
                               ie_address e <> cosmosAddress Examples.alice)
                            [mkIndexEntry "main"
                               (cosmosAddress Examples.alice)]))]> ls))
          Examples.with_alice).
Proof.
  pose proof guess_rejected as Hguess.
  pose proof (alice_opens Examples.with_alice) as Hopen.
  exact (conj ReferenceFacts.json_laws
           (conj
              (proj1 (removeWallet_checks Reference.runtime
                        ReferenceFacts.json_laws (cosmosAddress Examples.bob)
                        Examples.pw Examples.with_alice)
                 with_alice_no_bob)
              (conj
                 (proj1 (proj2
                    (proj2 (removeWallet_checks Reference.runtime
                              ReferenceFacts.json_laws
                              (cosmosAddress Examples.alice) "guess"
                              Examples.with_alice)
                       Examples.alice_entry with_alice_stored))
                    Hguess)
                 (proj2 (proj2
                    (proj2 (removeWallet_checks Reference.runtime
                              ReferenceFacts.json_laws
                              (cosmosAddress Examples.alice) Examples.pw
                              Examples.with_alice)
                       Examples.alice_entry with_alice_stored))
                    _ _ Hopen with_alice_index)))).
Defined.

(** C5, as the claim has it, fails: a wrong password that opens the
    ciphertext removes the wallet.  The wallet that was stored under [pw]
    is removed for the password [pw] followed by a NUL character: the call
    returns and the wallet key is gone. *)
Lemma another_password_removes :
  fst (storeWallet (rt := Reference.runtime) Examples.alice "main" Examples.pw
         Examples.fresh)
  = Returned tt
  /\ Examples.pw_nul <> Examples.pw
  /\ fst (removeWallet (rt := Reference.runtime)
            (cosmosAddress Examples.alice) Examples.pw_nul Examples.with_alice)
     = Returned tt
  /\ localStorage
       (snd (removeWallet (rt := Reference.runtime)
               (cosmosAddress Examples.alice) Examples.pw_nul
               Examples.with_alice))
       !! wallet_key (cosmosAddress Examples.alice)
     = None.
Proof.
  split; [apply alice_is_stored |].
  split; [discriminate |].
  rewrite (removeWallet_accepted ReferenceFacts.json_laws
             (cosmosAddress Examples.alice) Examples.pw_nul
             Examples.alice_entry
             [mkIndexEntry "main" (cosmosAddress Examples.alice)]
             (wallet_json Examples.alice) Examples.with_alice
             with_alice_stored (alice_opens_nul Examples.with_alice)
             with_alice_index).
  split; [reflexivity |]. apply lookup_delete_eq.
Qed.

(** ** Which keys the operations write *)

Section FrameFacts.

Context {rt : Runtime}.

Lemma getWalletIndex_same_world (w : world) : snd (getWalletIndex w) = w.
Proof.
  unfold getWalletIndex. unfold_M. simpl.
  destruct (JSON_parse (or_default _ _)); reflexivity.
Qed.

Lemma untouched_refl (keys : list string) (w : world) :
  untouched_outside keys w w.
Proof. by intros key _. Qed.

Lemma untouched_trans (keys : list string) (w1 w2 w3 : world) :
  untouched_outside keys w1 w2 -> untouched_outside keys w2 w3 ->
  untouched_outside keys w1 w3.
Proof. intros H12 H23 key Hkey. by rewrite H23, H12. Qed.

Lemma untouched_setItem (keys : list string) (key value : string) (w : world) :
  key ∈ keys ->
  untouched_outside keys w (snd (localStorage_setItem key value w)).
Proof.
  intros Hin other Hother. cbn. apply lookup_insert_ne.
  intros ->. by apply Hother.
Qed.

Lemma untouched_removeItem (keys : list string) (key : string) (w : world) :
  key ∈ keys ->
  untouched_outside keys w (snd (localStorage_removeItem key w)).
Proof.
  intros Hin other Hother. cbn. apply lookup_delete_ne.
  intros ->. by apply Hother.
Qed.

Lemma addToIndex_untouched (keys : list string) (name address : string)
    (w : world) :
  index_key ∈ keys ->
  untouched_outside keys w (snd (addToIndex name address w)).
Proof.
  intros Hin. unfold addToIndex. unfold mbind at 1, M_bind at 1.
  pose proof (getWalletIndex_same_world w) as Hw.
  destruct (getWalletIndex w) as [[v|e] w0]; simpl in Hw; subst w0;
    [| apply untouched_refl].
  destruct v; unfold_M; simpl; try apply untouched_refl.
  destruct (find_name name elements) as [[found|]|e]; simpl;
    try apply untouched_refl.
  by apply (untouched_setItem keys).
Qed.

Lemma removeFromIndex_untouched (keys : list string) (address : string)
    (w : world) :
  index_key ∈ keys ->
  untouched_outside keys w (snd (removeFromIndex address w)).
Proof.
  intros Hin. unfold removeFromIndex. unfold mbind at 1, M_bind at 1.
  pose proof (getWalletIndex_same_world w) as Hw.
  destruct (getWalletIndex w) as [[v|e] w0]; simpl in Hw; subst w0;
    [| apply untouched_refl].
  destruct v; unfold_M; simpl; try apply untouched_refl.
  destruct (filter_address address elements) as [kept|e]; simpl;
    [| apply untouched_refl].
  by apply (untouched_setItem keys).
Qed.

Lemma storeWallet_untouched (wallet : Wallet) (name password : string)
    (w : world) :
  untouched_outside [index_key; wallet_key (cosmosAddress wallet)] w
    (snd (storeWallet wallet name password w)).
Proof.
  unfold storeWallet. unfold mbind at 1, M_bind at 1.
  pose proof (loadFromStorage_world (cosmosAddress wallet) w) as Hw.
  destruct (loadFromStorage (cosmosAddress wallet) w) as [[v|e] w0];
    simpl in Hw; subst w0; [| apply untouched_refl].
  destruct (truthy v); [apply untouched_refl |].
  unfold mbind at 1, M_bind at 1. rewrite encrypt_run. cbv zeta.
  set (w1 := mkWorld (localStorage w) (random_source w)
               (random_used w + 16 + 16)).
  assert (H1 : untouched_outside
                 [index_key; wallet_key (cosmosAddress wallet)] w w1)
    by (by intros key _).
  unfold addToStorage. unfold mbind at 1, M_bind at 1.
  pose proof (addToIndex_untouched
                [index_key; wallet_key (cosmosAddress wallet)] name
                (cosmosAddress wallet) w1 ltac:(left)) as H2.
  destruct (addToIndex name (cosmosAddress wallet) w1) as [[[]|e] w2];
    simpl in H2.
  - eapply untouched_trans; [eapply untouched_trans; [exact H1 | exact H2] |].
    apply untouched_setItem. right. left.
  - eapply untouched_trans; [exact H1 | exact H2].
Qed.

Lemma removeWallet_untouched (address password : string) (w : world) :
  untouched_outside [index_key; wallet_key address] w
    (snd (removeWallet address password w)).
Proof.
  unfold removeWallet. unfold mbind at 1, M_bind at 1.
  pose proof (loadFromStorage_world address w) as Hw.
  destruct (loadFromStorage address w) as [[v|e] w0];
    simpl in Hw; subst w0; [| apply untouched_refl].
  destruct (truthy v); [| apply untouched_refl]. cbn [negb].
  unfold mbind at 1, M_bind at 1.
  pose proof (testPassword_world address password w) as Ht.
  destruct (testPassword address password w) as [[[]|e] w1];
    simpl in Ht; subst w1; [| apply untouched_refl].
  unfold removeFromStorage. unfold mbind at 1, M_bind at 1.
  pose proof (removeFromIndex_untouched [index_key; wallet_key address]
                address w ltac:(left)) as H2.
  destruct (removeFromIndex address w) as [[[]|e] w2]; simpl in H2;
    [| exact H2].
  eapply untouched_trans; [exact H2 |].
  apply untouched_removeItem. right. left.
Qed.

Lemma world_after_untouched (o : operation) (w : world) :
  untouched_outside [index_key; wallet_key (operation_address o)] w
    (world_after o w).
Proof.
  destruct o as [wallet name password|a password|a password|a password];
    cbn [operation_address world_after].
  - apply storeWallet_untouched.
  - apply removeWallet_untouched.
  - rewrite getStoredWallet_world. apply untouched_refl.
  - rewrite testPassword_world. apply untouched_refl.
Qed.

End FrameFacts.

(** X3. Whatever the store holds and however the operation ends,
    [storeWallet], [removeWallet], [getStoredWallet] and [testPassword]
    leave every key of [localStorage] as it was, the index key and the
    wallet key of their address apart; [getStoredWallet] and [testPassword]
    leave the whole world as it was. *)
Theorem operations_write_two_keys (rt : Runtime) :
  forall (o : operation) (w : world),
    untouched_outside [index_key; wallet_key (operation_address o)] w
      (world_after o w)
    /\ match o with
       | GetStoredWallet _ _ | TestPassword _ _ => world_after o w = w
       | _ => True
       end.
Proof.
  intros o w. split; [apply world_after_untouched |].
  destruct o as [wallet name password|a password|a password|a password];
    cbn [world_after]; [exact I | exact I | |].
  - apply getStoredWallet_world.
  - apply testPassword_world.
Qed.

(** ** More about the operations *)

Section ReadFacts.

Context {rt : Runtime}.

(** What [getStoredWallet] and [testPassword] answer depends on the store
    only through the text under the wallet key of the address. *)
Lemma getStoredWallet_reads_one_key (address password : string)
    (w1 w2 : world) :
  localStorage w1 !! wallet_key address = localStorage w2 !! wallet_key address ->
  fst (getStoredWallet address password w1)
  = fst (getStoredWallet address password w2).
Proof.
  intros Hsame. unfold getStoredWallet, loadFromStorage. unfold_M.
  fold (wallet_key address). simpl. rewrite Hsame.
  destruct (localStorage w2 !! wallet_key address) as [text|]; [| done].
  destruct (String.eqb text ""); [done |].
  destruct (JSON_parse text) as [v|]; [| done].
  destruct (truthy v); [| done]. simpl.
  destruct (js_get v "wallet") as [[]|]; try done.
  rewrite !decrypt_run. destruct (AES_decrypt _ _ _) as [decrypted|]; [| done].
  by destruct (JSON_parse decrypted).
Qed.

Lemma testPassword_reads_one_key (address password : string) (w1 w2 : world) :
  localStorage w1 !! wallet_key address = localStorage w2 !! wallet_key address ->
  fst (testPassword address password w1)
  = fst (testPassword address password w2).
Proof.
  intros Hsame. unfold testPassword, loadFromStorage. unfold_M.
  fold (wallet_key address). simpl. rewrite Hsame.
  destruct (localStorage w2 !! wallet_key address) as [text|]; [| done].
  destruct (String.eqb text ""); [done |].
  destruct (JSON_parse text) as [v|]; [| done].
  destruct (truthy v); [| done]. simpl.
  destruct (js_get v "wallet") as [[]|]; try done.
  rewrite !decrypt_run. destruct (AES_decrypt _ _ _) as [decrypted|]; [| done].
  by destruct (JSON_parse decrypted).
Qed.

End ReadFacts.

(** X1. On strings of code units below 256, [encrypt] returns: it draws
    32 bytes and leaves [localStorage] alone.  Unless the ciphertext it
    computed begins with the bytes [Salted__], [decrypt] turns what it
    returned back, under the same password and in any world, into the
    message. *)
Theorem decrypt_after_encrypt (rt : Runtime) :
  CryptoLaws rt ->
  forall (message password : string) (w : world),
    exists (transit : string) (w1 : world),
      encrypt message password w = (Returned transit, w1)
      /\ localStorage w1 = localStorage w
      /\ random_used w1 = random_used w + 32
      /\ (unsalted message password w ->
          forall w2 : world,
            decrypt transit password w2 = (Returned message, w2)).
Proof.
  intros Hcrypto message password w. do 2 eexists.
  split; [apply encrypt_run |]. split; [reflexivity |].
  split; [cbn; lia |].
  intros Hfree w2.
  apply (decrypt_encrypt message password _ w _ w2 Hcrypto Hfree
           (encrypt_run _ _ _)).
Qed.

Lemma decrypt_after_encrypt_witness :
  CryptoLaws Reference.runtime
  /\ unsalted (rt := Reference.runtime)
       (JSON_stringify (Runtime := Reference.runtime)
          (wallet_json Examples.alice))
       Examples.pw Examples.fresh
  /\ exists (transit : string) (w1 : world),
      encrypt (rt := Reference.runtime)
        (JSON_stringify (Runtime := Reference.runtime)
           (wallet_json Examples.alice))
        Examples.pw Examples.fresh
      = (Returned transit, w1)
      /\ localStorage w1 = localStorage Examples.fresh
      /\ random_used w1 = random_used Examples.fresh + 32
      /\ forall w2 : world,
           decrypt (rt := Reference.runtime) transit Examples.pw w2
           = (Returned
                (JSON_stringify (Runtime := Reference.runtime)
                   (wallet_json Examples.alice)),
              w2).
Proof.
  destruct (decrypt_after_encrypt Reference.runtime ReferenceFacts.crypto_laws
              (JSON_stringify (Runtime := Reference.runtime)
                 (wallet_json Examples.alice))
              Examples.pw Examples.fresh)
    as (transit & w1 & Hrun & Hstorage & Hused & Hback).
  exact (conj ReferenceFacts.crypto_laws
           (conj alice_unsalted
              (ex_intro _ transit
                 (ex_intro _ w1
                    (conj Hrun
                       (conj Hstorage
                          (conj Hused (Hback alice_unsalted)))))))).
Defined.

(** X2. On every store, whatever it holds, [testPassword] returns exactly
    when [getStoredWallet] returns, and when they throw they throw errors
    of the same class (the messages differ). *)
Theorem testPassword_agrees (rt : Runtime) :
  forall (address password : string) (w : world),
    match fst (getStoredWallet address password w),
          fst (testPassword address password w) with
    | Returned _, Returned _ => True
    | Thrown e, Thrown e' =>
        classify e = classify e' /\ (e = e' \/ classify e <> None)
    | _, _ => False
    end.
Proof.
  intros address password w.
  unfold getStoredWallet, testPassword, loadFromStorage. unfold_M.
  fold (wallet_key address). simpl.
  destruct (localStorage w !! wallet_key address) as [text|];
    [| simpl; split; [done | by right]].
  destruct (String.eqb text ""); [simpl; split; [done | by right] |].
  destruct (JSON_parse text) as [v|]; [| simpl; split; [done | by left]].
  destruct (truthy v); [| simpl; split; [done | by right]]. simpl.
  destruct (js_get v "wallet") as [[]|]; simpl;
    try (split; [done | by right]).
  rewrite !decrypt_run.
  destruct (AES_decrypt _ _ _) as [decrypted|]; simpl;
    [| split; [done | by right]].
  destruct (JSON_parse decrypted); simpl; [done | split; [done | by right]].
Qed.

(** X4. An operation on one address does not change what another address
    answers: [getStoredWallet] and [testPassword] for an address other
    than the operation's, and other than the word [index], end after the
    operation as they would have ended before it. *)
Theorem other_addresses_unaffected (rt : Runtime) :
  forall (o : operation) (address password : string) (w : world),
    address <> "index" ->
    address <> operation_address o ->
    fst (getStoredWallet address password (world_after o w))
    = fst (getStoredWallet address password w)
    /\ fst (testPassword address password (world_after o w))
       = fst (testPassword address password w).
Proof.
  intros o address password w Hindex Hother.
  assert (Hkey : localStorage (world_after o w) !! wallet_key address
                 = localStorage w !! wallet_key address).
  { apply (world_after_untouched o w).
    rewrite !not_elem_of_cons. repeat split.
    - by apply index_key_not_wallet.
    - intros Heq. by apply wallet_key_inj in Heq.
    - apply not_elem_of_nil. }
  split.
  - by apply getStoredWallet_reads_one_key.
  - by apply testPassword_reads_one_key.
Qed.

Lemma other_addresses_unaffected_witness :
  cosmosAddress Examples.alice <> "index"
  /\ cosmosAddress Examples.alice
     <> operation_address (StoreWallet Examples.bob "second" Examples.pw)
  /\ fst (getStoredWallet (rt := Reference.runtime)
            (cosmosAddress Examples.alice) Examples.pw
            (world_after (rt := Reference.runtime)
               (StoreWallet Examples.bob "second" Examples.pw)
               Examples.with_alice))
     = fst (getStoredWallet (rt := Reference.runtime)
              (cosmosAddress Examples.alice) Examples.pw Examples.with_alice)
  /\ fst (testPassword (rt := Reference.runtime)
            (cosmosAddress Examples.alice) Examples.pw
            (world_after (rt := Reference.runtime)
               (StoreWallet Examples.bob "second" Examples.pw)
               Examples.with_alice))
     = fst (testPassword (rt := Reference.runtime)
              (cosmosAddress Examples.alice) Examples.pw Examples.with_alice).
Proof.
  assert (H1 : cosmosAddress Examples.alice <> "index") by discriminate.
  assert (H2 : cosmosAddress Examples.alice
               <> operation_address
                    (StoreWallet Examples.bob "second" Examples.pw))
    by discriminate.
  exact (conj H1
           (conj H2
              (other_addresses_unaffected Reference.runtime
                 (StoreWallet Examples.bob "second" Examples.pw)
                 (cosmosAddress Examples.alice) Examples.pw
                 Examples.with_alice H1 H2))).
Defined.

(** ** The index and the wallet entries *)


Section IndexFacts.

Context {rt : Runtime}.
Hypothesis json_laws : JSONLaws rt.

(** The world that a first [storeWallet] for the address leaves. *)
Lemma storeWallet_fresh_world (wallet : Wallet) (name password : string)
    (idx : list IndexEntry) (w : world) :
  localStorage w !! wallet_key (cosmosAddress wallet) = None ->
  index_is (localStorage w) idx ->
  name ∉ map ie_name idx ->
  exists ciphertext w1,
    storeWallet wallet name password w = (Returned tt, w1)
    /\ localStorage w1
       = <[wallet_key (cosmosAddress wallet) :=
             JSON_stringify
               (stored_json
                  (mkStoredWallet name (cosmosAddress wallet) ciphertext))]>
           (<[index_key :=
                JSON_stringify
                  (index_json
                     (idx ++ [mkIndexEntry name (cosmosAddress wallet)]))]>
              (localStorage w))
    /\ (CryptoLaws rt ->
        unsalted (JSON_stringify (wallet_json wallet)) password w ->
        forall w2, open_ciphertext ciphertext password w2
                   = Some (wallet_json wallet)).
Proof.
  intros Habsent Hidx Hname. do 2 eexists. split; [| split].
  - apply (storeWallet_fresh json_laws wallet name password idx w _ _
             Habsent Hidx Hname (encrypt_run _ _ w)).
  - reflexivity.
  - intros Hcrypto Hfree w2. unfold open_ciphertext.
    rewrite (decrypt_encrypt _ password _ w _ w2 Hcrypto Hfree
               (encrypt_run _ _ w)).
    apply (JSON_parse_stringify rt json_laws _ (persisted_wallet wallet)).
Qed.

Lemma index_is_insert (ls : gmap string string) (idx : list IndexEntry)
    (a text : string) :
  a <> "index" ->
  index_is
    (<[wallet_key a := text]>
       (<[index_key := JSON_stringify (index_json idx)]> ls)) idx.
Proof.
  intros Ha. unfold index_is.
  rewrite lookup_insert_ne by (by apply index_key_not_wallet).
  by rewrite lookup_insert_eq.
Qed.

(** In a consistent store a name is listed once: without the entries of
    its address it is not listed at all. *)
Lemma name_freed (idx : list IndexEntry) (n a : string) :
  NoDup (map ie_name idx) ->
  mkIndexEntry n a ∈ idx ->
  n ∉ map ie_name (filter (fun e => ie_address e <> a) idx).
Proof.
  induction idx as [|e idx IH]; [by intros _ ?%not_elem_of_nil |].
  simpl. rewrite NoDup_cons, elem_of_cons. intros [Hnot Hnodup] [Heq|Hin].
  - subst e. cbn [ie_name] in Hnot. rewrite filter_cons. cbn [ie_address].
    rewrite decide_False by (intros H; by apply H).
    intros Hin. by apply elem_of_map_filter in Hin.
  - rewrite filter_cons. destruct (decide (ie_address e <> a)); [| auto].
    simpl. rewrite not_elem_of_cons. split; [| auto].
    intros ->. apply Hnot. by apply (elem_of_map_1 ie_name) in Hin.
Qed.

End IndexFacts.

(** X5. A [storeWallet] that goes through appends its entry to the index:
    [getWalletIndex] then returns the entries it returned before, in their
    order, followed by the new name and address. *)
Theorem storeWallet_appends (rt : Runtime) :
  JSONLaws rt ->
  forall (wallet : Wallet) (name password : string) (w : world)
         (idx : list IndexEntry),
    cosmosAddress wallet <> "index" ->
    localStorage w !! wallet_key (cosmosAddress wallet) = None ->
    index_is (localStorage w) idx ->
    name ∉ map ie_name idx ->
    fst (getWalletIndex w) = Returned (index_json idx)
    /\ fst (getWalletIndex (world_after (StoreWallet wallet name password) w))
       = Returned
           (index_json (idx ++ [mkIndexEntry name (cosmosAddress wallet)])).
Proof.
  intros Hjson wallet name password w idx Ha Habsent Hidx Hname.
  split; [by rewrite (getWalletIndex_index Hjson idx w Hidx) |].
  destruct (storeWallet_fresh_world Hjson wallet name password idx w
              Habsent Hidx Hname) as (ciphertext & w1 & Hrun & Hls & _).
  cbn [world_after]. rewrite Hrun. cbn [snd].
  rewrite (getWalletIndex_index Hjson
             (idx ++ [mkIndexEntry name (cosmosAddress wallet)]) w1);
    [done |].
  rewrite Hls. by apply index_is_insert.
Qed.

Lemma storeWallet_appends_witness :
  JSONLaws Reference.runtime
  /\ cosmosAddress Examples.bob <> "index"
  /\ localStorage Examples.with_alice
       !! wallet_key (cosmosAddress Examples.bob) = None
  /\ index_is (rt := Reference.runtime) (localStorage Examples.with_alice)
       [mkIndexEntry "main" (cosmosAddress Examples.alice)]
  /\ ("second"
        ∉ map ie_name [mkIndexEntry "main" (cosmosAddress Examples.alice)])
  /\ fst (getWalletIndex (rt := Reference.runtime) Examples.with_alice)
     = Returned (index_json [mkIndexEntry "main" (cosmosAddress Examples.alice)])
  /\ fst (getWalletIndex (rt := Reference.runtime)
            (world_after (rt := Reference.runtime)
               (StoreWallet Examples.bob "second" Examples.pw)
               Examples.with_alice))
     = Returned
         (index_json
            ([mkIndexEntry "main" (cosmosAddress Examples.alice)]
               ++ [mkIndexEntry "second" (cosmosAddress Examples.bob)])).
Proof.
  assert (Ha : cosmosAddress Examples.bob <> "index") by discriminate.
  assert (Hname : "second" ∉ map ie_name
                    [mkIndexEntry "main" (cosmosAddress Examples.alice)]).
  { intros Hin. apply list_elem_of_singleton in Hin. discriminate. }
  exact (conj ReferenceFacts.json_laws
           (conj Ha
              (conj with_alice_no_bob
                 (conj with_alice_index
                    (conj Hname
                       (storeWallet_appends Reference.runtime
                          ReferenceFacts.json_laws Examples.bob "second"
                          Examples.pw Examples.with_alice _ Ha
                          with_alice_no_bob with_alice_index Hname)))))).
Defined.



(** ** Damaged stores *)

Section DamageFacts.

Context {rt : Runtime}.

Lemma getWalletIndex_storage (w1 w2 : world) :
  localStorage w1 = localStorage w2 ->
  fst (getWalletIndex w1) = fst (getWalletIndex w2).
Proof.
  intros Hsame. unfold getWalletIndex. unfold_M. simpl. rewrite Hsame.
  destruct (JSON_parse (or_default _ _)); reflexivity.
Qed.

Lemma index_unusable_storage (w1 w2 : world) :
  localStorage w1 = localStorage w2 -> index_unusable w1 -> index_unusable w2.
Proof.
  intros Hsame. unfold index_unusable.
  by rewrite (getWalletIndex_storage w1 w2 Hsame).
Qed.

Lemma addToIndex_unusable (name address : string) (w : world) :
  index_unusable w ->
  exists e, addToIndex name address w = (Thrown e, w) /\ classify e = None.
Proof.
  unfold index_unusable, addToIndex, getWalletIndex. unfold_M. simpl.
  destruct (JSON_parse (or_default _ _)) as [v|]; simpl.
  - destruct v; intros H; try (by destruct H); by exists TypeError.
  - intros _. by exists SyntaxError.
Qed.

Lemma removeFromIndex_unusable (address : string) (w : world) :
  index_unusable w ->
  exists e, removeFromIndex address w = (Thrown e, w) /\ classify e = None.
Proof.
  unfold index_unusable, removeFromIndex, getWalletIndex. unfold_M. simpl.
  destruct (JSON_parse (or_default _ _)) as [v|]; simpl.
  - destruct v; intros H; try (by destruct H); by exists TypeError.
  - intros _. by exists SyntaxError.
Qed.

(** What [loadFromStorage] does with a text that does not parse, and with
    one that does. *)
Lemma loadFromStorage_unparsed (address text : string) (w : world) :
  localStorage w !! wallet_key address = Some text ->
  text <> "" -> JSON_parse text = None ->
  loadFromStorage address w = (Thrown SyntaxError, w).
Proof.
  intros Hkey Htext Hparse. unfold loadFromStorage. unfold_M.
  fold (wallet_key address). rewrite Hkey.
  destruct (String.eqb_spec text ""); [done |]. by rewrite Hparse.
Qed.

Lemma loadFromStorage_parsed (address text : string) (v : json) (w : world) :
  localStorage w !! wallet_key address = Some text ->
  text <> "" -> JSON_parse text = Some v ->
  loadFromStorage address w = (Returned v, w).
Proof.
  intros Hkey Htext Hparse. unfold loadFromStorage. unfold_M.
  fold (wallet_key address). rewrite Hkey.
  destruct (String.eqb_spec text ""); [done |]. by rewrite Hparse.
Qed.

End DamageFacts.

(** X7. Once the index is unusable (reading it throws, or it is not an
    array, as after a wallet entry was written over it), no wallet can be
    stored and none removed: [storeWallet] for a free address and
    [removeWallet] with a password that opens the wallet both throw an
    error of none of the documented classes, and [localStorage] stays as
    it was. *)
Theorem unusable_index_blocks (rt : Runtime) :
  JSONLaws rt ->
  forall w : world,
    index_unusable w ->
    (forall (wallet : Wallet) (name password : string),
       localStorage w !! wallet_key (cosmosAddress wallet) = None ->
       exists (e : exn) (w' : world),
         storeWallet wallet name password w = (Thrown e, w')
         /\ classify e = None
         /\ localStorage w' = localStorage w)
    /\ (forall (address password : string) (sw : StoredWallet) (v : json),
          stored_at (localStorage w) address sw ->
          open_ciphertext (sw_wallet sw) password w = Some v ->
          exists e : exn,
            removeWallet address password w = (Thrown e, w)
            /\ classify e = None).
Proof.
  intros Hjson w Hbad. split.
  - intros wallet name password Hfree.
    unfold storeWallet. unfold mbind at 1, M_bind at 1.
    rewrite (loadFromStorage_absent _ w Hfree). cbn [truthy].
    unfold mbind at 1, M_bind at 1. rewrite encrypt_run.
    unfold addToStorage. unfold mbind at 1, M_bind at 1.
    destruct (addToIndex_unusable name (cosmosAddress wallet)
                (mkWorld (localStorage w) (random_source w)
                   (random_used w + 16 + 16)))
      as (e & Hrun & Hclass).
    { by apply (index_unusable_storage w). }
    rewrite Hrun. by exists e, (mkWorld (localStorage w) (random_source w)
                                  (random_used w + 16 + 16)).
  - intros address password sw v Hstored Hopen.
    unfold removeWallet. unfold mbind at 1, M_bind at 1.
    rewrite (loadFromStorage_stored Hjson address sw w Hstored).
    cbn [truthy stored_json negb]. unfold mbind at 1, M_bind at 1.
    rewrite (testPassword_stored Hjson address password sw w Hstored), Hopen.
    unfold removeFromStorage. unfold mbind at 1, M_bind at 1.
    destruct (removeFromIndex_unusable address w Hbad) as (e & Hrun & Hclass).
    rewrite Hrun. by exists e.
Qed.

(** The wallet entry of the address [index] lies where the index is read
    from. *)
Lemma stored_over_index (rt : Runtime) (sw : StoredWallet) (w : world) :
  JSONLaws rt ->
  stored_at (localStorage w) "index" sw -> index_unusable w.
Proof.
  intros Hjson Hstored. unfold index_unusable, getWalletIndex. unfold_M.
  unfold stored_at in Hstored.
  change (wallet_key "index") with (KEY_TAG +:+ "-index") in Hstored.
  rewrite Hstored.
  rewrite (or_default_stringify Hjson _ _ (persisted_stored sw)).
  by rewrite (JSON_parse_stringify rt Hjson _ (persisted_stored sw)).
Qed.

Lemma with_squatter_unusable :
  index_unusable (rt := Reference.runtime) Examples.with_squatter.
Proof.
  destruct (storeWallet_returned _ _ _ _ _ squatter_store_run)
    as (ciphertext & w1 & _ & Hstored).
  exact (stored_over_index Reference.runtime _ _ ReferenceFacts.json_laws
           Hstored).
Qed.

Lemma unusable_index_blocks_witness :
  JSONLaws Reference.runtime
  /\ index_unusable (rt := Reference.runtime) Examples.with_squatter
  /\ (forall (wallet : Wallet) (name password : string),
        localStorage Examples.with_squatter
          !! wallet_key (cosmosAddress wallet) = None ->
        exists (e : exn) (w' : world),
          storeWallet (rt := Reference.runtime) wallet name password
            Examples.with_squatter
          = (Thrown e, w')
          /\ classify e = None
          /\ localStorage w' = localStorage Examples.with_squatter)
  /\ (forall (address password : string) (sw : StoredWallet) (v : json),
        stored_at (rt := Reference.runtime)
          (localStorage Examples.with_squatter) address sw ->
        open_ciphertext (rt := Reference.runtime) (sw_wallet sw) password
          Examples.with_squatter
        = Some v ->
        exists e : exn,
          removeWallet (rt := Reference.runtime) address password
            Examples.with_squatter
          = (Thrown e, Examples.with_squatter)
          /\ classify e = None).
Proof.
  exact (conj ReferenceFacts.json_laws
           (conj with_squatter_unusable
              (unusable_index_blocks Reference.runtime
                 ReferenceFacts.json_laws Examples.with_squatter
                 with_squatter_unusable))).
Defined.

(** X8. A wallet entry whose text is not JSON makes all four operations
    on its address throw the parser's SyntaxError, which none of them
    catches and which is of none of the documented classes; the world
    stays as it was. *)
Theorem unparsed_entry_throws (rt : Runtime) :
  forall (wallet : Wallet) (name password text : string) (w : world),
    localStorage w !! wallet_key (cosmosAddress wallet) = Some text ->
    text <> "" ->
    JSON_parse text = None ->
    getStoredWallet (cosmosAddress wallet) password w = (Thrown SyntaxError, w)
    /\ testPassword (cosmosAddress wallet) password w = (Thrown SyntaxError, w)
    /\ removeWallet (cosmosAddress wallet) password w = (Thrown SyntaxError, w)
    /\ storeWallet wallet name password w = (Thrown SyntaxError, w)
    /\ classify SyntaxError = None.
Proof.
  intros wallet name password text w Hkey Htext Hparse.
  pose proof (loadFromStorage_unparsed _ text w Hkey Htext Hparse) as Hload.
  repeat split.
  - unfold getStoredWallet. unfold mbind at 1, M_bind at 1. by rewrite Hload.
  - unfold testPassword. unfold mbind at 1, M_bind at 1. by rewrite Hload.
  - unfold removeWallet. unfold mbind at 1, M_bind at 1. by rewrite Hload.
  - unfold storeWallet. unfold mbind at 1, M_bind at 1. by rewrite Hload.
Qed.

Lemma unparsed_entry_throws_witness :
  localStorage Damaged.cut_off !! wallet_key (cosmosAddress Damaged.stray)
  = Some "{"
  /\ "{" <> ""
  /\ JSON_parse (Runtime := Reference.runtime) "{" = None
  /\ getStoredWallet (rt := Reference.runtime) (cosmosAddress Damaged.stray)
       Examples.pw Damaged.cut_off
     = (Thrown SyntaxError, Damaged.cut_off)
  /\ testPassword (rt := Reference.runtime) (cosmosAddress Damaged.stray)
       Examples.pw Damaged.cut_off
     = (Thrown SyntaxError, Damaged.cut_off)
  /\ removeWallet (rt := Reference.runtime) (cosmosAddress Damaged.stray)
       Examples.pw Damaged.cut_off
     = (Thrown SyntaxError, Damaged.cut_off)
  /\ storeWallet (rt := Reference.runtime) Damaged.stray "main" Examples.pw
       Damaged.cut_off
     = (Thrown SyntaxError, Damaged.cut_off)
  /\ classify SyntaxError = None.
Proof.
  assert (Hkey : localStorage Damaged.cut_off
                   !! wallet_key (cosmosAddress Damaged.stray) = Some "{")
    by reflexivity.
  assert (Htext : "{" <> "") by discriminate.
  assert (Hparse : JSON_parse (Runtime := Reference.runtime) "{" = None)
    by reflexivity.
  exact (conj Hkey
           (conj Htext
              (conj Hparse
                 (unparsed_entry_throws Reference.runtime Damaged.stray "main"
                    Examples.pw "{" Damaged.cut_off Hkey Htext Hparse)))).
Defined.

(** X9. A wallet key that holds JSON which is truthy and has no [wallet]
    string (an empty object, say) locks its address: [storeWallet] takes
    it for a stored wallet and refuses, [getStoredWallet], [testPassword]
    and [removeWallet] report an incorrect password whatever the password
    is, so no call of the module removes the entry. *)
Theorem entry_without_ciphertext_locks (rt : Runtime) :
  forall (wallet : Wallet) (name password text : string) (v : json)
         (w : world),
    localStorage w !! wallet_key (cosmosAddress wallet) = Some text ->
    text <> "" ->
    JSON_parse text = Some v ->
    truthy v = true ->
    no_ciphertext v ->
    getStoredWallet (cosmosAddress wallet) password w
    = (Thrown (Error "Incorrect password"), w)
    /\ testPassword (cosmosAddress wallet) password w
       = (Thrown (Error "Password for wallet is incorrect"), w)
    /\ removeWallet (cosmosAddress wallet) password w
       = (Thrown (Error "Password for wallet is incorrect"), w)
    /\ storeWallet wallet name password w
       = (Thrown
            (Error "The wallet was already stored. Can't store the same wallet again."),
          w).
Proof.
  intros wallet name password text v w Hkey Htext Hparse Htruthy Hno.
  pose proof (loadFromStorage_parsed _ text v w Hkey Htext Hparse) as Hload.
  assert (Htest : testPassword (cosmosAddress wallet) password w
                  = (Thrown (Error "Password for wallet is incorrect"), w)).
  { unfold testPassword. unfold mbind at 1, M_bind at 1.
    rewrite Hload, Htruthy. unfold no_ciphertext in Hno. unfold_M. simpl.
    by destruct (js_get v "wallet") as [[]|]. }
  repeat split.
  - unfold getStoredWallet. unfold mbind at 1, M_bind at 1.
    rewrite Hload, Htruthy. unfold no_ciphertext in Hno. unfold_M. simpl.
    by destruct (js_get v "wallet") as [[]|].
  - exact Htest.
  - unfold removeWallet. unfold mbind at 1, M_bind at 1.
    rewrite Hload, Htruthy. cbn [negb]. unfold mbind at 1, M_bind at 1.
    by rewrite Htest.
  - unfold storeWallet. unfold mbind at 1, M_bind at 1.
    by rewrite Hload, Htruthy.
Qed.

Lemma entry_without_ciphertext_locks_witness :
  localStorage Damaged.hollow !! wallet_key (cosmosAddress Damaged.stray)
  = Some "{}"
  /\ "{}" <> ""
  /\ JSON_parse (Runtime := Reference.runtime) "{}" = Some (JObj [])
  /\ truthy (JObj []) = true
  /\ no_ciphertext (JObj [])
  /\ getStoredWallet (rt := Reference.runtime) (cosmosAddress Damaged.stray)
       Examples.pw Damaged.hollow
     = (Thrown (Error "Incorrect password"), Damaged.hollow)
  /\ testPassword (rt := Reference.runtime) (cosmosAddress Damaged.stray)
       Examples.pw Damaged.hollow
     = (Thrown (Error "Password for wallet is incorrect"), Damaged.hollow)
  /\ removeWallet (rt := Reference.runtime) (cosmosAddress Damaged.stray)
       Examples.pw Damaged.hollow
     = (Thrown (Error "Password for wallet is incorrect"), Damaged.hollow)
  /\ storeWallet (rt := Reference.runtime) Damaged.stray "main" Examples.pw
       Damaged.hollow
     = (Thrown
          (Error "The wallet was already stored. Can't store the same wallet again."),
        Damaged.hollow).
Proof.
  assert (Hkey : localStorage Damaged.hollow
                   !! wallet_key (cosmosAddress Damaged.stray) = Some "{}")
    by reflexivity.
  assert (Htext : "{}" <> "") by discriminate.
  assert (Hparse : JSON_parse (Runtime := Reference.runtime) "{}"
                   = Some (JObj []))
    by reflexivity.
  assert (Htruthy : truthy (JObj []) = true) by reflexivity.
  assert (Hno : no_ciphertext (JObj [])) by exact I.
  exact (conj Hkey
           (conj Htext
              (conj Hparse
                 (conj Htruthy
                    (conj Hno
                       (entry_without_ciphertext_locks Reference.runtime
                          Damaged.stray "main" Examples.pw "{}" (JObj [])
                          Damaged.hollow Hkey Htext Hparse Htruthy Hno)))))).
Defined.

(** ** Passwords that differ by a NUL character *)

Section NulFacts.

Context {rt : Runtime}.

Variable password : string.
Hypothesis short : length (Utf8_parse password) < hasher_blockSize.

Lemma decrypt_nul (transit : string) (w : world) :
  decrypt transit (password +:+ String "000" "") w = decrypt transit password w.
Proof. rewrite !decrypt_run. by rewrite PBKDF2_zero. Qed.

Lemma encrypt_nul (message : string) (w : world) :
  encrypt message (password +:+ String "000" "") w = encrypt message password w.
Proof. rewrite !encrypt_run. cbv zeta. by rewrite PBKDF2_zero. Qed.

Lemma getStoredWallet_nul (address : string) (w : world) :
  getStoredWallet address (password +:+ String "000" "") w
  = getStoredWallet address password w.
Proof.
  unfold getStoredWallet, try_catch, mbind, M_bind.
  destruct (loadFromStorage address w) as [[v|e] w0]; [| done].
  destruct (truthy v); [| done]. cbn [negb].
  destruct (as_string (js_get v "wallet") w0) as [[transit|e] w1]; [| done].
  by rewrite decrypt_nul.
Qed.

Lemma testPassword_nul (address : string) (w : world) :
  testPassword address (password +:+ String "000" "") w
  = testPassword address password w.
Proof.
  unfold testPassword, try_catch, mbind, M_bind.
  destruct (loadFromStorage address w) as [[v|e] w0]; [| done].
  destruct (truthy v); [| done]. cbn [negb].
  destruct (as_string (js_get v "wallet") w0) as [[transit|e] w1]; [| done].
  by rewrite decrypt_nul.
Qed.

Lemma removeWallet_nul (address : string) (w : world) :
  removeWallet address (password +:+ String "000" "") w
  = removeWallet address password w.
Proof.
  unfold removeWallet, mbind, M_bind.
  destruct (loadFromStorage address w) as [[v|e] w0]; [| done].
  destruct (truthy v); [| done]. cbn [negb].
  by rewrite testPassword_nul.
Qed.

Lemma storeWallet_nul (wallet : Wallet) (name : string) (w : world) :
  storeWallet wallet name (password +:+ String "000" "") w
  = storeWallet wallet name password w.
Proof.
  unfold storeWallet, mbind, M_bind.
  destruct (loadFromStorage (cosmosAddress wallet) w) as [[v|e] w0]; [| done].
  destruct (truthy v); [done |].
  by rewrite encrypt_nul.
Qed.

End NulFacts.

(** X10. A NUL character at the end of a password counts for nothing: for
    a password whose bytes do not fill the block of the hash, every
    function that takes a password does with the password followed by a
    NUL character exactly what it does with the password, in every world.
    The key derivation fills the password with zero bytes up to the
    block. *)
Theorem trailing_NUL_ignored (rt : Runtime) :
  forall password : string,
    length (Utf8_parse password) < hasher_blockSize ->
    forall w : world,
      (forall message,
         encrypt message (password +:+ String "000" "") w
         = encrypt message password w)
      /\ (forall transit,
            decrypt transit (password +:+ String "000" "") w
            = decrypt transit password w)
      /\ (forall wallet name,
            storeWallet wallet name (password +:+ String "000" "") w
            = storeWallet wallet name password w)
      /\ (forall address,
            getStoredWallet address (password +:+ String "000" "") w
            = getStoredWallet address password w)
      /\ (forall address,
            testPassword address (password +:+ String "000" "") w
            = testPassword address password w)
      /\ (forall address,
            removeWallet address (password +:+ String "000" "") w
            = removeWallet address password w).
Proof.
  intros password Hshort w. repeat split; intros.
  - by apply encrypt_nul.
  - by apply decrypt_nul.
  - by apply storeWallet_nul.
  - by apply getStoredWallet_nul.
  - by apply testPassword_nul.
  - by apply removeWallet_nul.
Qed.

Lemma trailing_NUL_ignored_witness :
  length (Utf8_parse Examples.pw) < hasher_blockSize (Runtime := Reference.runtime)
  /\ Examples.pw +:+ String "000" "" <> Examples.pw
  /\ removeWallet (rt := Reference.runtime) (cosmosAddress Examples.alice)
       (Examples.pw +:+ String "000" "") Examples.with_alice
     = removeWallet (rt := Reference.runtime) (cosmosAddress Examples.alice)
         Examples.pw Examples.with_alice.
Proof.
  assert (Hshort : length (Utf8_parse Examples.pw)
                   < hasher_blockSize (Runtime := Reference.runtime))
    by (vm_compute; lia).
  assert (Hne : Examples.pw +:+ String "000" "" <> Examples.pw)
    by discriminate.
  exact (conj Hshort
           (conj Hne
              (proj2 (proj2 (proj2 (proj2 (proj2
                 (trailing_NUL_ignored Reference.runtime Examples.pw Hshort
                    Examples.with_alice)))))
                 (cosmosAddress Examples.alice)))).
Defined.

(** ** The index of a reachable store *)

Lemma address_names_once (idx : list IndexEntry) (n n' a : string) :
  NoDup (map ie_address idx) ->
  mkIndexEntry n a ∈ idx -> mkIndexEntry n' a ∈ idx -> n = n'.
Proof.
  induction idx as [|e idx IH]; [by intros _ ?%not_elem_of_nil |].
  simpl. rewrite NoDup_cons, !elem_of_cons.
  intros [Hnot Hnodup] [H1|H1] [H2|H2].
  - congruence.
  - subst e. destruct Hnot. by apply (elem_of_map_1 ie_address) in H2.
  - subst e. destruct Hnot. by apply (elem_of_map_1 ie_address) in H1.
  - auto.
Qed.

Section ReachableFacts.

Context {rt : Runtime}.
Hypothesis json_laws : JSONLaws rt.

(** In a consistent store the entries of the index are the names and
    addresses of the wallet entries. *)
Lemma consistent_entries (ls : gmap string string) (idx : list IndexEntry) :
  index_is ls idx ->
  NoDup (map ie_address idx) ->
  "index" ∉ map ie_address idx ->
  (forall a, a <> "index" ->
     match ls !! wallet_key a with
     | None => a ∉ map ie_address idx
     | Some text =>
         exists n c,
           text = JSON_stringify (stored_json (mkStoredWallet n a c))
           /\ mkIndexEntry n a ∈ idx
     end) ->
  forall name address : string,
    mkIndexEntry name address ∈ idx
    <-> exists c, stored_at ls address (mkStoredWallet name address c).
Proof.
  intros Hidx Hnodup Hnot Hall name address. split.
  - intros Hin.
    assert (Hne : address <> "index").
    { intros ->. apply Hnot. by apply (elem_of_map_1 ie_address) in Hin. }
    specialize (Hall address Hne). unfold stored_at.
    destruct (ls !! wallet_key address) as [text|].
    + destruct Hall as (n & c & -> & Hin').
      rewrite (address_names_once idx name n address Hnodup Hin Hin').
      by exists c.
    + destruct Hall. by apply (elem_of_map_1 ie_address) in Hin.
  - intros [c Hstored].
    pose proof (stored_at_not_index json_laws ls idx _ _ Hidx Hstored) as Hne.
    specialize (Hall address Hne). unfold stored_at in Hstored.
    rewrite Hstored in Hall. destruct Hall as (n & c' & Heq & Hin).
    apply (JSON_stringify_inj json_laws) in Heq; [| constructor..].
    apply stored_json_inj in Heq. by injection Heq as -> _.
Qed.

End ReachableFacts.

(** X11. In every store that the operations reach from the empty one
    (addresses other than the word [index]), [getWalletIndex] returns the
    list of the stored wallets and nothing else: a name and an address are
    an entry of the index exactly when the wallet key of the address holds
    a wallet entry of that name and address. *)
Theorem index_lists_stored_wallets (rt : Runtime) :
  JSONLaws rt ->
  forall w : world,
    reachable w ->
    exists idx : list IndexEntry,
      getWalletIndex w = (Returned (index_json idx), w)
      /\ forall name address : string,
           mkIndexEntry name address ∈ idx
           <-> exists ciphertext,
                 stored_at (localStorage w) address
                   (mkStoredWallet name address ciphertext).
Proof.
  intros Hjson w Hreach.
  destruct (reachable_consistent Hjson w Hreach)
    as (idx & Hidx & _ & Hnodup & Hnot & Hall).
  exists idx. split; [by apply getWalletIndex_index |].
  by apply consistent_entries.
Qed.

Lemma with_alice_reachable :
  reachable (rt := Reference.runtime) Examples.with_alice.
Proof.
  apply (reachable_step (rt := Reference.runtime) Examples.fresh
           (StoreWallet Examples.alice "main" Examples.pw)).
  - by apply reachable_empty.
  - discriminate.
Qed.

Lemma index_lists_stored_wallets_witness :
  JSONLaws Reference.runtime
  /\ reachable (rt := Reference.runtime) Examples.with_alice
  /\ exists idx : list IndexEntry,
      getWalletIndex (rt := Reference.runtime) Examples.with_alice
      = (Returned (index_json idx), Examples.with_alice)
      /\ forall name address : string,
           mkIndexEntry name address ∈ idx
           <-> exists ciphertext,
                 stored_at (rt := Reference.runtime)
                   (localStorage Examples.with_alice) address
                   (mkStoredWallet name address ciphertext).
Proof.
  exact (conj ReferenceFacts.json_laws
           (conj with_alice_reachable
              (index_lists_stored_wallets Reference.runtime
                 ReferenceFacts.json_laws Examples.with_alice
                 with_alice_reachable))).
Defined.

(** X12. Removing a wallet frees its name. In a reachable store, a name
    that a stored wallet has is refused for a wallet of another, free
    address; once [removeWallet] has removed the stored wallet, the same
    [storeWallet] call goes through. *)
Theorem removeWallet_frees_name (rt : Runtime) :
  JSONLaws rt ->
  forall (w : world) (address password : string) (sw : StoredWallet)
         (v : json) (wallet : Wallet) (password' : string),
    reachable w ->
    stored_at (localStorage w) address sw ->
    open_ciphertext (sw_wallet sw) password w = Some v ->
    localStorage w !! wallet_key (cosmosAddress wallet) = None ->
    fst (storeWallet wallet (sw_name sw) password' w)
    = Thrown (Error "Key with that name already exists")
    /\ exists w1 : world,
         removeWallet address password w = (Returned tt, w1)
         /\ fst (storeWallet wallet (sw_name sw) password' w1) = Returned tt.
Proof.
  intros Hjson w address password sw v wallet password' Hreach Hstored Hopen
    Hfree.
  destruct (reachable_consistent Hjson w Hreach)
    as (idx & Hidx & Hnames & Hnodup & Hnot & Hall).
  pose proof (stored_at_not_index Hjson _ idx _ _ Hidx Hstored) as Hne.
  pose proof (Hall address Hne) as Hentry. unfold stored_at in Hstored.
  rewrite Hstored in Hentry. destruct Hentry as (n & c & Heq & Hin).
  apply (JSON_stringify_inj Hjson) in Heq; [| constructor..].
  apply stored_json_inj in Heq. subst sw. cbn [sw_name sw_wallet] in *.
  assert (Hother : cosmosAddress wallet <> "index").
  { intros Ha. rewrite Ha in Hfree. unfold index_is in Hidx.
    change (wallet_key "index") with index_key in Hfree.
    rewrite Hfree in Hidx. subst idx. by apply not_elem_of_nil in Hin. }
  assert (Hdiff : wallet_key (cosmosAddress wallet) <> wallet_key address)
    by (intros E; rewrite E, Hstored in Hfree; discriminate).
  split.
  - rewrite (storeWallet_name_taken Hjson wallet n password' idx w Hfree Hidx);
      [done |].
    by apply (elem_of_map_1 ie_name) in Hin.
  - eexists. split.
    + apply (removeWallet_accepted Hjson address password
               (mkStoredWallet n address c) idx v w Hstored Hopen Hidx).
    + set (w1 := with_storage _ w).
      destruct (storeWallet_fresh_world Hjson wallet n password'
                  (filter (fun e => ie_address e <> address) idx) w1)
        as (c' & w2 & Hrun & _); [| | | by rewrite Hrun].
      * subst w1. cbn. rewrite lookup_delete_ne by done.
        rewrite lookup_insert_ne
          by (apply not_eq_sym; by apply index_key_not_wallet).
        exact Hfree.
      * subst w1. unfold index_is. cbn.
        rewrite lookup_delete_ne by (by apply index_key_not_wallet).
        by rewrite lookup_insert_eq.
      * by apply name_freed.
Qed.

Lemma removeWallet_frees_name_witness :
  JSONLaws Reference.runtime
  /\ reachable (rt := Reference.runtime) Examples.with_alice
  /\ stored_at (rt := Reference.runtime) (localStorage Examples.with_alice)
       (cosmosAddress Examples.alice) Examples.alice_entry
  /\ open_ciphertext (rt := Reference.runtime)
       (sw_wallet Examples.alice_entry) Examples.pw Examples.with_alice
     = Some (wallet_json Examples.alice)
  /\ localStorage Examples.with_alice
       !! wallet_key (cosmosAddress Examples.bob) = None
  /\ fst (storeWallet (rt := Reference.runtime) Examples.bob
            (sw_name Examples.alice_entry) Examples.pw Examples.with_alice)
     = Thrown (Error "Key with that name already exists")
  /\ exists w1 : world,
       removeWallet (rt := Reference.runtime) (cosmosAddress Examples.alice)
         Examples.pw Examples.with_alice
       = (Returned tt, w1)
       /\ fst (storeWallet (rt := Reference.runtime) Examples.bob
                 (sw_name Examples.alice_entry) Examples.pw w1)
          = Returned tt.
Proof.
  exact (conj ReferenceFacts.json_laws
           (conj with_alice_reachable
              (conj with_alice_stored
                 (conj (alice_opens Examples.with_alice)
                    (conj with_alice_no_bob
                       (removeWallet_frees_name Reference.runtime
                          ReferenceFacts.json_laws Examples.with_alice
                          (cosmosAddress Examples.alice) Examples.pw
                          Examples.alice_entry (wallet_json Examples.alice)
                          Examples.bob Examples.pw with_alice_reachable
                          with_alice_stored
                          (alice_opens Examples.with_alice)
                          with_alice_no_bob)))))).
Defined.

(** ** The address encoder *)

(** C8. [getCosmosAddress] is a function of the bytes of the public key,
    and on the public keys of the test-suite it gives the addresses the
    test-suite expects: the two vectors of the address test, and the
    public keys of the two wallets of the key generation tests. *)
Theorem getCosmosAddress_vectors :
  (forall publicKey publicKey' : list byte,
     publicKey = publicKey' ->
     CosmosKeys.getCosmosAddress publicKey
     = CosmosKeys.getCosmosAddress publicKey')
  /\ CosmosKeys.getCosmosAddress
       (Reference.parse_hex
          "52FDFC072182654F163F5F0F9A621D729566C74D10037C4D7BBB0407D1E2C64981")
     = "cosmos1v3z3242hq7xrms35gu722v4nt8uux8nvug5gye"
  /\ CosmosKeys.getCosmosAddress
       (Reference.parse_hex
          "855AD8681D0D86D1E91E00167939CB6694D2C422ACD208A0072939487F6999EB9D")
     = "cosmos1hrtz7umxfyzun8v2xcas0v45hj2uhp6sgdpac8"
  /\ CosmosKeys.getCosmosAddress
       (Reference.parse_hex (publicKey Examples.alice))
     = cosmosAddress Examples.alice
  /\ CosmosKeys.getCosmosAddress (Reference.parse_hex (publicKey Examples.bob))
     = cosmosAddress Examples.bob.
Proof.
  split; [by intros publicKey publicKey' -> |].
  vm_compute. repeat split; reflexivity.
Qed.

(** ** The signer *)

Lemma be_bytes_length (count : nat) (z : Z) :
  length (Signer.be_bytes count z) = count.
Proof.
  revert z. induction count as [|count IH]; intros z; [done |].
  cbn [Signer.be_bytes]. rewrite length_app, IH. simpl. lia.
Qed.

(** A signature has 64 bytes. *)
Lemma sign_digest_length (digest privateKey : list byte) :
  match Signer.sign_digest digest privateKey with
  | Signer.Signature bytes => length bytes = 64
  | _ => True
  end.
Proof.
  unfold Signer.sign_digest. cbv zeta.
  destruct (negb _); [done |].
  destruct (Signer.nonce privateKey digest) as [k|]; [| done].
  destruct (Secp256k1.affine _) as [[x1 y1]|]; [| done].
  destruct (_ || _); [done |].
  by rewrite length_app, !be_bytes_length.
Qed.

(** C9. [signWithPrivateKey] takes the sign message and the private key
    and nothing else: the nonce is computed from the private key and the
    digest.  What it returns for a message and a key is one signature of
    64 bytes; it depends on the message through its canonical text only,
    so that the message of the test-suite signs the same with the keys of
    its objects in another order; and for that message and its private
    key the signature is the one the test-suite expects. *)
Theorem signWithPrivateKey_deterministic :
  (forall (signMessage : json) (privateKey : list byte),
     Signer.signWithPrivateKey signMessage privateKey
     = Signer.sign_digest
         (SHA256.digest (Utf8_parse (Signer.canonical_text signMessage)))
         privateKey
     /\ match Signer.signWithPrivateKey signMessage privateKey with
        | Signer.Signature bytes => length bytes = 64
        | _ => True
        end)
  /\ (forall (signMessage signMessage' : json) (privateKey : list byte),
        Signer.canonical_text signMessage = Signer.canonical_text signMessage' ->
        Signer.signWithPrivateKey signMessage privateKey
        = Signer.signWithPrivateKey signMessage' privateKey)
  /\ SignVector.reordered <> SignVector.signMessage
  /\ Signer.signWithPrivateKey SignVector.reordered SignVector.privateKey
     = Signer.signWithPrivateKey SignVector.signMessage SignVector.privateKey
  /\ Signer.signWithPrivateKey SignVector.signMessage SignVector.privateKey
     = Signer.Signature SignVector.signature.
Proof.
  split; [| split; [| split; [| split]]].
  - intros signMessage privateKey. split; [reflexivity |].
    apply sign_digest_length.
  - intros signMessage signMessage' privateKey Htext.
    unfold Signer.signWithPrivateKey. by rewrite Htext.
  - discriminate.
  - unfold Signer.signWithPrivateKey.
    replace (Signer.canonical_text SignVector.reordered)
      with (Signer.canonical_text SignVector.signMessage)
      by (vm_compute; reflexivity).
    reflexivity.
  - vm_compute. reflexivity.
Qed.

(** ** The address [index] *)

Section IndexAddress.

Context {rt : Runtime}.

(** What [loadFromStorage] of the address [index] and [getWalletIndex]
    read is the same text. *)
Lemma loadFromStorage_index (w : world) :
  loadFromStorage "index" w
  = match localStorage w !! index_key with
    | None => (Returned JNull, w)
    | Some text =>
        if String.eqb text "" then (Returned JNull, w)
        else
          match JSON_parse text with
          | Some v => (Returned v, w)
          | None => (Thrown SyntaxError, w)
          end
    end.
Proof.
  unfold loadFromStorage. unfold_M.
  change (KEY_TAG +:+ "-" +:+ "index") with index_key.
  destruct (localStorage w !! index_key) as [text|]; [| done].
  destruct (String.eqb text ""); [done |].
  by destruct (JSON_parse text).
Qed.

(** With a value in the place of the index that is not an array, neither
    [addToStorage] nor [removeFromStorage] writes. *)
Lemma addToStorage_no_array (name address ciphertext text : string) (v : json)
    (w : world) :
  localStorage w !! index_key = Some text ->
  String.eqb text "" = false ->
  JSON_parse text = Some v ->
  (forall entries, v <> JArr entries) ->
  localStorage (snd (addToStorage name address ciphertext w)) = localStorage w.
Proof.
  intros Hkey Htext Hparse Hv.
  unfold addToStorage, addToIndex, getWalletIndex. unfold_M.
  fold index_key. rewrite Hkey. unfold or_default. rewrite Htext, Hparse.
  simpl. destruct v; try done. by destruct (Hv elements).
Qed.

Lemma removeFromStorage_no_array (address text : string) (v : json) (w : world) :
  localStorage w !! index_key = Some text ->
  String.eqb text "" = false ->
  JSON_parse text = Some v ->
  (forall entries, v <> JArr entries) ->
  localStorage (snd (removeFromStorage address w)) = localStorage w.
Proof.
  intros Hkey Htext Hparse Hv.
  unfold removeFromStorage, removeFromIndex, getWalletIndex. unfold_M.
  fold index_key. rewrite Hkey. unfold or_default. rewrite Htext, Hparse.
  simpl. destruct v; try done. by destruct (Hv elements).
Qed.

Lemma storeWallet_index_address (wallet : Wallet) (name password text : string)
    (w : world) :
  cosmosAddress wallet = "index" ->
  localStorage w !! index_key = Some text ->
  text <> "" ->
  localStorage (snd (storeWallet wallet name password w)) = localStorage w.
Proof.
  intros Ha Hkey Htext. apply String.eqb_neq in Htext.
  unfold storeWallet. unfold mbind at 1, M_bind at 1.
  rewrite Ha, loadFromStorage_index, Hkey, Htext.
  destruct (JSON_parse text) as [v|] eqn:Hparse; [| done].
  destruct (truthy v) eqn:Htruthy; [done |].
  unfold mbind at 1, M_bind at 1. rewrite encrypt_run. cbv zeta.
  rewrite (addToStorage_no_array name "index" _ text v); [done | done.. |].
  intros entries ->. discriminate.
Qed.

Lemma removeWallet_index_address (password : string) (w : world) :
  localStorage (snd (removeWallet "index" password w)) = localStorage w.
Proof.
  unfold removeWallet. unfold mbind at 1, M_bind at 1.
  rewrite loadFromStorage_index.
  destruct (localStorage w !! index_key) as [text|] eqn:Hkey; [| done].
  destruct (String.eqb text "") eqn:Htext; [done |].
  destruct (JSON_parse text) as [v|] eqn:Hparse; [| done].
  destruct (truthy v) eqn:Htruthy; [| done]. cbn [negb].
  unfold mbind at 1, M_bind at 1.
  pose proof (testPassword_world "index" password w) as Hworld.
  unfold testPassword in *. unfold mbind at 1, M_bind at 1 in Hworld.
  unfold mbind at 1, M_bind at 1.
  rewrite loadFromStorage_index, Hkey, Htext, Hparse, Htruthy in *.
  cbn [negb] in *.
  destruct (js_get v "wallet") as [[]|] eqn:Hget;
    try (unfold_M; simpl; done).
  destruct (try_catch _ _ w) as [[[]|e] w1]; simpl in Hworld; subst w1;
    [| done].
  apply (removeFromStorage_no_array "index" text v w Hkey Htext Hparse).
  intros entries ->. discriminate.
Qed.

End IndexAddress.

(** X16. The address [index] does harm once.  [removeWallet],
    [getStoredWallet] and [testPassword] for that address never change
    [localStorage], whatever it holds; and [storeWallet] for a wallet of
    that address changes it only when the index key is absent or holds
    the empty text, that is, before the first wallet is stored. *)
Theorem index_address_writes_once (rt : Runtime) :
  forall (o : operation) (w : world),
    operation_address o = "index" ->
    match o with
    | StoreWallet _ _ _ =>
        exists text, localStorage w !! index_key = Some text /\ text <> ""
    | _ => True
    end ->
    localStorage (world_after o w) = localStorage w.
Proof.
  intros o w Ha Hindex.
  destruct o as [wallet name password|address password|address password
                |address password]; cbn [world_after operation_address] in *.
  - destruct Hindex as (text & Hkey & Htext).
    by apply (storeWallet_index_address wallet name password text).
  - subst address. apply removeWallet_index_address.
  - by rewrite getStoredWallet_world.
  - by rewrite testPassword_world.
Qed.

Lemma index_address_writes_once_witness :
  operation_address (StoreWallet Examples.squatter "main" Examples.pw) = "index"
  /\ (exists text,
        localStorage (mkWorld {[ index_key := "[]" ]} Examples.dice 0)
          !! index_key = Some text
        /\ text <> "")
  /\ localStorage
       (world_after (rt := Reference.runtime)
          (StoreWallet Examples.squatter "main" Examples.pw)
          (mkWorld {[ index_key := "[]" ]} Examples.dice 0))
     = localStorage (mkWorld {[ index_key := "[]" ]} Examples.dice 0).
Proof.
  assert (Hindex : exists text,
             localStorage (mkWorld {[ index_key := "[]" ]} Examples.dice 0)
               !! index_key = Some text
             /\ text <> "").
  { exists "[]". split; [reflexivity | discriminate]. }
  exact (conj eq_refl
           (conj Hindex
              (index_address_writes_once Reference.runtime
                 (StoreWallet Examples.squatter "main" Examples.pw)
                 (mkWorld {[ index_key := "[]" ]} Examples.dice 0)
                 eq_refl Hindex))).
Defined.

(** ** An index entry without its wallet *)

Lemma index_json_inj (idx idx' : list IndexEntry) :
  index_json idx = index_json idx' -> idx = idx'.
Proof.
  unfold index_json. intros [= H]. revert idx' H.
  induction idx as [|[n a] idx IH]; intros [|[n' a'] idx']; try done.
  simpl. intros [= -> -> H]. f_equal. by apply IH.
Qed.

(** X17. The invariant of the data model is not kept from every store
    that has it: it does not say that an index entry has its wallet.  A
    store whose index lists an address that has no wallet entry has the
    invariant; [storeWallet] for that address returns, and the address is
    then twice in the index. *)
Lemma dangling_entry_breaks_invariant :
  store_invariant (rt := Reference.runtime) (localStorage Damaged.dangling)
  /\ exists w' : world,
       storeWallet (rt := Reference.runtime) Examples.alice "main" Examples.pw
         Damaged.dangling
       = (Returned tt, w')
       /\ index_is (rt := Reference.runtime) (localStorage w')
            [mkIndexEntry "old" (cosmosAddress Examples.alice);
             mkIndexEntry "main" (cosmosAddress Examples.alice)]
       /\ ~ store_invariant (rt := Reference.runtime) (localStorage w').
Proof.
  assert (Hidx : index_is (rt := Reference.runtime)
                   (localStorage Damaged.dangling)
                   [mkIndexEntry "old" (cosmosAddress Examples.alice)])
    by reflexivity.
  assert (Hnone : forall a sw,
             ~ stored_at (rt := Reference.runtime)
                 (localStorage Damaged.dangling) a sw).
  { intros a sw Hsw.
    pose proof (stored_at_not_index ReferenceFacts.json_laws _ _ a sw Hidx Hsw)
      as Hne.
    unfold stored_at, Damaged.dangling in Hsw. cbn [localStorage] in Hsw.
    rewrite lookup_singleton_ne in Hsw; [done |].
    apply not_eq_sym. by apply index_key_not_wallet. }
  split.
  - exists [mkIndexEntry "old" (cosmosAddress Examples.alice)].
    split; [exact Hidx |]. split; [| split].
    + apply NoDup_singleton.
    + intros a sw Hsw. by destruct (Hnone a sw).
    + intros a1 a2 sw1 sw2 Hsw. by destruct (Hnone a1 sw1).
  - assert (Habsent : localStorage Damaged.dangling
                        !! wallet_key (cosmosAddress Examples.alice) = None)
      by (apply lookup_singleton_ne; discriminate).
    assert (Hname : "main" ∉ map ie_name
                      [mkIndexEntry "old" (cosmosAddress Examples.alice)]).
    { intros Hin. apply list_elem_of_singleton in Hin. discriminate. }
    destruct (storeWallet_fresh_world ReferenceFacts.json_laws Examples.alice
                "main" Examples.pw
                [mkIndexEntry "old" (cosmosAddress Examples.alice)]
                Damaged.dangling Habsent Hidx Hname)
      as (ciphertext & w' & Hrun & Hls & _).
    exists w'. split; [exact Hrun |].
    assert (Hidx' : index_is (rt := Reference.runtime) (localStorage w')
                      [mkIndexEntry "old" (cosmosAddress Examples.alice);
                       mkIndexEntry "main" (cosmosAddress Examples.alice)]).
    { rewrite Hls. apply (index_is_insert (rt := Reference.runtime)).
      discriminate. }
    split; [exact Hidx' |].
    intros (idx & Hidx2 & _ & Honce & _).
    assert (Hsame : idx = [mkIndexEntry "old" (cosmosAddress Examples.alice);
                          mkIndexEntry "main" (cosmosAddress Examples.alice)]).
    { unfold index_is in Hidx', Hidx2.
      destruct (localStorage w' !! index_key) as [text|]; [| done].
      rewrite Hidx2 in Hidx'.
      apply (JSON_stringify_inj ReferenceFacts.json_laws) in Hidx';
        [| constructor..].
      by apply index_json_inj in Hidx'. }
    subst idx.
    assert (Hstored : stored_at (rt := Reference.runtime) (localStorage w')
                        (cosmosAddress Examples.alice)
                        (mkStoredWallet "main" (cosmosAddress Examples.alice)
                           ciphertext))
      by (unfold stored_at; rewrite Hls; apply lookup_insert_eq).
    specialize (Honce _ _ Hstored). cbn [sw_address] in Honce.
    vm_compute in Honce. discriminate.
Qed.
